(** * Masonry running positions, flex gap accumulation and gap painting

    A shallow embedding of
      - blink/renderer/core/layout/masonry/masonry_running_positions.cc
      - blink/renderer/core/layout/flex/flex_gap_accumulator.{h,cc}
      - blink/renderer/core/paint/gap_decorations_painter.cc
    followed by the properties proved about them.

    Conventions of the embedding.
      - A [LayoutUnit] is its raw fixed-point value, a [Z].
      - A [wtf_size_t] that indexes a vector is a [nat].  Where the source
        subtracts from one, either the difference cannot be negative under
        the preconditions stated beside it, or the wrap-around is written
        out.
      - A bounds-checked vector access or a CHECK that fails stops the
        program: the embedded function returns [None].
      - A DCHECK is a debug-only assertion; it is not a branch of the
        embedded function but a hypothesis of the theorems that need it. *)

From stdpp Require Import base numbers option list sorting relations.
From Stdlib Require Import ZArith Lia.

Local Open Scope Z_scope.

(** ** Layout units *)

Module LayoutUnit.

(** Modelled from the spec: [LayoutUnit] (platform/geometry/layout_unit.h
    is not among the sources).  The spec calls it a signed fixed-point
    coordinate; it is embedded as the raw 32-bit value with 6 fractional
    bits, whose sums and differences saturate at the ends of the 32-bit
    range, and which is compared through its raw value. *)
Definition kFixedPointDenominator : Z := 64.
Definition kIntMax : Z := 2147483647.
Definition kIntMin : Z := -2147483648.

Definition InRange (x : Z) : Prop := kIntMin <= x <= kIntMax.

Definition Clamp (x : Z) : Z := Z.max kIntMin (Z.min kIntMax x).

(** [LayoutUnit()] *)
Definition Zero : Z := 0.
(** [LayoutUnit::Max()] *)
Definition Max : Z := kIntMax.
(** [LayoutUnit(int)] *)
Definition FromInt (n : Z) : Z := Clamp (n * kFixedPointDenominator).

(** [a + b] and [a - b] *)
Definition add (a b : Z) : Z := Clamp (a + b).
Definition sub (a b : Z) : Z := Clamp (a - b).

(** [a / 2]: the quotient of the raw values [64 * a] and [LayoutUnit(2)],
    truncated towards zero. *)
Definition half (a : Z) : Z :=
  Clamp (Z.quot (kFixedPointDenominator * a) (FromInt 2)).

End LayoutUnit.

(** ** Masonry running positions *)

Module Masonry.

(** [GridSpan], a definite span of grid lines [start_line, end_line).  The
    class keeps [start_line < end_line] (its constructor asserts it), so
    [SpanSize] is at least 1 and [span_size - 1] does not wrap; the theorems
    about items state it as a hypothesis. *)
Record GridSpan := TranslatedDefiniteGridSpan
  { StartLine : nat; EndLine : nat }.

Definition SpanSize (span : GridSpan) : nat :=
  (EndLine span - StartLine span)%nat.

(** [++span] *)
Definition Next (span : GridSpan) : GridSpan :=
  TranslatedDefiniteGridSpan (S (StartLine span)) (S (EndLine span)).

Definition span_eqb (a b : GridSpan) : bool :=
  Nat.eqb (StartLine a) (StartLine b) && Nat.eqb (EndLine a) (EndLine b).

Record TrackOpening := MkTrackOpening
  { start_position : Z; end_position : Z }.

(** [TrackOpening::Size()] *)
Definition Size (o : TrackOpening) : Z :=
  LayoutUnit.sub (end_position o) (start_position o).

(** Modelled from the spec: [EligibleTrackOpeningPath]
    (masonry_running_positions.h is not among the sources).  The spec
    describes it as the starting track index, a start position and the
    list of opening indices consumed, valid iff a position was found, the
    invalid result being an unset optional whose position reads as the
    zero default. *)
Record EligibleTrackOpeningPath := MkPath
  { path_start_position : option Z;
    starting_track_index : nat;
    track_opening_indices : list nat }.

Definition EmptyPath : EligibleTrackOpeningPath := MkPath None 0 [].

Definition IsValid (p : EligibleTrackOpeningPath) : bool :=
  bool_decide (is_Some (path_start_position p)).

(** The [LayoutUnit] read from the [start_position] member. *)
Definition StartPositionOf (p : EligibleTrackOpeningPath) : Z :=
  default LayoutUnit.Zero (path_start_position p).

(** The members of [MasonryRunningPositions] the embedded functions use. *)
Record MasonryRunningPositions := MkMasonry
  { running_positions_ : list Z;
    track_collection_openings_ : list (list TrackOpening);
    track_collection_sizes_ : list Z;
    tie_threshold_ : Z;
    auto_placement_cursor_ : nat;
    is_dense_packing_ : bool }.

Definition with_running_positions (m : MasonryRunningPositions)
    (rp : list Z) : MasonryRunningPositions :=
  MkMasonry rp (track_collection_openings_ m) (track_collection_sizes_ m)
    (tie_threshold_ m) (auto_placement_cursor_ m) (is_dense_packing_ m).

Definition with_openings (m : MasonryRunningPositions)
    (tco : list (list TrackOpening)) : MasonryRunningPositions :=
  MkMasonry (running_positions_ m) tco (track_collection_sizes_ m)
    (tie_threshold_ m) (auto_placement_cursor_ m) (is_dense_packing_ m).

(** [*std::max_element(first, last)] and [*std::min_element(first, last)];
    dereferencing the end iterator of an empty range is [None]. *)
Definition max_element (l : list Z) : option Z :=
  match l with
  | [] => None
  | x :: l' => Some (foldl Z.max x l')
  end.

Definition min_element (l : list Z) : option Z :=
  match l with
  | [] => None
  | x :: l' => Some (foldl Z.min x l')
  end.

(** [GetMaxPositionForSpan]: [subspan] checks its bounds. *)
Definition GetMaxPositionForSpan (m : MasonryRunningPositions)
    (span : GridSpan) : option Z :=
  let rp := running_positions_ m in
  if decide (StartLine span + SpanSize span <= length rp)%nat
  then max_element (take (SpanSize span) (drop (StartLine span) rp))
  else None.

(** [(running_positions_.size() - span_size) + 1] in [wtf_size_t].  When
    [span_size] exceeds the number of tracks (excluded by the caller's
    DCHECK) the unsigned difference wraps around modulo [2^32]: for
    [span_size = tracks + 1] the sum is 0, for a larger [span_size] it is
    [2^32 - (span_size - tracks) + 1]. *)
Definition FirstNonFitStartLine (track_count span_size : nat) : nat :=
  if decide (span_size <= track_count)%nat
  then ((track_count - span_size) + 1)%nat
  else
    N.to_nat
      ((N.of_nat track_count + 4294967296
        - N.of_nat span_size mod 4294967296 + 1) mod 4294967296)%N.

(** [GetMaxPositionsForAllTracks].  The loop visits the start lines
    [0 .. first_non_fit_start_line - 1]: none for
    [span_size = tracks + 1], where the result is the empty vector; for a
    larger [span_size] the loop is entered and its first window is out
    of bounds. *)
Definition GetMaxPositionsForAllTracks (m : MasonryRunningPositions)
    (span_size : nat) : option (list Z) :=
  let rp := running_positions_ m in
  if decide (span_size = 1%nat) then Some rp
  else
    let first_non_fit_start_line :=
      FirstNonFitStartLine (length rp) span_size in
    mapM (λ start,
            GetMaxPositionForSpan m
              (TranslatedDefiniteGridSpan start (start + span_size)))
         (seq 0 first_non_fit_start_line).

(** The lambda [FindPositionWithinThreshold] of [GetFirstEligibleLine]:
    the first index [i >= begin_index] with
    [max_running_positions[i] <= largest_max_running_position_allowed];
    [None] is [kNotFound]. *)
Fixpoint FindFrom (allowed : Z) (l : list Z) (i : nat) : option nat :=
  match l with
  | [] => None
  | x :: l' => if decide (x <= allowed) then Some i
               else FindFrom allowed l' (S i)
  end.

Definition FindPositionWithinThreshold (max_running_positions : list Z)
    (allowed : Z) (begin_index : nat) : option nat :=
  FindFrom allowed (drop begin_index max_running_positions) begin_index.

(** [GetFirstEligibleLine]: the returned span paired with the value
    written to [max_running_position]. *)
Definition GetFirstEligibleLine (m : MasonryRunningPositions)
    (span_size : nat) : option (GridSpan * Z) :=
  max_running_positions ← GetMaxPositionsForAllTracks m span_size;
  smallest ← min_element max_running_positions;
  let largest_max_running_position_allowed :=
    LayoutUnit.add smallest (tie_threshold_ m) in
  let first_eligible_line :=
    match FindPositionWithinThreshold max_running_positions
            largest_max_running_position_allowed
            (auto_placement_cursor_ m) with
    | Some i => Some i
    | None => FindPositionWithinThreshold max_running_positions
                largest_max_running_position_allowed 0
    end in
  line ← first_eligible_line;
  max_running_position ← max_running_positions !! line;
  Some (TranslatedDefiniteGridSpan line (line + span_size),
        max_running_position).

(** A [for] loop over track indices whose body may stop the program. *)
Fixpoint for_each_track {St : Type} (body : nat → St → option St)
    (tracks : list nat) (st : St) : option St :=
  match tracks with
  | [] => Some st
  | t :: rest => st' ← body t st; for_each_track body rest st'
  end.

(** The body of the loop of [UpdateRunningPositionsForSpan]. *)
Definition UpdateTrack (new_running_position : Z)
    (max_running_position_for_span : option Z) (track_idx : nat)
    (m : MasonryRunningPositions) : option MasonryRunningPositions :=
  current_running_position ← running_positions_ m !! track_idx;
  m1 ← match max_running_position_for_span with
       | Some max_position =>
         if decide (current_running_position < max_position) then
           if decide (track_idx < length (track_collection_openings_ m))%nat
           then Some (with_openings m
                  (alter (λ openings, openings ++
                            [MkTrackOpening current_running_position
                               max_position])
                     track_idx (track_collection_openings_ m)))
           else None
         else Some m
       | None => Some m
       end;
  Some (with_running_positions m1
          (<[track_idx := new_running_position]> (running_positions_ m1))).

Definition UpdateRunningPositionsForSpan (m : MasonryRunningPositions)
    (span : GridSpan) (new_running_position : Z)
    (max_running_position_for_span : option Z)
    : option MasonryRunningPositions :=
  if decide (EndLine span <= length (running_positions_ m))%nat then
    for_each_track
      (UpdateTrack new_running_position max_running_position_for_span)
      (seq (StartLine span) (EndLine span - StartLine span)) m
  else None.

(** [CalculateUsedTrackSize] *)
Definition CalculateUsedTrackSize (m : MasonryRunningPositions)
    (span : GridSpan) : option Z :=
  if decide (EndLine span <= length (track_collection_sizes_ m))%nat then
    Some (foldl LayoutUnit.add LayoutUnit.Zero
            (take (EndLine span - StartLine span)
               (drop (StartLine span) (track_collection_sizes_ m))))
  else None.

(** The two statements executed when a frame of
    [AccumulateTrackOpeningsToAccommodateItem] accepts opening [i]:
    the start position is assigned only if the result is not valid yet,
    then [i] is appended. *)
Definition RecordOpening (r : EligibleTrackOpeningPath)
    (overlap_start_position : Z) (i : nat) : EligibleTrackOpeningPath :=
  MkPath (if IsValid r then path_start_position r
          else Some overlap_start_position)
         (starting_track_index r)
         (track_opening_indices r ++ [i]).

(** The loop over the openings of one track.  [deeper] is the recursive
    call for the next track, absent when [num_tracks_remaining == 0]. *)
Fixpoint ScanOpenings (item_stacking_axis_contribution : Z)
    (deeper : option (Z → Z → EligibleTrackOpeningPath →
                        option EligibleTrackOpeningPath))
    (previous_start previous_end : Z)
    (openings : list TrackOpening) (i : nat)
    (r : EligibleTrackOpeningPath) : option EligibleTrackOpeningPath :=
  match openings with
  | [] => Some r
  | current_track_opening :: rest =>
    let overlap_start_position :=
      Z.max previous_start (start_position current_track_opening) in
    let overlap_end_position :=
      Z.min previous_end (end_position current_track_opening) in
    let overlap_range_size :=
      LayoutUnit.sub overlap_end_position overlap_start_position in
    if decide (item_stacking_axis_contribution <= overlap_range_size) then
      match deeper with
      | None => Some (RecordOpening r overlap_start_position i)
      | Some next_track =>
        r' ← next_track overlap_start_position overlap_end_position r;
        if IsValid r' then Some (RecordOpening r' overlap_start_position i)
        else ScanOpenings item_stacking_axis_contribution deeper
               previous_start previous_end rest (S i) r'
      end
    else ScanOpenings item_stacking_axis_contribution deeper
           previous_start previous_end rest (S i) r
  end.

(** [AccumulateTrackOpeningsToAccommodateItem]: the result object after
    the call; the returned boolean is [IsValid] of it. *)
Fixpoint AccumulateTrackOpeningsToAccommodateItem
    (m : MasonryRunningPositions)
    (item_stacking_axis_contribution : Z)
    (previous_track_opening_start_position : Z)
    (previous_track_opening_end_position : Z)
    (num_tracks_remaining : nat) (track_to_check_for_openings : nat)
    (eligible_track_opening_result : EligibleTrackOpeningPath)
    : option EligibleTrackOpeningPath :=
  current_track_openings ←
    track_collection_openings_ m !! track_to_check_for_openings;
  ScanOpenings item_stacking_axis_contribution
    match num_tracks_remaining with
    | O => None
    | S remaining =>
      Some (λ overlap_start overlap_end r,
              AccumulateTrackOpeningsToAccommodateItem m
                item_stacking_axis_contribution overlap_start overlap_end
                remaining (S track_to_check_for_openings) r)
    end
    previous_track_opening_start_position
    previous_track_opening_end_position
    current_track_openings 0%nat eligible_track_opening_result.

(** Modelled from the spec: [GridItemData] (not among the sources), reduced
    to what the function reads and writes: the auto-placement flag and the
    item's resolved span in the grid-axis direction.  [UpdateSpan] is
    [with_span]: the spec says the item's resolved span is set to the
    winning span. *)
Record GridItemData := MkItem
  { is_auto_placed : bool; resolved_span : GridSpan }.

Definition with_span (item : GridItemData) (span : GridSpan)
    : GridItemData :=
  MkItem (is_auto_placed item) span.

(** One iteration of the [while] loop of
    [GetEligibleTrackOpeningAndUpdateMasonryItemSpan] for the candidate
    [item_span]; the result is the value of
    [highest_eligible_track_opening_result] after it. *)
Definition TryCandidateSpan (m : MasonryRunningPositions)
    (item_stacking_axis_contribution : Z) (span_size : nat)
    (used_track_size : Z) (item_span : GridSpan)
    (highest : EligibleTrackOpeningPath)
    : option EligibleTrackOpeningPath :=
  candidate_track_size ← CalculateUsedTrackSize m item_span;
  if decide (candidate_track_size ≠ used_track_size) then Some highest
  else
    let current_track := StartLine item_span in
    openings ← track_collection_openings_ m !! current_track;
    match openings with
    | [] => Some highest
    | first_opening :: _ =>
      if IsValid highest &&
         bool_decide (StartPositionOf highest <= start_position first_opening)
      then Some highest
      else
        eligible_track_opening_result ←
          AccumulateTrackOpeningsToAccommodateItem m
            item_stacking_axis_contribution
            LayoutUnit.Zero LayoutUnit.Max
            (span_size - 1) current_track EmptyPath;
        if IsValid eligible_track_opening_result &&
           (negb (IsValid highest) ||
            bool_decide (StartPositionOf eligible_track_opening_result
                         < StartPositionOf highest))
        then Some (MkPath
                     (path_start_position eligible_track_opening_result)
                     current_track
                     (track_opening_indices eligible_track_opening_result))
        else Some highest
    end.

(** The [while] loop.  Every iteration either breaks or advances
    [item_span] by one line, so the loop visits the spans in
    [candidates] in order until the break. *)
Fixpoint SearchCandidates (m : MasonryRunningPositions)
    (item : GridItemData) (item_stacking_axis_contribution : Z)
    (span_size : nat) (used_track_size : Z)
    (candidates : list GridSpan) (highest : EligibleTrackOpeningPath)
    : option EligibleTrackOpeningPath :=
  match candidates with
  | [] => Some highest
  | item_span :: rest =>
    if negb (is_auto_placed item) &&
       negb (span_eqb item_span (resolved_span item))
    then Some highest
    else
      highest' ← TryCandidateSpan m item_stacking_axis_contribution
                   span_size used_track_size item_span highest;
      SearchCandidates m item item_stacking_axis_contribution span_size
        used_track_size rest highest'
  end.

(** The spans [item_span, ++item_span, ...] the loop condition
    [item_span.EndLine() <= running_positions_.size()] admits. *)
Fixpoint SpansFrom (count : nat) (item_span : GridSpan) : list GridSpan :=
  match count with
  | O => []
  | S count' => item_span :: SpansFrom count' (Next item_span)
  end.

Definition CandidateSpans (m : MasonryRunningPositions)
    (item_span : GridSpan) : list GridSpan :=
  SpansFrom (S (length (running_positions_ m)) - EndLine item_span) item_span.

(** The search half of the function: the value of
    [highest_eligible_track_opening_result] when the loop is left. *)
Definition FindHighestEligiblePath (m : MasonryRunningPositions)
    (item : GridItemData) (item_stacking_axis_contribution : Z)
    : option EligibleTrackOpeningPath :=
  let initial_span := resolved_span item in
  let span_size := SpanSize initial_span in
  used_track_size ← CalculateUsedTrackSize m initial_span;
  let item_span :=
    if is_auto_placed item then TranslatedDefiniteGridSpan 0 span_size
    else initial_span in
  SearchCandidates m item item_stacking_axis_contribution span_size
    used_track_size (CandidateSpans m item_span) EmptyPath.

(** The body of the range-[for] loop over the recorded indices, for the
    opening [track_opening_index] of one track's list. *)
Definition ConsumeOpening (item_stacking_axis_contribution : Z)
    (placement_start : Z) (openings : list TrackOpening)
    (track_opening_index : nat) : option (list TrackOpening) :=
  current_track_opening ← openings !! track_opening_index;
  if decide (item_stacking_axis_contribution = Size current_track_opening)
  then Some (delete track_opening_index openings)
  else
    let shrink (o : TrackOpening) :=
      MkTrackOpening
        (LayoutUnit.add (start_position current_track_opening)
           item_stacking_axis_contribution)
        (end_position o) in
    if decide (start_position current_track_opening ≠ placement_start)
    then
      Some (alter shrink (S track_opening_index)
              (take track_opening_index openings ++
               MkTrackOpening (start_position current_track_opening)
                 placement_start ::
               drop track_opening_index openings))
    else Some (alter shrink track_opening_index openings).

(** The range-[for] loop: [current_track_index] is decremented before
    each use; decrementing zero wraps to an index no vector has. *)
Fixpoint ConsumePath (item_stacking_axis_contribution : Z)
    (placement_start : Z) (indices : list nat) (current_track_index : nat)
    (tco : list (list TrackOpening)) : option (list (list TrackOpening)) :=
  match indices with
  | [] => Some tco
  | track_opening_index :: rest =>
    match current_track_index with
    | O => None
    | S track =>
      openings ← tco !! track;
      openings' ← ConsumeOpening item_stacking_axis_contribution
                    placement_start openings track_opening_index;
      ConsumePath item_stacking_axis_contribution placement_start rest
        track (<[track := openings']> tco)
    end
  end.

(** [GetEligibleTrackOpeningAndUpdateMasonryItemSpan]: the returned
    position, the object's state and the item after the call. *)
Definition GetEligibleTrackOpeningAndUpdateMasonryItemSpan
    (m : MasonryRunningPositions) (item : GridItemData)
    (item_stacking_axis_contribution : Z)
    : option (Z * MasonryRunningPositions * GridItemData) :=
  let span_size := SpanSize (resolved_span item) in
  highest ← FindHighestEligiblePath m item item_stacking_axis_contribution;
  if IsValid highest then
    tco ← ConsumePath item_stacking_axis_contribution
             (StartPositionOf highest) (track_opening_indices highest)
             (starting_track_index highest + span_size)
             (track_collection_openings_ m);
    Some (StartPositionOf highest, with_openings m tco,
          with_span item
            (TranslatedDefiniteGridSpan (starting_track_index highest)
               (starting_track_index highest + span_size)))
  else Some (StartPositionOf highest, m, item).

End Masonry.

(** ** Flex gap accumulator *)

Module Flex.

Record LogicalOffset := MkLogicalOffset
  { inline_offset : Z; block_offset : Z }.

(** [CrossGap::EdgeIntersectionState] *)
Inductive EdgeIntersectionState := kNone | kStart | kEnd | kBoth.

Record CrossGap := MkCrossGap
  { GetGapOffset : LogicalOffset;
    GetEdgeIntersectionState : EdgeIntersectionState }.

(** Modelled from the spec: [MainGap] (layout/gap/gap_geometry.h is not
    among the sources).  The spec describes it as the gap's offset together
    with the range of [CrossGap] indices before it and the range after it,
    each extended by the index of a new [CrossGap]; a range is kept as its
    first and last index, absent while empty. *)
Record MainGap := MkMainGap
  { main_gap_offset : Z;
    range_of_cross_gaps_before : option (nat * nat);
    range_of_cross_gaps_after : option (nat * nat) }.

Definition extend_range (range : option (nat * nat)) (cross_gap_index : nat)
    : option (nat * nat) :=
  match range with
  | None => Some (cross_gap_index, cross_gap_index)
  | Some (first, _) => Some (first, cross_gap_index)
  end.

Definition IncrementRangeOfCrossGapsBefore (cross_gap_index : nat)
    (g : MainGap) : MainGap :=
  MkMainGap (main_gap_offset g)
    (extend_range (range_of_cross_gaps_before g) cross_gap_index)
    (range_of_cross_gaps_after g).

Definition IncrementRangeOfCrossGapsAfter (cross_gap_index : nat)
    (g : MainGap) : MainGap :=
  MkMainGap (main_gap_offset g) (range_of_cross_gaps_before g)
    (extend_range (range_of_cross_gaps_after g) cross_gap_index).

(** Modelled from the spec: [FlexLine] (layout/flex/flex_line.h is not
    among the sources), reduced to the two members the accumulator reads. *)
Record FlexLine := MkFlexLine
  { item_indices : list nat; cross_axis_offset : Z }.

(** Modelled from the spec: the values the accumulator reads from its
    [BoxFragmentBuilder] (not among the sources): the four sides of
    [BorderScrollbarPadding()], the block size of [InitialBorderBoxSize()]
    and [InlineSize()]. *)
Record BoxFragmentBuilder := MkBuilder
  { bsp_inline_start : Z; bsp_inline_end : Z;
    bsp_block_start : Z; bsp_block_end : Z;
    initial_border_box_block_size : Z;
    InlineSize : Z }.

Record FlexGapAccumulator := MkAccumulator
  { gap_between_items_ : Z;
    gap_between_lines_ : Z;
    container_builder_ : BoxFragmentBuilder;
    is_column_ : bool;
    main_gaps_ : list MainGap;
    cross_gaps_ : list CrossGap;
    content_cross_start_ : Z;
    content_cross_end_ : Z;
    content_main_start_ : Z;
    content_main_end_ : Z }.

(** The constructor: the vectors start empty and the content offsets are
    [LayoutUnit()]. *)
Definition NewAccumulator (gap_between_items gap_between_lines : Z)
    (container_builder : BoxFragmentBuilder) (is_column : bool)
    : FlexGapAccumulator :=
  MkAccumulator gap_between_items gap_between_lines container_builder
    is_column [] [] LayoutUnit.Zero LayoutUnit.Zero LayoutUnit.Zero
    LayoutUnit.Zero.

Inductive GridTrackSizingDirection := kForColumns | kForRows.

(** Modelled from the spec: [GapGeometry] (layout/gap/gap_geometry.h is not
    among the sources) as the values its setters store: the inline and
    block gap sizes, the main direction, the two gap vectors and the content
    offsets.  A fresh geometry has zero sizes and offsets, empty vectors
    and rows as its main direction. *)
Record GapGeometry := MkGapGeometry
  { inline_gap_size : Z;
    block_gap_size : Z;
    main_direction : GridTrackSizingDirection;
    geometry_cross_gaps : list CrossGap;
    geometry_main_gaps : list MainGap;
    content_inline_start : Z;
    content_inline_end : Z;
    content_block_start : Z;
    content_block_end : Z }.

(** [BuildGapGeometry]; [None] is [nullptr]. *)
Definition BuildGapGeometry (acc : FlexGapAccumulator) : option GapGeometry :=
  let has_valid_main_axis_gaps :=
    negb (bool_decide (main_gaps_ acc = [])) &&
    bool_decide (LayoutUnit.Zero < gap_between_lines_ acc) in
  let has_valid_cross_axis_gaps :=
    negb (bool_decide (cross_gaps_ acc = [])) &&
    bool_decide (LayoutUnit.Zero < gap_between_items_ acc) in
  if negb has_valid_main_axis_gaps && negb has_valid_cross_axis_gaps
  then None
  else
    let positive (gap : Z) :=
      if bool_decide (LayoutUnit.Zero < gap) then gap else LayoutUnit.Zero in
    Some
      (if is_column_ acc then
         MkGapGeometry
           (positive (gap_between_lines_ acc))
           (positive (gap_between_items_ acc))
           kForColumns
           (cross_gaps_ acc) (main_gaps_ acc)
           (content_cross_start_ acc) (content_cross_end_ acc)
           (content_main_start_ acc) (content_main_end_ acc)
       else
         MkGapGeometry
           (positive (gap_between_items_ acc))
           (positive (gap_between_lines_ acc))
           kForRows
           (cross_gaps_ acc) (main_gaps_ acc)
           (content_main_start_ acc) (content_main_end_ acc)
           (content_cross_start_ acc) (content_cross_end_ acc)).

Definition with_main_gaps (acc : FlexGapAccumulator)
    (main_gaps : list MainGap) : FlexGapAccumulator :=
  MkAccumulator (gap_between_items_ acc) (gap_between_lines_ acc)
    (container_builder_ acc) (is_column_ acc) main_gaps (cross_gaps_ acc)
    (content_cross_start_ acc) (content_cross_end_ acc)
    (content_main_start_ acc) (content_main_end_ acc).

Definition with_cross_gaps (acc : FlexGapAccumulator)
    (cross_gaps : list CrossGap) : FlexGapAccumulator :=
  MkAccumulator (gap_between_items_ acc) (gap_between_lines_ acc)
    (container_builder_ acc) (is_column_ acc) (main_gaps_ acc) cross_gaps
    (content_cross_start_ acc) (content_cross_end_ acc)
    (content_main_start_ acc) (content_main_end_ acc).

Definition with_content_cross_start (acc : FlexGapAccumulator) (v : Z)
    : FlexGapAccumulator :=
  MkAccumulator (gap_between_items_ acc) (gap_between_lines_ acc)
    (container_builder_ acc) (is_column_ acc) (main_gaps_ acc)
    (cross_gaps_ acc) v (content_cross_end_ acc)
    (content_main_start_ acc) (content_main_end_ acc).

Definition with_content_cross_end (acc : FlexGapAccumulator) (v : Z)
    : FlexGapAccumulator :=
  MkAccumulator (gap_between_items_ acc) (gap_between_lines_ acc)
    (container_builder_ acc) (is_column_ acc) (main_gaps_ acc)
    (cross_gaps_ acc) (content_cross_start_ acc) v
    (content_main_start_ acc) (content_main_end_ acc).

Definition with_content_main_start (acc : FlexGapAccumulator) (v : Z)
    : FlexGapAccumulator :=
  MkAccumulator (gap_between_items_ acc) (gap_between_lines_ acc)
    (container_builder_ acc) (is_column_ acc) (main_gaps_ acc)
    (cross_gaps_ acc) (content_cross_start_ acc) (content_cross_end_ acc)
    v (content_main_end_ acc).

Definition with_content_main_end (acc : FlexGapAccumulator) (v : Z)
    : FlexGapAccumulator :=
  MkAccumulator (gap_between_items_ acc) (gap_between_lines_ acc)
    (container_builder_ acc) (is_column_ acc) (main_gaps_ acc)
    (cross_gaps_ acc) (content_cross_start_ acc) (content_cross_end_ acc)
    (content_main_start_ acc) v.

(** [PopulateMainGapForFirstItem] *)
Definition PopulateMainGapForFirstItem (acc : FlexGapAccumulator)
    (cross_end : Z) : FlexGapAccumulator :=
  let gap_offset :=
    LayoutUnit.add cross_end (LayoutUnit.half (gap_between_lines_ acc)) in
  with_main_gaps acc (main_gaps_ acc ++ [MkMainGap gap_offset None None]).

(** [HandleCrossGapRangesForCurrentItem]: the access to
    [main_gaps_[flex_line_index - 1]] is bounds-checked. *)
Definition HandleCrossGapRangesForCurrentItem (acc : FlexGapAccumulator)
    (flex_line_index cross_gap_index : nat) : option FlexGapAccumulator :=
  match main_gaps_ acc with
  | [] => Some acc
  | _ =>
    let main_gaps1 :=
      if decide (flex_line_index < length (main_gaps_ acc))%nat
      then alter (IncrementRangeOfCrossGapsBefore cross_gap_index)
             flex_line_index (main_gaps_ acc)
      else main_gaps_ acc in
    match flex_line_index with
    | O => Some (with_main_gaps acc main_gaps1)
    | S previous_line =>
      if decide (previous_line < length main_gaps1)%nat
      then Some (with_main_gaps acc
                   (alter (IncrementRangeOfCrossGapsAfter cross_gap_index)
                      previous_line main_gaps1))
      else None
    end
  end.

(** [PopulateCrossGapForCurrentItem] *)
Definition PopulateCrossGapForCurrentItem (acc : FlexGapAccumulator)
    (flex_line : FlexLine) (flex_line_index : nat)
    (is_first_line is_last_line single_line : bool)
    (main_intersection_offset cross_start : Z) : option FlexGapAccumulator :=
  let '(cross_intersection_offset, edge_state) :=
    if single_line then (cross_start, kBoth)
    else if is_first_line then (cross_start, kStart)
    else if is_last_line then
      (LayoutUnit.sub cross_start (LayoutUnit.half (gap_between_lines_ acc)),
       kEnd)
    else
      (LayoutUnit.sub (cross_axis_offset flex_line)
         (LayoutUnit.half (gap_between_lines_ acc)),
       kNone) in
  let logical_offset :=
    MkLogicalOffset
      (if is_column_ acc then cross_intersection_offset
       else main_intersection_offset)
      (if is_column_ acc then main_intersection_offset
       else cross_intersection_offset) in
  let cross_gap := MkCrossGap logical_offset edge_state in
  let acc1 := with_cross_gaps acc (cross_gaps_ acc ++ [cross_gap]) in
  HandleCrossGapRangesForCurrentItem acc1 flex_line_index
    (length (cross_gaps_ acc1) - 1).

(** The end of the container's content box along the main axis. *)
Definition container_main_end (acc : FlexGapAccumulator) : Z :=
  let builder := container_builder_ acc in
  let border_scrollbar_padding :=
    if is_column_ acc then bsp_block_end builder
    else bsp_inline_end builder in
  if is_column_ acc
  then LayoutUnit.sub (initial_border_box_block_size builder)
         border_scrollbar_padding
  else LayoutUnit.sub (InlineSize builder) border_scrollbar_padding.

(** [item_index_in_line == flex_line.item_indices.size() - 1], the
    difference being taken in [wtf_size_t]: for an empty line it wraps to
    the largest value of the type. *)
Definition is_last_item_in_line (flex_line : FlexLine)
    (item_index_in_line : nat) : bool :=
  match length (item_indices flex_line) with
  | O => (N.of_nat item_index_in_line =? 4294967295)%N
  | S last => Nat.eqb item_index_in_line last
  end.

(** [BuildGapsForCurrentItem] *)
Definition BuildGapsForCurrentItem (acc : FlexGapAccumulator)
    (flex_lines : list FlexLine) (flex_line_index item_index_in_line : nat)
    (item_offset : LogicalOffset) (is_first_line is_last_line : bool)
    (line_cross_start line_cross_end : Z) : option FlexGapAccumulator :=
  flex_line ← flex_lines !! flex_line_index;
  let is_first_item := Nat.eqb item_index_in_line 0 in
  let is_last_item := is_last_item_in_line flex_line item_index_in_line in
  let single_line := is_first_line && is_last_line in
  let main_offset :=
    if is_column_ acc then block_offset item_offset
    else inline_offset item_offset in
  let acc1 :=
    if is_first_line && is_first_item then
      let acc' := with_content_cross_start acc line_cross_start in
      let content_main_start :=
        if is_column_ acc then bsp_block_start (container_builder_ acc)
        else bsp_inline_start (container_builder_ acc) in
      with_content_main_start acc' (Z.min content_main_start main_offset)
    else acc in
  let acc2 :=
    if is_last_line && is_first_item
    then with_content_cross_end acc1 line_cross_end
    else acc1 in
  if is_first_item then
    if negb single_line && negb is_last_line then
      let acc3 := PopulateMainGapForFirstItem acc2 line_cross_end in
      if Nat.eqb (length (item_indices flex_line)) 1
      then Some (with_content_main_end acc3 (container_main_end acc3))
      else Some acc3
    else Some acc2
  else
    let main_intersection_offset :=
      LayoutUnit.sub main_offset (LayoutUnit.half (gap_between_items_ acc2)) in
    acc3 ← PopulateCrossGapForCurrentItem acc2 flex_line flex_line_index
             is_first_line is_last_line single_line
             main_intersection_offset line_cross_start;
    if is_last_item then
      last_gap ← last (cross_gaps_ acc3);
      let last_gap_offset :=
        if is_column_ acc3 then block_offset (GetGapOffset last_gap)
        else inline_offset (GetGapOffset last_gap) in
      Some (with_content_main_end acc3
              (Z.max last_gap_offset (container_main_end acc3)))
    else Some acc3.

End Flex.

(** ** Gap decorations painter *)

Module Painter.

(** [wtf_size_t] arithmetic, modulo [2^32]. *)
Definition kWtfSizeModulus : N := 4294967296.
Definition wtf_add (a b : N) : N := ((a + b) mod kWtfSizeModulus)%N.
Definition wtf_sub (a b : N) : N :=
  ((a + kWtfSizeModulus - b mod kWtfSizeModulus) mod kWtfSizeModulus)%N.

Inductive RuleBreak := kNone | kSpanningItem | kIntersection.
Inductive GridTrackSizingDirection := kForColumns | kForRows.
Inductive ContainerType := kGrid | kFlex | kMultiColumn.

(** [BlockedStatus] with its two flags. *)
Record BlockedStatus := MkBlockedStatus
  { kBlockedBefore : bool; kBlockedAfter : bool }.

(** Modelled from the spec: the part of [GapGeometry]
    (layout/gap/gap_geometry.h, not among the sources) the pairing of
    intersections asks: the container type, and for a direction, a gap
    index, an intersection index and the intersection list, whether the
    intersection is blocked before or after by an adjacent item.  The
    answers are a parameter of the embedding. *)
Record GapGeometry := MkGapGeometry
  { GetContainerType : ContainerType;
    GetIntersectionBlockedStatus :
      GridTrackSizingDirection → N → N → list Z → BlockedStatus }.

(** [ShouldMoveIntersectionEndForward] *)
Definition ShouldMoveIntersectionEndForward
    (track_direction : GridTrackSizingDirection) (gap_index end_index : N)
    (rule_break : RuleBreak) (gap_geometry : GapGeometry)
    (intersections : list Z) : bool :=
  let blocked_status :=
    GetIntersectionBlockedStatus gap_geometry track_direction gap_index
      end_index intersections in
  match rule_break with
  | kSpanningItem => negb (kBlockedAfter blocked_status)
  | _ =>
    match GetContainerType gap_geometry with
    | kFlex => false
    | container_type =>
      if kBlockedAfter blocked_status then false
      else
        let cross_direction :=
          match track_direction with
          | kForColumns => kForRows
          | kForRows => kForColumns
          end in
        match container_type with
        | kGrid =>
          let cross_gaps_blocked_status :=
            GetIntersectionBlockedStatus gap_geometry cross_direction
              (wtf_sub end_index 1) (wtf_add gap_index 1) intersections in
          kBlockedAfter cross_gaps_blocked_status &&
          kBlockedBefore cross_gaps_blocked_status
        | _ => false
        end
    end
  end.

(** The first [while] loop of [AdjustIntersectionIndexPair]; [steps] is the
    distance from [start] to [intersection_count], which bounds its
    iterations. *)
Fixpoint AdvanceStart (track_direction : GridTrackSizingDirection)
    (intersection_count gap_index : N) (gap_geometry : GapGeometry)
    (intersections : list Z) (steps : nat) (start : N) : N :=
  match steps with
  | O => start
  | S steps' =>
    if (start <? intersection_count)%N &&
       kBlockedAfter
         (GetIntersectionBlockedStatus gap_geometry track_direction
            gap_index start intersections)
    then AdvanceStart track_direction intersection_count gap_index
           gap_geometry intersections steps' (wtf_add start 1)
    else start
  end.

(** The second [while] loop; [steps] is the distance from [end] to the
    last intersection index. *)
Fixpoint AdvanceEnd (track_direction : GridTrackSizingDirection)
    (last_intersection_index gap_index : N) (rule_break : RuleBreak)
    (gap_geometry : GapGeometry) (intersections : list Z)
    (steps : nat) (end_index : N) : N :=
  match steps with
  | O => end_index
  | S steps' =>
    if (end_index <? last_intersection_index)%N &&
       ShouldMoveIntersectionEndForward track_direction gap_index end_index
         rule_break gap_geometry intersections
    then AdvanceEnd track_direction last_intersection_index gap_index
           rule_break gap_geometry intersections steps' (wtf_add end_index 1)
    else end_index
  end.

(** [AdjustIntersectionIndexPair]: the values of [start] and [end] after
    the call. *)
Definition AdjustIntersectionIndexPair
    (track_direction : GridTrackSizingDirection) (start end_index : N)
    (intersection_count gap_index : N) (rule_break : RuleBreak)
    (gap_geometry : GapGeometry) (intersections : list Z) : N * N :=
  let last_intersection_index := wtf_sub intersection_count 1 in
  match rule_break with
  | kNone => (0%N, last_intersection_index)
  | _ =>
    let start' :=
      AdvanceStart track_direction intersection_count gap_index gap_geometry
        intersections (N.to_nat (intersection_count - start)) start in
    if (start' =? last_intersection_index)%N then (start', end_index)
    else
      let end0 := wtf_add start' 1 in
      (start',
       AdvanceEnd track_direction last_intersection_index gap_index
         rule_break gap_geometry intersections
         (N.to_nat (last_intersection_index - end0)) end0)
  end.

End Painter.

(** ** What the spec says about eligible lines, in its own words *)

Module MasonrySpec.

(** [v] is the maximum running position over the window
    [i, i + span_size). *)
Definition WindowMax (rp : list Z) (span_size i : nat) (v : Z) : Prop :=
  (∃ k, (i <= k < i + span_size)%nat ∧ rp !! k = Some v) ∧
  (∀ k x, (i <= k < i + span_size)%nat → rp !! k = Some x → x <= v).

(** The window starting at line [i] fits in the tracks. *)
Definition Fits (rp : list Z) (span_size i : nat) : Prop :=
  (i + span_size <= length rp)%nat.

(** [g] is the least window maximum over the windows that fit. *)
Definition GlobalMin (rp : list Z) (span_size : nat) (g : Z) : Prop :=
  (∃ i, Fits rp span_size i ∧ WindowMax rp span_size i g) ∧
  (∀ i v, Fits rp span_size i → WindowMax rp span_size i v → g <= v).

(** Line [i] is tie-eligible: its window maximum is at most the global
    minimum plus the tie threshold. *)
Definition TieEligible (rp : list Z) (span_size : nat) (tie : Z) (i : nat)
    : Prop :=
  Fits rp span_size i ∧
  ∃ v g, WindowMax rp span_size i v ∧ GlobalMin rp span_size g ∧
         v <= LayoutUnit.add g tie.

(** The line the spec chooses: the first tie-eligible line at or after
    the cursor, or the first one overall when there is none. *)
Definition Chosen (rp : list Z) (span_size : nat) (tie : Z) (cursor : nat)
    (line : nat) : Prop :=
  TieEligible rp span_size tie line ∧
  (((cursor <= line)%nat ∧
    ∀ j, (cursor <= j < line)%nat → ¬ TieEligible rp span_size tie j) ∨
   ((∀ j, (cursor <= j)%nat → ¬ TieEligible rp span_size tie j) ∧
    ∀ j, (j < line)%nat → ¬ TieEligible rp span_size tie j)).

(** The opening with index [i] on track [track]. *)
Definition OpeningAt (tco : list (list Masonry.TrackOpening))
    (track i : nat) : option Masonry.TrackOpening :=
  openings ← tco !! track; openings !! i.

(** A path of openings, one per consecutive track starting at [track],
    given by their indices from the outermost track inwards: on every
    track the window narrowed so far, intersected with the chosen
    opening, is at least the item's stacking-axis size. *)
Fixpoint ValidPath (tco : list (list Masonry.TrackOpening)) (size : Z)
    (track : nat) (previous_start previous_end : Z) (path : list nat)
    : Prop :=
  match path with
  | [] => True
  | i :: rest =>
    ∃ o, OpeningAt tco track i = Some o ∧
         let overlap_start :=
           Z.max previous_start (Masonry.start_position o) in
         let overlap_end := Z.min previous_end (Masonry.end_position o) in
         size <= LayoutUnit.sub overlap_end overlap_start ∧
         ValidPath tco size (S track) overlap_start overlap_end rest
  end.

(** The overlap window of the innermost track of a path. *)
Fixpoint PathWindow (tco : list (list Masonry.TrackOpening))
    (track : nat) (previous_start previous_end : Z) (path : list nat)
    : option (Z * Z) :=
  match path with
  | [] => Some (previous_start, previous_end)
  | i :: rest =>
    o ← OpeningAt tco track i;
    PathWindow tco (S track)
      (Z.max previous_start (Masonry.start_position o))
      (Z.min previous_end (Masonry.end_position o)) rest
  end.

(** No path of openings for an item of [span_size] tracks starts on
    [track]. *)
Definition NoOpeningPathFrom (m : Masonry.MasonryRunningPositions)
    (size : Z) (span_size track : nat) : Prop :=
  ¬ ∃ path, length path = span_size ∧
      ValidPath (Masonry.track_collection_openings_ m) size track
        LayoutUnit.Zero LayoutUnit.Max path.

(** The start lines the search of
    [GetEligibleTrackOpeningAndUpdateMasonryItemSpan] considers: every line
    whose span fits for an auto-placed item, the author's line otherwise. *)
Definition CandidateStart (m : Masonry.MasonryRunningPositions)
    (item : Masonry.GridItemData) (track : nat) : Prop :=
  (track + Masonry.SpanSize (Masonry.resolved_span item)
   <= length (Masonry.running_positions_ m))%nat ∧
  (Masonry.is_auto_placed item = true ∨
   track = Masonry.StartLine (Masonry.resolved_span item)).

(** What is left of the opening [o] once an item of size [size] is placed
    in it at [placement_start]: the part above the item and the part below
    it, each when it is not empty. *)
Definition UnusedRemainder (o : Masonry.TrackOpening)
    (placement_start size : Z) : list Masonry.TrackOpening :=
  (if decide (Masonry.start_position o < placement_start)
   then [Masonry.MkTrackOpening (Masonry.start_position o) placement_start]
   else []) ++
  (if decide (placement_start + size < Masonry.end_position o)
   then [Masonry.MkTrackOpening (placement_start + size)
           (Masonry.end_position o)]
   else []).

(** The invariant of one track's openings: each opening has
    [start_position < end_position], and the list is ordered by position
    with no two openings overlapping. *)
Definition WellFormedOpenings (openings : list Masonry.TrackOpening) : Prop :=
  Forall (λ o, Masonry.start_position o < Masonry.end_position o) openings ∧
  StronglySorted
    (λ o1 o2, Masonry.end_position o1 <= Masonry.start_position o2) openings.

Definition OpeningsInvariant (m : Masonry.MasonryRunningPositions) : Prop :=
  Forall WellFormedOpenings (Masonry.track_collection_openings_ m).


(** One placement under non-dense packing that does not move the
    frontier back: no maximum for the span is supplied and the new
    running position is at least the largest running position of the
    span. *)
Inductive RaisingUpdate
    : Masonry.MasonryRunningPositions → Masonry.MasonryRunningPositions →
      Prop :=
| raising_update m span new_running_position largest m' :
    Masonry.GetMaxPositionForSpan m span = Some largest →
    largest <= new_running_position →
    Masonry.UpdateRunningPositionsForSpan m span new_running_position None
    = Some m' →
    RaisingUpdate m m'.

End MasonrySpec.

(** ** Auxiliary definitions of the proofs *)

Module MasonryAux.
Import Masonry MasonrySpec.

(** The search left the result untouched and no path exists whose
    outermost index is at least [from]; or it found the path [path],
    fixed the start position to the innermost overlap start and appended
    the indices innermost first. *)
Definition SearchOutcome (tco : list (list TrackOpening)) (size : Z)
    (track : nat) (previous_start previous_end : Z) (n from : nat)
    (r0 r : EligibleTrackOpeningPath) : Prop :=
  (r = r0 ∧
   ∀ i rest, (from <= i)%nat → length rest = n →
     ¬ ValidPath tco size track previous_start previous_end (i :: rest)) ∨
  (∃ i rest window_start window_end,
     (from <= i)%nat ∧ length rest = n ∧
     ValidPath tco size track previous_start previous_end (i :: rest) ∧
     PathWindow tco track previous_start previous_end (i :: rest)
     = Some (window_start, window_end) ∧
     r = MkPath (Some window_start) (starting_track_index r0)
           (track_opening_indices r0 ++ rev (i :: rest))).

Definition deeper_call (m : MasonryRunningPositions) (size : Z)
    (n track : nat) :=
  match n with
  | O => None
  | S remaining =>
    Some (λ overlap_start overlap_end r,
            AccumulateTrackOpeningsToAccommodateItem m size overlap_start
              overlap_end remaining (S track) r)
  end.

(** The state after three placements under dense packing on three empty
    tracks of size 10: an item of height 50 on track 1, an item of height
    100 on track 2, then an item of height 100 across all three tracks,
    placed at 100. *)
Definition three_tracks_empty : MasonryRunningPositions :=
  MkMasonry [0; 0; 0] [[]; []; []] [640; 640; 640] 0 0 true.

Definition three_tracks_packed : MasonryRunningPositions :=
  MkMasonry [12800; 12800; 12800]
    [[MkTrackOpening 0 6400]; [MkTrackOpening 3200 6400]; []]
    [640; 640; 640] 0 0 true.

End MasonryAux.

(** ** What the spec says about gaps, in its own words *)

Module FlexSpec.

(** An axis is valid when it has a strictly positive gap size and a
    nonempty list of gaps. *)
Definition ValidAxis {A : Type} (gaps : list A) (gap_size : Z) : Prop :=
  gaps ≠ [] ∧ LayoutUnit.Zero < gap_size.

(** The main-axis and cross-axis components of a logical offset: the block
    offset runs along the main axis of a column container, the inline
    offset along the main axis of a row container. *)
Definition MainAxisOffset (is_column : bool) (o : Flex.LogicalOffset) : Z :=
  if is_column then Flex.block_offset o else Flex.inline_offset o.



End FlexSpec.

(** ** The cache of track sizes *)

Module MasonryTrackSizes.
Import Masonry.

Definition with_sizes (m : MasonryRunningPositions) (sizes : list Z)
    : MasonryRunningPositions :=
  MkMasonry (running_positions_ m) (track_collection_openings_ m) sizes
    (tie_threshold_ m) (auto_placement_cursor_ m) (is_dense_packing_ m).

(** The size the loop of [CalculateAndCacheTrackSizes] stores for track
    [i] of [track_count]: the distance between the track's two lines, less
    the gutter except for the last track. *)
Definition TrackSizeFromLines (line_positions : list Z) (track_count : nat)
    (gutter : Z) (i : nat) : Z :=
  let track_size :=
    LayoutUnit.sub (line_positions !!! S i) (line_positions !!! i) in
  if decide (i < track_count - 1)%nat
  then LayoutUnit.sub track_size gutter
  else track_size.

(** [CalculateAndCacheTrackSizes].  The track collection (not among the
    sources) enters through the three values the function reads from it:
    [line_positions] is [LayoutGrid::ComputeExpandedPositions], [end_line]
    is [EndLineOfImplicitGrid()] and [gutter] is [GutterSize()].  The
    vector is resized to [end_line] and every element is then assigned. *)
Definition CalculateAndCacheTrackSizes (m : MasonryRunningPositions)
    (line_positions : list Z) (end_line : nat) (gutter : Z)
    : option MasonryRunningPositions :=
  if decide (length line_positions = S end_line) then
    Some (with_sizes m
            (TrackSizeFromLines line_positions end_line gutter
             <$> seq 0 end_line))
  else None.

End MasonryTrackSizes.

(** ** Ranges of cross gaps *)

Module FlexMore.
Import Flex.

(** A range of [CrossGap] indices is empty or runs from a first to a last
    index below [count]. *)
Definition RangeWithin (count : nat) (range : option (nat * nat)) : Prop :=
  match range with
  | None => True
  | Some (first, last) => (first <= last < count)%nat
  end.

Definition GapRangesWithin (count : nat) (g : MainGap) : Prop :=
  RangeWithin count (range_of_cross_gaps_before g) ∧
  RangeWithin count (range_of_cross_gaps_after g).

(** Every range of every [MainGap] collected refers to [CrossGap]s
    collected. *)
Definition RangesWithin (acc : FlexGapAccumulator) : Prop :=
  Forall (GapRangesWithin (length (cross_gaps_ acc))) (main_gaps_ acc).

(** The condition under which the bounds-checked accesses of
    [HandleCrossGapRangesForCurrentItem] are within [main_gaps_]. *)
Definition PreviousLineHasMainGap (acc : FlexGapAccumulator)
    (flex_line_index : nat) : Prop :=
  main_gaps_ acc = [] ∨ flex_line_index = 0%nat ∨
  (flex_line_index - 1 < length (main_gaps_ acc))%nat.

End FlexMore.

(** ** The segments [GapDecorationsPainter::Paint] draws *)

Module PainterSegments.
Import Painter.

(** The [while (start < last_intersection_index)] loop of [Paint] for one
    gap: the pairs [(start, end)] for which a rule segment is drawn, in
    the order drawn.  Each iteration calls [AdjustIntersectionIndexPair]
    with [end = start], leaves the loop when [start >= end], reads
    [intersections[start]] and [intersections[end]] (bounds-checked) for
    the segment's rectangle and continues from [end].  What is drawn for
    a pair (colour, style, thickness, outsets) is not part of the
    embedding.  [steps] bounds the iterations; the distance from [start]
    to the last intersection index is enough, since every iteration moves
    [start] forward. *)
Fixpoint PaintLoop (track_direction : GridTrackSizingDirection)
    (gap_index : N) (rule_break : RuleBreak) (gap_geometry : GapGeometry)
    (intersections : list Z) (steps : nat) (start : N)
    : option (list (N * N)) :=
  let intersection_count := N.of_nat (length intersections) in
  let last_intersection_index := wtf_sub intersection_count 1 in
  match steps with
  | O => Some []
  | S steps' =>
    if (start <? last_intersection_index)%N then
      let '(start', end') :=
        AdjustIntersectionIndexPair track_direction start start
          intersection_count gap_index rule_break gap_geometry
          intersections in
      if (end' <=? start')%N then Some []
      else if (start' <? intersection_count)%N &&
              (end' <? intersection_count)%N
      then
        rest ← PaintLoop track_direction gap_index rule_break gap_geometry
                 intersections steps' end';
        Some ((start', end') :: rest)
      else None
    else Some []
  end.

Definition PaintSegments (track_direction : GridTrackSizingDirection)
    (gap_index : N) (rule_break : RuleBreak) (gap_geometry : GapGeometry)
    (intersections : list Z) : option (list (N * N)) :=
  PaintLoop track_direction gap_index rule_break gap_geometry intersections
    (N.to_nat (wtf_sub (N.of_nat (length intersections)) 1)) 0%N.

(** The intersection [i] of a gap is blocked after. *)
Definition BlockedAfter (gap_geometry : GapGeometry)
    (track_direction : GridTrackSizingDirection) (gap_index : N)
    (intersections : list Z) (i : N) : Prop :=
  kBlockedAfter
    (GetIntersectionBlockedStatus gap_geometry track_direction gap_index i
       intersections) = true.

(** Segments that are not empty, end within the intersections and follow
    one another without overlap. *)
Fixpoint OrderedSegments (lower last : N) (segments : list (N * N)) : Prop :=
  match segments with
  | [] => True
  | (segment_start, segment_end) :: rest =>
    (lower <= segment_start)%N ∧ (segment_start < segment_end)%N ∧
    (segment_end <= last)%N ∧ OrderedSegments segment_end last rest
  end.

(** The step from intersection [i] to intersection [i + 1] lies in one of
    the segments. *)
Definition Covered (segments : list (N * N)) (i : N) : Prop :=
  ∃ segment_start segment_end,
    (segment_start, segment_end) ∈ segments ∧
    (segment_start <= i < segment_end)%N.

End PainterSegments.

(** ** Further notions used by the properties beyond the spec's claims *)

Module MasonryMore.
Import Masonry MasonrySpec MasonryTrackSizes.

(** The opening [UpdateRunningPositionsForSpan] records on a track whose
    running position is [current]: none without a maximum for the span or
    when the track already reaches it. *)
Definition OpeningRecorded (max_running_position_for_span : option Z)
    (current : Z) : option TrackOpening :=
  match max_running_position_for_span with
  | Some largest =>
    if decide (current < largest)
    then Some (MkTrackOpening current largest) else None
  | None => None
  end.

(** A track's opening list after the update of a span, from the list and
    the running position before it. *)
Definition OpeningsAfterUpdate (span : GridSpan)
    (max_running_position_for_span : option Z) (track : nat)
    (current : option Z) (openings : list TrackOpening)
    : list TrackOpening :=
  match current with
  | Some position =>
    if decide (StartLine span <= track < EndLine span)%nat then
      match OpeningRecorded max_running_position_for_span position with
      | Some o => openings ++ [o]
      | None => openings
      end
    else openings
  | None => openings
  end.

(** The members other than the running positions and the openings are the
    same in both states. *)
Definition SameSettings (m m' : MasonryRunningPositions) : Prop :=
  track_collection_sizes_ m' = track_collection_sizes_ m ∧
  tie_threshold_ m' = tie_threshold_ m ∧
  auto_placement_cursor_ m' = auto_placement_cursor_ m ∧
  is_dense_packing_ m' = is_dense_packing_ m.

(** The search from start line [c] finds a path: the result [h] the
    [while] loop would store for it. *)
Definition FoundFrom (m : MasonryRunningPositions) (size : Z)
    (span_size c : nat) (h : EligibleTrackOpeningPath) : Prop :=
  ∃ r,
    AccumulateTrackOpeningsToAccommodateItem m size LayoutUnit.Zero
      LayoutUnit.Max (span_size - 1) c EmptyPath = Some r ∧
    IsValid r = true ∧
    h = MkPath (path_start_position r) c (track_opening_indices r).

(** The candidate spans the [while] loop reaches before its [break]. *)
Fixpoint VisitedSpans (item : GridItemData) (candidates : list GridSpan)
    : list GridSpan :=
  match candidates with
  | [] => []
  | item_span :: rest =>
    if negb (is_auto_placed item) &&
       negb (span_eqb item_span (resolved_span item))
    then []
    else item_span :: VisitedSpans item rest
  end.

(** The first span of the search: the whole-grid start for an auto-placed
    item, the author's span otherwise. *)
Definition FirstCandidate (item : GridItemData) : GridSpan :=
  if is_auto_placed item
  then TranslatedDefiniteGridSpan 0 (SpanSize (resolved_span item))
  else resolved_span item.


(** The lines of a grid axis: the first at a nonnegative position, the
    last within the range of layout units, consecutive lines at least a
    gutter apart except that the last track is followed by no gutter. *)
Definition WellSpacedLines (line_positions : list Z) (gutter : Z) : Prop :=
  0 <= gutter ∧
  (∀ first, line_positions !! 0%nat = Some first → 0 <= first) ∧
  (∀ final, last line_positions = Some final →
            final <= LayoutUnit.kIntMax) ∧
  ∀ i here next,
    line_positions !! i = Some here → line_positions !! S i = Some next →
    here + (if decide (S (S i) < length line_positions)%nat
            then gutter else 0) <= next.

(** The number of gutters subtracted from the tracks of [first, last): one
    per track, except for the last track of the grid. *)
Definition GuttersSubtracted (track_count first last : nat) : Z :=
  Z.of_nat (last - first) - (if decide (last = track_count) then 1 else 0).

(** The vectors of the object are as long as the tracks it tracks, and the
    item's span is a span of tracks with sizes. *)
Definition SizedFor (m : MasonryRunningPositions) (item : GridItemData)
    : Prop :=
  (StartLine (resolved_span item) < EndLine (resolved_span item))%nat ∧
  (EndLine (resolved_span item) <= length (track_collection_sizes_ m))%nat ∧
  (length (running_positions_ m) <= length (track_collection_sizes_ m))%nat ∧
  (length (running_positions_ m)
   <= length (track_collection_openings_ m))%nat.

End MasonryMore.

(** ** Facts about layout units *)

Section LayoutUnitFacts.
Import LayoutUnit.

Lemma Clamp_InRange x : InRange (Clamp x).
Proof. unfold InRange, Clamp, kIntMin, kIntMax. lia. Qed.

Lemma Clamp_id x : InRange x → Clamp x = x.
Proof. unfold InRange, Clamp, kIntMin, kIntMax. lia. Qed.

Lemma add_InRange a b : InRange (add a b).
Proof. apply Clamp_InRange. Qed.

Lemma sub_InRange a b : InRange (sub a b).
Proof. apply Clamp_InRange. Qed.

Lemma add_nonneg_ge a b : a <= kIntMax → 0 <= b → a <= add a b.
Proof. unfold add, Clamp, kIntMin, kIntMax. lia. Qed.

Lemma le_sub_nonneg s a b : 0 <= s → s <= sub a b → s <= a - b.
Proof. unfold sub, Clamp, kIntMin, kIntMax. lia. Qed.


End LayoutUnitFacts.

(** ** Facts about [GetFirstEligibleLine] *)

Section FirstEligibleLine.
Import Masonry MasonrySpec.

Lemma foldl_max_spec (l : list Z) (x : Z) :
  (foldl Z.max x l ∈ x :: l) ∧ (∀ y, y ∈ x :: l → y <= foldl Z.max x l).
Proof.
  revert x. induction l as [|a l IH]; intros x; simpl.
  - split; [left|]. intros y Hy. apply list_elem_of_singleton in Hy. lia.
  - destruct (IH (Z.max x a)) as [Hin Hle]. split.
    + apply elem_of_cons in Hin as [Heq|Hin].
      * rewrite Heq. destruct (Z.max_spec x a) as [[_ ->]|[_ ->]];
          [right; left | left].
      * right; right; exact Hin.
    + intros y Hy.
      assert (Z.max x a <= foldl Z.max (Z.max x a) l) by (apply Hle; left).
      apply elem_of_cons in Hy as [->|Hy]; [lia|].
      apply elem_of_cons in Hy as [->|Hy]; [lia|].
      apply Hle. right; exact Hy.
Qed.

Lemma foldl_min_spec (l : list Z) (x : Z) :
  (foldl Z.min x l ∈ x :: l) ∧ (∀ y, y ∈ x :: l → foldl Z.min x l <= y).
Proof.
  revert x. induction l as [|a l IH]; intros x; simpl.
  - split; [left|]. intros y Hy. apply list_elem_of_singleton in Hy. lia.
  - destruct (IH (Z.min x a)) as [Hin Hle]. split.
    + apply elem_of_cons in Hin as [Heq|Hin].
      * rewrite Heq. destruct (Z.min_spec x a) as [[_ ->]|[_ ->]];
          [left | right; left].
      * right; right; exact Hin.
    + intros y Hy.
      assert (foldl Z.min (Z.min x a) l <= Z.min x a) by (apply Hle; left).
      apply elem_of_cons in Hy as [->|Hy]; [lia|].
      apply elem_of_cons in Hy as [->|Hy]; [lia|].
      apply Hle. right; exact Hy.
Qed.

Lemma max_element_Some (l : list Z) (v : Z) :
  max_element l = Some v → v ∈ l ∧ ∀ y, y ∈ l → y <= v.
Proof.
  destruct l as [|x l]; [discriminate|]. simpl. intros [= <-].
  apply foldl_max_spec.
Qed.

Lemma min_element_Some (l : list Z) (v : Z) :
  min_element l = Some v → v ∈ l ∧ ∀ y, y ∈ l → v <= y.
Proof.
  destruct l as [|x l]; [discriminate|]. simpl. intros [= <-].
  apply foldl_min_spec.
Qed.

Lemma max_element_is_Some (l : list Z) : l ≠ [] → is_Some (max_element l).
Proof. destruct l; [done|]. intros _. simpl. eauto. Qed.

Lemma min_element_is_Some (l : list Z) : l ≠ [] → is_Some (min_element l).
Proof. destruct l; [done|]. intros _. simpl. eauto. Qed.

Lemma WindowMax_unique rp s i v v' :
  WindowMax rp s i v → WindowMax rp s i v' → v = v'.
Proof.
  intros [(k & Hk & Hv) Hle] [(k' & Hk' & Hv') Hle'].
  pose proof (Hle _ _ Hk' Hv'). pose proof (Hle' _ _ Hk Hv). lia.
Qed.

Lemma elem_of_window (rp : list Z) (s i : nat) (x : Z) :
  x ∈ take s (drop i rp) ↔ ∃ k, (i <= k < i + s)%nat ∧ rp !! k = Some x.
Proof.
  rewrite list_elem_of_lookup. split.
  - intros (j & Hj). apply lookup_take_Some in Hj as [Hj Hlt].
    rewrite lookup_drop in Hj. exists (i + j)%nat. split; [lia|done].
  - intros (k & Hk & Hx). exists (k - i)%nat.
    apply lookup_take_Some. split; [|lia].
    rewrite lookup_drop. replace (i + (k - i))%nat with k by lia. done.
Qed.

Lemma GetMaxPositionForSpan_window m s i v :
  GetMaxPositionForSpan m (TranslatedDefiniteGridSpan i (i + s)) = Some v →
  WindowMax (running_positions_ m) s i v.
Proof.
  unfold GetMaxPositionForSpan, SpanSize. simpl.
  replace (i + s - i)%nat with s by lia.
  case_decide; [|discriminate]. intros Hmax.
  apply max_element_Some in Hmax as [Hin Hle]. split.
  - by apply elem_of_window.
  - intros k x Hk Hx. apply Hle. apply elem_of_window. eauto.
Qed.

Lemma GetMaxPositionForSpan_is_Some m s i :
  (1 <= s)%nat → Fits (running_positions_ m) s i →
  is_Some (GetMaxPositionForSpan m (TranslatedDefiniteGridSpan i (i + s))).
Proof.
  unfold Fits, GetMaxPositionForSpan, SpanSize. simpl. intros Hs Hfit.
  replace (i + s - i)%nat with s by lia.
  rewrite decide_True by done.
  apply max_element_is_Some. intros Hnil.
  apply (f_equal length) in Hnil. rewrite length_take, length_drop in Hnil.
  simpl in Hnil. lia.
Qed.

Lemma WindowMax_single rp i v :
  WindowMax rp 1 i v ↔ rp !! i = Some v.
Proof.
  split.
  - intros [(k & Hk & Hv) _]. by replace i with k by lia.
  - intros Hv. split; [exists i; split; [lia|done]|].
    intros k x Hk Hx. replace k with i in Hx by lia.
    rewrite Hv in Hx. injection Hx as ->. lia.
Qed.

(** The vector of window maxima: entry [i] exists exactly for the start
    lines that fit and is the maximum of that window. *)
Lemma GetMaxPositionsForAllTracks_spec m s :
  (1 <= s <= length (running_positions_ m))%nat →
  ∃ maxes, GetMaxPositionsForAllTracks m s = Some maxes ∧
    ∀ i v, maxes !! i = Some v ↔
      Fits (running_positions_ m) s i ∧ WindowMax (running_positions_ m) s i v.
Proof.
  intros Hs. unfold GetMaxPositionsForAllTracks, FirstNonFitStartLine.
  rewrite (decide_True (P := (s <= length (running_positions_ m))%nat))
    by lia.
  case_decide as Hone.
  - subst s. eexists; split; [done|]. intros i v. unfold Fits.
    rewrite WindowMax_single. split.
    + intros Hv. split; [|done]. apply lookup_lt_Some in Hv. lia.
    + by intros [_ ?].
  - set (n := length (running_positions_ m)) in *.
    set (f := λ start, GetMaxPositionForSpan m
                         (TranslatedDefiniteGridSpan start (start + s))).
    destruct (mapM f (seq 0 (n - s + 1))) as [maxes|] eqn:Hmap.
    + exists maxes. split; [done|]. intros i v.
      apply mapM_Some in Hmap.
      pose proof (Forall2_length _ _ _ Hmap) as Hlen.
      rewrite length_seq in Hlen. split.
      * intros Hv.
        assert (i < n - s + 1)%nat as Hi
          by (apply lookup_lt_Some in Hv; lia).
        pose proof (lookup_seq_lt 0 _ _ Hi) as Hseq. simpl in Hseq.
        pose proof (Forall2_lookup_lr _ _ _ _ _ _ Hmap Hseq Hv) as Hf.
        split; [unfold Fits; fold n; lia|].
        by apply GetMaxPositionForSpan_window.
      * intros [Hfit Hwin]. unfold Fits in Hfit. fold n in Hfit.
        assert (i < n - s + 1)%nat as Hi by lia.
        pose proof (lookup_seq_lt 0 _ _ Hi) as Hseq. simpl in Hseq.
        destruct (Forall2_lookup_l _ _ _ _ _ Hmap Hseq) as (v' & Hv' & Hf).
        apply GetMaxPositionForSpan_window in Hf.
        by rewrite (WindowMax_unique _ _ _ _ _ Hwin Hf).
    + exfalso. apply mapM_None in Hmap. apply Exists_exists in Hmap.
      destruct Hmap as (i & Hi & Hnone).
      apply elem_of_seq in Hi.
      assert (is_Some (f i)) as [? Hsome].
      { apply GetMaxPositionForSpan_is_Some; [lia|]. unfold Fits.
        fold n. lia. }
      congruence.
Qed.

Lemma FindFrom_Some allowed (l : list Z) (i r : nat) :
  FindFrom allowed l i = Some r ↔
  ∃ k, r = (i + k)%nat ∧ (∃ x, l !! k = Some x ∧ x <= allowed) ∧
       ∀ j y, (j < k)%nat → l !! j = Some y → ¬ y <= allowed.
Proof.
  revert i. induction l as [|a l IH]; intros i; simpl.
  - split; [discriminate|]. intros (k & _ & (x & Hx & _) & _).
    by rewrite lookup_nil in Hx.
  - case_decide as Ha.
    + split.
      * intros [= <-]. exists 0%nat. split; [lia|]. split; [eauto|].
        intros j y Hj. lia.
      * intros (k & -> & _ & Hfirst). destruct k as [|k]; [f_equal; lia|].
        exfalso. apply (Hfirst 0%nat a); [lia|done|done].
    + rewrite IH. split.
      * intros (k & -> & Hk & Hfirst). exists (S k). split; [lia|].
        split; [done|]. intros [|j] y Hj Hy.
        -- simpl in Hy. by injection Hy as <-.
        -- apply (Hfirst j y); [lia|done].
      * intros (k & -> & (x & Hx & Hle) & Hfirst).
        destruct k as [|k]; [simpl in Hx; by injection Hx as <-|].
        exists k. split; [lia|]. split; [eauto|].
        intros j y Hj Hy. apply (Hfirst (S j) y); [lia|done].
Qed.

Lemma FindPositionWithinThreshold_Some (maxes : list Z) allowed b r :
  FindPositionWithinThreshold maxes allowed b = Some r ↔
  (b <= r)%nat ∧ (∃ x, maxes !! r = Some x ∧ x <= allowed) ∧
  ∀ j y, (b <= j < r)%nat → maxes !! j = Some y → ¬ y <= allowed.
Proof.
  unfold FindPositionWithinThreshold. rewrite FindFrom_Some. split.
  - intros (k & -> & (x & Hx & Hle) & Hfirst).
    rewrite lookup_drop in Hx. split; [lia|]. split; [eauto|].
    intros j y Hj Hy. apply (Hfirst (j - b)%nat y); [lia|].
    rewrite lookup_drop. by replace (b + (j - b))%nat with j by lia.
  - intros (Hb & (x & Hx & Hle) & Hfirst). exists (r - b)%nat.
    split; [lia|]. split.
    + exists x. rewrite lookup_drop.
      by replace (b + (r - b))%nat with r by lia.
    + intros j y Hj Hy. rewrite lookup_drop in Hy.
      apply (Hfirst (b + j)%nat y); [lia|done].
Qed.

Lemma FindFrom_None allowed (l : list Z) (i : nat) :
  FindFrom allowed l i = None ↔ ∀ j y, l !! j = Some y → ¬ y <= allowed.
Proof.
  revert i. induction l as [|a l IH]; intros i; simpl.
  - split; [|done]. intros _ j y Hy. by rewrite lookup_nil in Hy.
  - case_decide as Ha.
    + split; [discriminate|]. intros Hall. exfalso.
      by apply (Hall 0%nat a).
    + rewrite IH. split.
      * intros Hall [|j] y Hy; simpl in Hy; [by injection Hy as <-|].
        by apply (Hall j).
      * intros Hall j y Hy. by apply (Hall (S j)).
Qed.

Lemma FindPositionWithinThreshold_None (maxes : list Z) allowed b :
  FindPositionWithinThreshold maxes allowed b = None ↔
  ∀ j y, (b <= j)%nat → maxes !! j = Some y → ¬ y <= allowed.
Proof.
  unfold FindPositionWithinThreshold. rewrite FindFrom_None. split.
  - intros Hall j y Hj Hy. apply (Hall (j - b)%nat).
    rewrite lookup_drop. by replace (b + (j - b))%nat with j by lia.
  - intros Hall j y Hy. rewrite lookup_drop in Hy.
    apply (Hall (b + j)%nat); [lia|done].
Qed.

Lemma WindowMax_exists (rp : list Z) s i :
  (1 <= s)%nat → Fits rp s i → ∃ v, WindowMax rp s i v.
Proof.
  intros Hs Hfit.
  destruct (GetMaxPositionForSpan_is_Some (MkMasonry rp [] [] 0 0 false)
              s i Hs Hfit) as [v Hv].
  exists v. by apply GetMaxPositionForSpan_window in Hv.
Qed.

(** With the vector of window maxima at hand, the minimum the code takes
    is the spec's global minimum, and the test of the scan is the spec's
    tie-eligibility. *)
Lemma min_element_GlobalMin (rp maxes : list Z) s g :
  (1 <= s <= length rp)%nat →
  (∀ i v, maxes !! i = Some v ↔ Fits rp s i ∧ WindowMax rp s i v) →
  min_element maxes = Some g → GlobalMin rp s g.
Proof.
  intros Hs Hmx Hmin. apply min_element_Some in Hmin as [Hin Hle].
  apply list_elem_of_lookup in Hin as [i Hi]. split.
  - exists i. by apply Hmx.
  - intros j v Hfit Hwin. apply Hle. apply list_elem_of_lookup.
    exists j. by apply Hmx.
Qed.

Lemma GlobalMin_unique rp s g g' :
  GlobalMin rp s g → GlobalMin rp s g' → g = g'.
Proof.
  intros [(i & Hi & Hw) Hle] [(i' & Hi' & Hw') Hle'].
  pose proof (Hle _ _ Hi' Hw'). pose proof (Hle' _ _ Hi Hw). lia.
Qed.

Lemma TieEligible_lookup (rp maxes : list Z) s tie g i :
  (∀ i v, maxes !! i = Some v ↔ Fits rp s i ∧ WindowMax rp s i v) →
  GlobalMin rp s g →
  TieEligible rp s tie i ↔
  ∃ x, maxes !! i = Some x ∧ x <= LayoutUnit.add g tie.
Proof.
  intros Hmx Hg. split.
  - intros (Hfit & v & g' & Hwin & Hg' & Hle).
    rewrite (GlobalMin_unique _ _ _ _ Hg Hg'). exists v.
    split; [by apply Hmx|done].
  - intros (x & Hx & Hle). apply Hmx in Hx as [Hfit Hwin].
    split; [done|]. by exists x, g.
Qed.

Lemma GetFirstEligibleLine_Chosen m s sp v :
  (1 <= s <= length (running_positions_ m))%nat →
  GetFirstEligibleLine m s = Some (sp, v) ↔
  EndLine sp = (StartLine sp + s)%nat ∧
  Chosen (running_positions_ m) s (tie_threshold_ m)
    (auto_placement_cursor_ m) (StartLine sp) ∧
  WindowMax (running_positions_ m) s (StartLine sp) v.
Proof.
  intros Hs.
  destruct (GetMaxPositionsForAllTracks_spec m s Hs) as (maxes & Hmaxes & Hmx).
  unfold GetFirstEligibleLine. rewrite Hmaxes. simpl.
  assert (is_Some (min_element maxes)) as [g Hg].
  { apply min_element_is_Some. intros ->.
    destruct (WindowMax_exists (running_positions_ m) s 0 ltac:(lia)
                ltac:(unfold Fits; lia)) as [v0 Hv0].
    assert (@nil Z !! 0%nat = Some v0) as Hnil
      by (apply Hmx; split; [unfold Fits; lia|done]).
    by rewrite lookup_nil in Hnil. }
  rewrite Hg. simpl.
  pose proof (min_element_GlobalMin _ _ _ _ Hs Hmx Hg) as Hglobal.
  set (rp := running_positions_ m) in *.
  set (tie := tie_threshold_ m). set (cursor := auto_placement_cursor_ m).
  set (allowed := LayoutUnit.add g tie).
  assert (∀ i, TieEligible rp s tie i ↔
               ∃ x, maxes !! i = Some x ∧ x <= allowed) as Helig
    by (intros i; by apply TieEligible_lookup).
  assert (∀ j, ¬ TieEligible rp s tie j ↔
               ∀ y, maxes !! j = Some y → ¬ y <= allowed) as Hnelig.
  { intros j. rewrite Helig. split.
    - intros Hn y Hy Hle. apply Hn. eauto.
    - intros Hn (x & Hx & Hle). by apply (Hn x). }
  assert (∀ r x, maxes !! r = Some x →
            Some (TranslatedDefiniteGridSpan r (r + s), x) = Some (sp, v) ↔
            EndLine sp = (StartLine sp + s)%nat ∧ StartLine sp = r ∧
            WindowMax rp s (StartLine sp) v) as Hres.
  { intros r x Hx. apply Hmx in Hx as [Hfit Hwin]. split.
    - intros [= <- <-]. simpl. done.
    - intros (Hend & <- & Hv). destruct sp as [a b]. simpl in *. subst b.
      by rewrite (WindowMax_unique _ _ _ _ _ Hwin Hv). }
  destruct (FindPositionWithinThreshold maxes allowed cursor)
    as [r|] eqn:Hfind.
  - apply FindPositionWithinThreshold_Some in Hfind
      as (Hcr & (x & Hx & Hle) & Hfirst).
    simpl. rewrite Hx. simpl. rewrite (Hres r x Hx).
    assert (TieEligible rp s tie r) as Hr by (apply Helig; eauto).
    split.
    + intros (Hend & Hline & Hv). rewrite Hline in *.
      split; [done|]. split; [|done]. split; [done|].
      left. split; [done|]. intros j Hj. apply Hnelig.
      intros y Hy. by apply (Hfirst j).
    + intros (Hend & [Hline Hwhere] & Hv).
      split; [done|]. split; [|done].
      destruct Hwhere as [[Hc Hbefore]|[Hafter _]].
      * destruct (Nat.lt_trichotomy (StartLine sp) r) as [Hlt|[Heq|Hgt]];
          [|done|].
        -- exfalso. apply Helig in Hline as (y & Hy & Hyle).
           by apply (Hfirst (StartLine sp) y).
        -- exfalso. by apply (Hbefore r).
      * exfalso. by apply (Hafter r).
  - pose proof Hfind as Hnone.
    rewrite FindPositionWithinThreshold_None in Hnone.
    destruct (FindPositionWithinThreshold maxes allowed 0)
      as [r|] eqn:Hfind0.
    + apply FindPositionWithinThreshold_Some in Hfind0
        as (_ & (x & Hx & Hle) & Hfirst).
      simpl. rewrite Hx. simpl. rewrite (Hres r x Hx).
      assert (TieEligible rp s tie r) as Hr by (apply Helig; eauto).
      assert (∀ j, (cursor <= j)%nat → ¬ TieEligible rp s tie j) as Hafter.
      { intros j Hj. apply Hnelig. intros y Hy. by apply (Hnone j). }
      split.
      * intros (Hend & Hline & Hv). rewrite Hline in *.
        split; [done|]. split; [|done]. split; [done|].
        right. split; [done|]. intros j Hj. apply Hnelig.
        intros y Hy. apply (Hfirst j); [lia|done].
      * intros (Hend & [Hline Hwhere] & Hv).
        split; [done|]. split; [|done].
        destruct Hwhere as [[Hc _]|[_ Hbefore]].
        -- exfalso. by apply (Hafter (StartLine sp)).
        -- destruct (Nat.lt_trichotomy (StartLine sp) r) as [Hlt|[Heq|Hgt]];
             [|done|].
           ++ exfalso. apply Helig in Hline as (y & Hy & Hyle).
              apply (Hfirst (StartLine sp) y); [lia|done|done].
           ++ exfalso. by apply (Hbefore r).
    + simpl. split; [discriminate|].
      intros (_ & [Hline _] & _). exfalso.
      rewrite FindPositionWithinThreshold_None in Hfind0.
      apply Helig in Hline as (y & Hy & Hyle).
      apply (Hfind0 (StartLine sp) y); [lia|done|done].
Qed.

(** C1.  For every state and every [span_size] between 1 and the number
    of tracks, [GetFirstEligibleLine] returns the span [line, line +
    span_size) and writes [v] exactly when [line] is the first
    tie-eligible line at or after the auto-placement cursor (or, when no
    tie-eligible line is at or after the cursor, the first tie-eligible
    line overall) and [v] is the maximum running position over that
    line's window; a line is tie-eligible when its window fits and its
    window maximum is at most the global minimum of the window maxima
    plus the tie threshold.  For running positions [0, 0, 5], span size 1
    and tie threshold 0 the tie-eligible lines are exactly 0 and 1, and
    with the cursor at 1 the chosen line is 1. *)
Theorem GetFirstEligibleLine_first_tie_eligible :
  (∀ m s sp v,
     (1 <= s <= length (running_positions_ m))%nat →
     GetFirstEligibleLine m s = Some (sp, v) ↔
     EndLine sp = (StartLine sp + s)%nat ∧
     Chosen (running_positions_ m) s (tie_threshold_ m)
       (auto_placement_cursor_ m) (StartLine sp) ∧
     WindowMax (running_positions_ m) s (StartLine sp) v) ∧
  (∀ tco sizes dense,
     let rp := [LayoutUnit.FromInt 0; LayoutUnit.FromInt 0;
                LayoutUnit.FromInt 5] in
     (∀ i, TieEligible rp 1 (LayoutUnit.FromInt 0) i ↔
           i = 0%nat ∨ i = 1%nat) ∧
     GetFirstEligibleLine
       (MkMasonry rp tco sizes (LayoutUnit.FromInt 0) 1 dense) 1
     = Some (TranslatedDefiniteGridSpan 1 2, LayoutUnit.FromInt 0)).
Proof.
  split.
  - intros m s sp v Hs. by apply GetFirstEligibleLine_Chosen.
  - intros tco sizes dense rp. split; [|reflexivity].
    intros i.
    set (m := MkMasonry rp tco sizes (LayoutUnit.FromInt 0) 1 dense).
    assert (1 <= 1 <= length (running_positions_ m))%nat as Hs
      by (simpl; lia).
    destruct (GetMaxPositionsForAllTracks_spec m 1 Hs)
      as (maxes & Hmaxes & Hmx).
    injection Hmaxes as <-.
    assert (GlobalMin rp 1 0) as Hg
      by (by apply (min_element_GlobalMin rp rp 1 0 Hs Hmx)).
    rewrite (TieEligible_lookup rp rp 1 _ 0 i Hmx Hg).
    change (LayoutUnit.add 0 (LayoutUnit.FromInt 0)) with 0.
    destruct i as [|[|[|i]]]; simpl.
    + split; [auto|]. intros _. exists 0. split; [done|lia].
    + split; [auto|]. intros _. exists 0. split; [done|lia].
    + split; [|lia]. intros (x & [= <-] & Hle). exfalso.
      change (LayoutUnit.FromInt 5) with 320 in Hle. lia.
    + split; [|lia]. intros (x & Hx & _). done.
Qed.

Lemma GetFirstEligibleLine_first_tie_eligible_witness :
  let m := MkMasonry [640; 64; 128; 64] [] [] 0 2 false in
  (1 <= 2 <= length (running_positions_ m))%nat ∧
  (GetFirstEligibleLine m 2 = Some (TranslatedDefiniteGridSpan 2 4, 128) ↔
   (4 = 2 + 2)%nat ∧
   Chosen (running_positions_ m) 2 0 2 2 ∧
   WindowMax (running_positions_ m) 2 2 128).
Proof.
  intros m.
  assert (1 <= 2 <= length (running_positions_ m))%nat as Hs
    by (simpl; lia).
  split; [exact Hs|].
  exact (proj1 GetFirstEligibleLine_first_tie_eligible m 2%nat
           (TranslatedDefiniteGridSpan 2 4) 128 Hs).
Defined.

(** C10.  For every vector of running positions, every [span_size]
    between 1 and the number of tracks, every cursor within bounds and
    every tie threshold [>= 0]: the smallest window maximum is the global
    minimum and the line that attains it is within the threshold; the scan
    from index 0 therefore finds a line, and the line it finds has a
    window maximum of at most the global minimum plus the tie threshold;
    and [GetFirstEligibleLine] returns a span [line, line + span_size)
    that lies within the tracks, together with the window maximum of that
    line, which is at most the global minimum plus the tie threshold. *)
Theorem GetFirstEligibleLine_always_valid m s :
  (1 <= s <= length (running_positions_ m))%nat →
  (auto_placement_cursor_ m <= length (running_positions_ m))%nat →
  Forall LayoutUnit.InRange (running_positions_ m) →
  0 <= tie_threshold_ m →
  ∃ maxes smallest,
    GetMaxPositionsForAllTracks m s = Some maxes ∧
    min_element maxes = Some smallest ∧
    GlobalMin (running_positions_ m) s smallest ∧
    (∃ minimizing,
       Fits (running_positions_ m) s minimizing ∧
       WindowMax (running_positions_ m) s minimizing smallest ∧
       smallest <= LayoutUnit.add smallest (tie_threshold_ m)) ∧
    (∃ fallback v0,
       FindPositionWithinThreshold maxes
         (LayoutUnit.add smallest (tie_threshold_ m)) 0 = Some fallback ∧
       Fits (running_positions_ m) s fallback ∧
       WindowMax (running_positions_ m) s fallback v0 ∧
       v0 <= LayoutUnit.add smallest (tie_threshold_ m)) ∧
    ∃ line v,
      GetFirstEligibleLine m s
      = Some (TranslatedDefiniteGridSpan line (line + s), v) ∧
      (line + s <= length (running_positions_ m))%nat ∧
      WindowMax (running_positions_ m) s line v ∧
      v <= LayoutUnit.add smallest (tie_threshold_ m) ∧
      TieEligible (running_positions_ m) s (tie_threshold_ m) line.
Proof.
  intros Hs Hcursor Hrange Htie.
  destruct (GetMaxPositionsForAllTracks_spec m s Hs)
    as (maxes & Hmaxes & Hmx).
  assert (is_Some (min_element maxes)) as [g Hg].
  { apply min_element_is_Some. intros ->.
    destruct (WindowMax_exists (running_positions_ m) s 0 ltac:(lia)
                ltac:(unfold Fits; lia)) as [v0 Hv0].
    assert (@nil Z !! 0%nat = Some v0) as Hnil
      by (apply Hmx; split; [unfold Fits; lia|done]).
    by rewrite lookup_nil in Hnil. }
  pose proof (min_element_GlobalMin _ _ _ _ Hs Hmx Hg) as Hglobal.
  exists maxes, g. split; [done|]. split; [done|]. split; [done|].
  set (allowed := LayoutUnit.add g (tie_threshold_ m)).
  assert (∃ i, maxes !! i = Some g ∧ g <= allowed) as (i0 & Hi0 & Hle0).
  { pose proof Hg as Hin. apply min_element_Some in Hin as [Hin _].
    apply list_elem_of_lookup in Hin as [i0 Hi0]. exists i0.
    split; [done|]. apply add_nonneg_ge; [|done].
    apply Hmx in Hi0 as [_ [(k & _ & Hk) _]].
    rewrite Forall_lookup in Hrange. by apply (Hrange k g). }
  split.
  { exists i0. pose proof (proj1 (Hmx i0 g) Hi0) as [Hfit Hwin]. done. }
  assert (∃ fallback,
            FindPositionWithinThreshold maxes allowed 0 = Some fallback)
    as [fallback Hfallback].
  { destruct (FindPositionWithinThreshold maxes allowed 0) eqn:Hfind;
      [eauto|].
    rewrite FindPositionWithinThreshold_None in Hfind. exfalso.
    apply (Hfind i0 g); [lia|done|done]. }
  split.
  { pose proof Hfallback as Hfound.
    apply FindPositionWithinThreshold_Some in Hfound
      as (_ & (v0 & Hv0 & Hle) & _).
    exists fallback, v0. split; [done|].
    pose proof (proj1 (Hmx fallback v0) Hv0) as [Hfit Hwin]. done. }
  unfold GetFirstEligibleLine. rewrite Hmaxes. simpl. rewrite Hg. simpl.
  fold allowed.
  assert (∃ r x, match FindPositionWithinThreshold maxes allowed
                         (auto_placement_cursor_ m) with
                 | Some i => Some i
                 | None => FindPositionWithinThreshold maxes allowed 0
                 end = Some r ∧ maxes !! r = Some x ∧ x <= allowed)
    as (r & x & -> & Hx & Hle).
  { destruct (FindPositionWithinThreshold maxes allowed
                (auto_placement_cursor_ m)) as [r|] eqn:Hfind.
    - apply FindPositionWithinThreshold_Some in Hfind
        as (_ & (x & Hx & Hle) & _). by exists r, x.
    - pose proof Hfallback as Hfound.
      apply FindPositionWithinThreshold_Some in Hfound
        as (_ & (x & Hx & Hle) & _). by exists fallback, x. }
  simpl. rewrite Hx. simpl. exists r, x. split; [done|].
  pose proof (proj1 (Hmx r x) Hx) as [Hfit Hwin].
  split; [exact Hfit|]. split; [done|]. split; [done|].
  split; [done|]. by exists x, g.
Qed.

Lemma GetFirstEligibleLine_always_valid_witness :
  let m := MkMasonry [640; 64; 128; 64] [] [] 32 4 false in
  ∃ maxes smallest,
    GetMaxPositionsForAllTracks m 2 = Some maxes ∧
    min_element maxes = Some smallest ∧
    GlobalMin (running_positions_ m) 2 smallest ∧
    (∃ minimizing,
       Fits (running_positions_ m) 2 minimizing ∧
       WindowMax (running_positions_ m) 2 minimizing smallest ∧
       smallest <= LayoutUnit.add smallest (tie_threshold_ m)) ∧
    (∃ fallback v0,
       FindPositionWithinThreshold maxes
         (LayoutUnit.add smallest (tie_threshold_ m)) 0 = Some fallback ∧
       Fits (running_positions_ m) 2 fallback ∧
       WindowMax (running_positions_ m) 2 fallback v0 ∧
       v0 <= LayoutUnit.add smallest (tie_threshold_ m)) ∧
    ∃ line v,
      GetFirstEligibleLine m 2
      = Some (TranslatedDefiniteGridSpan line (line + 2), v) ∧
      (line + 2 <= length (running_positions_ m))%nat ∧
      WindowMax (running_positions_ m) 2 line v ∧
      v <= LayoutUnit.add smallest (tie_threshold_ m) ∧
      TieEligible (running_positions_ m) 2 (tie_threshold_ m) line.
Proof.
  intros m. apply (GetFirstEligibleLine_always_valid m 2).
  - simpl; lia.
  - simpl; lia.
  - repeat constructor; unfold LayoutUnit.kIntMin, LayoutUnit.kIntMax; lia.
  - simpl; lia.
Defined.

End FirstEligibleLine.

(** ** Facts about [UpdateRunningPositionsForSpan] *)

Section UpdateRunningPositions.
Import Masonry MasonrySpec.

Lemma UpdateTrack_non_dense new t m m' :
  UpdateTrack new None t m = Some m' →
  (t < length (running_positions_ m))%nat ∧
  m' = with_running_positions m (<[t := new]> (running_positions_ m)).
Proof.
  unfold UpdateTrack. intros H.
  destruct (running_positions_ m !! t) as [cur|] eqn:Hcur; [|done].
  simpl in H. injection H as <-. split; [|done].
  by apply lookup_lt_Some in Hcur.
Qed.

(** Without a maximum for the span, the loop overwrites the running
    positions of the tracks it visits and touches nothing else. *)
Lemma for_each_track_non_dense new tracks m m' :
  for_each_track (UpdateTrack new None) tracks m = Some m' →
  length (running_positions_ m') = length (running_positions_ m) ∧
  track_collection_openings_ m' = track_collection_openings_ m ∧
  ∀ j, running_positions_ m' !! j =
       if decide (j ∈ tracks) then Some new
       else running_positions_ m !! j.
Proof.
  revert m. induction tracks as [|t tracks IH]; intros m; simpl.
  - intros [= <-]. split; [done|]. split; [done|]. intros j.
    reflexivity.
  - destruct (UpdateTrack new None t m) as [m1|] eqn:Hstep; [|done].
    simpl. intros Hrest.
    apply UpdateTrack_non_dense in Hstep as [Ht ->].
    destruct (IH _ Hrest) as (Hlen & Htco & Hrp). simpl in *.
    rewrite length_insert in Hlen. split; [done|]. split; [done|].
    intros j. rewrite Hrp.
    destruct (decide (j = t)) as [->|Hne].
    + rewrite (decide_True (P := t ∈ t :: tracks)) by left.
      case_decide; [done|]. by rewrite list_lookup_insert_eq.
    + rewrite list_lookup_insert_ne by done.
      case_decide as Hin.
      * rewrite decide_True; [done|]. by right.
      * rewrite decide_False; [done|].
        intros Hin'. apply elem_of_cons in Hin' as [?|?]; done.
Qed.

Lemma UpdateRunningPositionsForSpan_non_dense m span new m' :
  UpdateRunningPositionsForSpan m span new None = Some m' →
  track_collection_openings_ m' = track_collection_openings_ m ∧
  ∀ j, running_positions_ m' !! j =
       if decide (StartLine span <= j < EndLine span)%nat
       then Some new else running_positions_ m !! j.
Proof.
  unfold UpdateRunningPositionsForSpan. case_decide as Hend; [|done].
  intros Hloop. apply for_each_track_non_dense in Hloop
    as (_ & Htco & Hrp).
  split; [done|]. intros j. rewrite Hrp.
  destruct (decide (StartLine span <= j < EndLine span)%nat) as [Hj|Hj].
  - rewrite decide_True; [done|]. apply elem_of_seq. lia.
  - rewrite decide_False; [done|]. rewrite elem_of_seq. lia.
Qed.

Lemma RaisingUpdate_monotone m m' t v :
  RaisingUpdate m m' →
  running_positions_ m !! t = Some v →
  ∃ v', running_positions_ m' !! t = Some v' ∧ v <= v'.
Proof.
  intros [m0 span new largest m1 Hmax Hle Hupd] Hv.
  apply UpdateRunningPositionsForSpan_non_dense in Hupd as [_ Hrp].
  rewrite Hrp. case_decide as Hin.
  - exists new. split; [done|].
    unfold GetMaxPositionForSpan in Hmax. case_decide; [|done].
    apply max_element_Some in Hmax as [_ Hall].
    assert (v <= largest); [|lia].
    apply Hall. apply elem_of_window. exists t. unfold SpanSize.
    split; [lia|done].
  - exists v. split; [done|lia].
Qed.

(** C5, as amended.  Under non-dense packing (no maximum for the span is
    ever supplied), across any sequence of calls of
    [UpdateRunningPositionsForSpan] each of whose new running position is
    at least the largest running position of its span, every track's
    running position is greater than or equal to its value before. *)
Theorem running_positions_non_decreasing m m' t v :
  rtc RaisingUpdate m m' →
  running_positions_ m !! t = Some v →
  ∃ v', running_positions_ m' !! t = Some v' ∧ v <= v'.
Proof.
  intros Hrun. revert v. induction Hrun as [m|m m1 m' Hstep _ IH];
    intros v Hv.
  - exists v. split; [done|lia].
  - destruct (RaisingUpdate_monotone _ _ _ _ Hstep Hv) as (v1 & Hv1 & Hle1).
    destruct (IH _ Hv1) as (v' & Hv' & Hle'). exists v'.
    split; [done|lia].
Qed.

Lemma running_positions_non_decreasing_witness :
  let m0 := MkMasonry [0; 64; 0] [[]; []; []] [64; 64; 64] 0 0 false in
  let m1 := MkMasonry [128; 128; 0] [[]; []; []] [64; 64; 64] 0 0 false in
  let m2 := MkMasonry [128; 128; 192] [[]; []; []] [64; 64; 64] 0 0 false in
  rtc RaisingUpdate m0 m2 ∧
  ∃ v', running_positions_ m2 !! 1%nat = Some v' ∧ 64 <= v'.
Proof.
  intros m0 m1 m2.
  assert (rtc RaisingUpdate m0 m2) as Hrun.
  { apply (rtc_l _ _ m1).
    - apply (raising_update m0 (TranslatedDefiniteGridSpan 0 2) 128 64);
        [reflexivity|lia|reflexivity].
    - apply rtc_once.
      apply (raising_update m1 (TranslatedDefiniteGridSpan 2 3) 192 0);
        [reflexivity|lia|reflexivity]. }
  split; [exact Hrun|].
  apply (running_positions_non_decreasing m0 m2 1%nat 64 Hrun).
  reflexivity.
Defined.

(** C5 as stated fails: a call without a maximum for the span whose new
    running position is below the current one lowers the track's running
    position, because the update always overwrites. *)
Lemma running_positions_can_decrease :
  ¬ (∀ m span new m' t v,
       UpdateRunningPositionsForSpan m span new None = Some m' →
       running_positions_ m !! t = Some v →
       ∃ v', running_positions_ m' !! t = Some v' ∧ v <= v').
Proof.
  intros Hclaim.
  destruct (Hclaim (MkMasonry [640] [[]] [64] 0 0 false)
              (TranslatedDefiniteGridSpan 0 1) 320 _ 0%nat 640
              eq_refl eq_refl) as (v' & Hv' & Hle).
  simpl in Hv'. injection Hv' as <-. lia.
Qed.

End UpdateRunningPositions.

(** ** Facts about [AccumulateTrackOpeningsToAccommodateItem] *)

Section AccumulateTrackOpenings.
Import Masonry MasonrySpec MasonryAux.

Lemma Accumulate_unfold m size ps pe n track r :
  AccumulateTrackOpeningsToAccommodateItem m size ps pe n track r =
  openings ← track_collection_openings_ m !! track;
  ScanOpenings size (deeper_call m size n track) ps pe openings 0%nat r.
Proof. destruct n; reflexivity. Qed.

Lemma IsValid_false_inv r :
  IsValid r = false → path_start_position r = None.
Proof.
  unfold IsValid. intros H. apply bool_decide_eq_false in H.
  destruct (path_start_position r); [|done]. exfalso. apply H. eauto.
Qed.

Lemma IsValid_MkPath_Some w st idxs : IsValid (MkPath (Some w) st idxs) = true.
Proof. unfold IsValid. apply bool_decide_eq_true. simpl. eauto. Qed.

Lemma RecordOpening_invalid r os i :
  IsValid r = false →
  RecordOpening r os i =
  MkPath (Some os) (starting_track_index r) (track_opening_indices r ++ [i]).
Proof. unfold RecordOpening. by intros ->. Qed.

Lemma RecordOpening_valid w st idxs os i :
  RecordOpening (MkPath (Some w) st idxs) os i =
  MkPath (Some w) st (idxs ++ [i]).
Proof. unfold RecordOpening. by rewrite IsValid_MkPath_Some. Qed.

(** The loop over one track's openings, given what the call for the next
    track does. *)
Lemma ScanOpenings_outcome m size n track all :
  track_collection_openings_ m !! track = Some all →
  (∀ ps pe r0, IsValid r0 = false →
     match deeper_call m size n track with
     | None => n = 0%nat
     | Some next_track =>
       ∃ n' r, n = S n' ∧ next_track ps pe r0 = Some r ∧
         SearchOutcome (track_collection_openings_ m) size (S track)
           ps pe n' 0 r0 r
     end) →
  ∀ l i ps pe r0,
    drop i all = l → IsValid r0 = false →
    ∃ r, ScanOpenings size (deeper_call m size n track) ps pe l i r0
         = Some r ∧
         SearchOutcome (track_collection_openings_ m) size track
           ps pe n i r0 r.
Proof.
  intros Hall Hdeep. set (tco := track_collection_openings_ m) in *.
  assert (∀ i o, all !! i = Some o → OpeningAt tco track i = Some o) as Hat.
  { intros i o Ho. unfold OpeningAt. by rewrite Hall. }
  induction l as [|o rest IH]; intros i ps pe r0 Hdrop Hr0; simpl.
  - exists r0. split; [done|]. left. split; [done|].
    intros k path Hk Hlen (o & Ho & _).
    unfold OpeningAt in Ho. rewrite Hall in Ho. simpl in Ho.
    assert (length all <= i)%nat.
    { apply (f_equal length) in Hdrop. rewrite length_drop in Hdrop.
      simpl in Hdrop. lia. }
    apply lookup_lt_Some in Ho. lia.
  - assert (all !! i = Some o) as Hi.
    { rewrite <- (Nat.add_0_r i), <- lookup_drop, Hdrop. done. }
    assert (drop (S i) all = rest) as Hdrop'.
    { replace (S i) with (i + 1)%nat by lia.
      rewrite <- drop_drop, Hdrop. done. }
    (* what happens when opening [i] is skipped *)
    assert (∀ r1, r1 = r0 →
              (∀ path, length path = n →
                 ¬ ValidPath tco size track ps pe (i :: path)) →
              ∃ r, ScanOpenings size (deeper_call m size n track) ps pe
                     rest (S i) r1 = Some r ∧
                   SearchOutcome tco size track ps pe n i r0 r) as Hskip.
    { intros r1 -> Hnone.
      destruct (IH (S i) ps pe r0 Hdrop' Hr0) as (r & Hr & Hout).
      exists r. split; [done|].
      destruct Hout as [[-> Hno]|(k & path & ws & we & Hk & Hrest)].
      - left. split; [done|]. intros k path Hk Hlen.
        destruct (decide (k = i)) as [->|Hne]; [by apply Hnone|].
        apply Hno; [lia|done].
      - right. exists k, path, ws, we. split; [lia|done]. }
    case_decide as Hfits.
    + specialize (Hdeep (Z.max ps (start_position o))
                    (Z.min pe (end_position o)) r0 Hr0).
      destruct (deeper_call m size n track) as [next_track|].
      * destruct Hdeep as (n' & r' & -> & Hnext & Hout). rewrite Hnext.
        simpl.
        destruct Hout as [[-> Hno]|(k & path & ws & we & _ & Hlen & Hvalid
                                      & Hwin & ->)].
        -- rewrite Hr0. apply Hskip; [done|].
           intros path Hlen (o' & Ho' & _ & Hpath).
           rewrite (Hat _ _ Hi) in Ho'. injection Ho' as <-.
           destruct path as [|k path]; [done|].
           apply (Hno k path); [lia|by injection Hlen|done].
        -- rewrite IsValid_MkPath_Some, RecordOpening_valid.
           eexists. split; [done|]. right.
           exists i, (k :: path), ws, we. split; [lia|].
           split; [simpl; lia|]. split.
           { exists o. split; [by apply Hat|]. split; done. }
           split.
           { cbn [PathWindow]. rewrite (Hat _ _ Hi). exact Hwin. }
           f_equal. cbn [rev]. by rewrite !app_assoc.
      * subst n. eexists. split; [done|]. right.
        exists i, [], (Z.max ps (start_position o)),
          (Z.min pe (end_position o)).
        split; [lia|]. split; [done|]. split.
        { exists o. split; [by apply Hat|]. split; done. }
        split.
        { cbn [PathWindow]. by rewrite (Hat _ _ Hi). }
        by rewrite RecordOpening_invalid.
    + apply Hskip; [done|].
      intros path Hlen (o' & Ho' & Hsz & _).
      rewrite (Hat _ _ Hi) in Ho'. injection Ho' as <-. done.
Qed.

Lemma Accumulate_outcome m size n : ∀ track ps pe r0,
  (track + n < length (track_collection_openings_ m))%nat →
  IsValid r0 = false →
  ∃ r, AccumulateTrackOpeningsToAccommodateItem m size ps pe n track r0
       = Some r ∧
       SearchOutcome (track_collection_openings_ m) size track ps pe n 0
         r0 r.
Proof.
  induction n as [|n IH]; intros track ps pe r0 Hrange Hr0;
    rewrite Accumulate_unfold;
    destruct (lookup_lt_is_Some_2 (track_collection_openings_ m) track
                ltac:(lia)) as [all Hall];
    rewrite Hall; simpl.
  - apply (ScanOpenings_outcome m size 0 track all Hall); done.
  - apply (ScanOpenings_outcome m size (S n) track all Hall); try done.
    intros ps' pe' r1 Hr1. simpl.
    destruct (IH (S track) ps' pe' r1 ltac:(lia) Hr1) as (r & Hr & Hout).
    exists n, r. done.
Qed.

(** C4.  Started on a result that is not valid yet,
    [AccumulateTrackOpeningsToAccommodateItem] returns true (leaves the
    result valid) if and only if there is a path of openings, one on each
    of the [num_tracks_remaining + 1] tracks from
    [track_to_check_for_openings] on, whose successively narrowed overlap
    window is at least the item's stacking-axis size on every track.
    When it returns true, the result's start position is the overlap
    start of the innermost frame of the path found, and the frames have
    appended their opening indices innermost first and changed nothing
    else; when it returns false the result is untouched. *)
Theorem Accumulate_true_iff_path m size ps pe n track r0 :
  (track + n < length (track_collection_openings_ m))%nat →
  IsValid r0 = false →
  ∃ r,
    AccumulateTrackOpeningsToAccommodateItem m size ps pe n track r0
    = Some r ∧
    (IsValid r = true ↔
     ∃ path, length path = S n ∧
       ValidPath (track_collection_openings_ m) size track ps pe path) ∧
    (IsValid r = true →
     ∃ path window_start window_end,
       length path = S n ∧
       ValidPath (track_collection_openings_ m) size track ps pe path ∧
       PathWindow (track_collection_openings_ m) track ps pe path
       = Some (window_start, window_end) ∧
       path_start_position r = Some window_start ∧
       track_opening_indices r = track_opening_indices r0 ++ rev path ∧
       starting_track_index r = starting_track_index r0) ∧
    (IsValid r = false → r = r0).
Proof.
  intros Hrange Hr0.
  destruct (Accumulate_outcome m size n track ps pe r0 Hrange Hr0)
    as (r & Hr & Hout).
  exists r. split; [done|].
  destruct Hout as [[-> Hno]|(i & rest & ws & we & _ & Hlen & Hvalid & Hwin
                                & ->)].
  - rewrite Hr0. split; [|split; done]. split; [done|].
    intros ([|i rest] & Hlen & Hvalid); [done|]. exfalso.
    apply (Hno i rest); [lia|by injection Hlen|done].
  - rewrite IsValid_MkPath_Some. split; [|split; [|done]].
    + split; [|done]. intros _. exists (i :: rest).
      split; [simpl; lia|done].
    + intros _. exists (i :: rest), ws, we. simpl. repeat split; try done.
      lia.
Qed.

Lemma Accumulate_true_iff_path_witness :
  let m := MkMasonry [6400; 6400]
             [[MkTrackOpening 0 6400]; [MkTrackOpening 3200 6400]]
             [640; 640] 0 0 true in
  ∃ r,
    AccumulateTrackOpeningsToAccommodateItem m 640 LayoutUnit.Zero
      LayoutUnit.Max 1 0 EmptyPath = Some r ∧
    (IsValid r = true ↔
     ∃ path, length path = 2%nat ∧
       ValidPath (track_collection_openings_ m) 640 0 LayoutUnit.Zero
         LayoutUnit.Max path) ∧
    (IsValid r = true →
     ∃ path window_start window_end,
       length path = 2%nat ∧
       ValidPath (track_collection_openings_ m) 640 0 LayoutUnit.Zero
         LayoutUnit.Max path ∧
       PathWindow (track_collection_openings_ m) 0 LayoutUnit.Zero
         LayoutUnit.Max path = Some (window_start, window_end) ∧
       path_start_position r = Some window_start ∧
       track_opening_indices r = track_opening_indices EmptyPath ++ rev path ∧
       starting_track_index r = starting_track_index EmptyPath) ∧
    (IsValid r = false → r = EmptyPath).
Proof.
  intros m.
  apply (Accumulate_true_iff_path m 640 LayoutUnit.Zero LayoutUnit.Max
           1 0 EmptyPath).
  - simpl; lia.
  - reflexivity.
Defined.

Example Accumulate_two_tracks :
  AccumulateTrackOpeningsToAccommodateItem
    (MkMasonry [6400; 6400]
       [[MkTrackOpening 0 6400]; [MkTrackOpening 3200 6400]]
       [640; 640] 0 0 true)
    640 LayoutUnit.Zero LayoutUnit.Max 1 0 EmptyPath
  = Some (MkPath (Some 3200) 0 [0; 0]%nat).
Proof. reflexivity. Qed.

End AccumulateTrackOpenings.

(** ** Facts about [GetEligibleTrackOpeningAndUpdateMasonryItemSpan] *)

Section EligibleTrackOpening.
Import Masonry MasonrySpec MasonryAux.

Lemma span_eqb_eq a b : span_eqb a b = true ↔ a = b.
Proof.
  unfold span_eqb. rewrite andb_true_iff, !Nat.eqb_eq.
  destruct a, b; simpl. split; [intros [-> ->]; done|]. by intros [= -> ->].
Qed.

Lemma elem_of_SpansFrom count : ∀ item_span span,
  span ∈ SpansFrom count item_span →
  ∃ k, (k < count)%nat ∧
       span = TranslatedDefiniteGridSpan (StartLine item_span + k)
                (EndLine item_span + k).
Proof.
  induction count as [|count IH]; intros item_span span Hin; simpl in Hin.
  - by apply elem_of_nil in Hin.
  - apply elem_of_cons in Hin as [->|Hin].
    + exists 0%nat. split; [lia|]. destruct item_span. simpl.
      by rewrite !Nat.add_0_r.
    + apply IH in Hin as (k & Hk & ->). exists (S k). split; [lia|].
      simpl. f_equal; lia.
Qed.

Lemma CalculateUsedTrackSize_is_Some m span :
  (EndLine span <= length (track_collection_sizes_ m))%nat →
  is_Some (CalculateUsedTrackSize m span).
Proof.
  intros H. unfold CalculateUsedTrackSize. rewrite decide_True by done. eauto.
Qed.

(** A candidate whose track sizes do not add up to the item's, or from
    whose first track no path of openings starts, leaves an empty best
    result empty. *)
Lemma TryCandidateSpan_no_path m size span_size used track :
  (1 <= span_size)%nat →
  (track + span_size <= length (track_collection_sizes_ m))%nat →
  (track + span_size <= length (track_collection_openings_ m))%nat →
  CalculateUsedTrackSize m
    (TranslatedDefiniteGridSpan track (track + span_size)) ≠ Some used ∨
  NoOpeningPathFrom m size span_size track →
  TryCandidateSpan m size span_size used
    (TranslatedDefiniteGridSpan track (track + span_size)) EmptyPath
  = Some EmptyPath.
Proof.
  intros Hsize Hsizes Htco Hno. unfold TryCandidateSpan.
  destruct (CalculateUsedTrackSize_is_Some m
              (TranslatedDefiniteGridSpan track (track + span_size))
              ltac:(done)) as [sz Hsz].
  rewrite Hsz. simpl. case_decide as Hused; [done|].
  destruct Hno as [Hne|Hno]; [congruence|].
  destruct (lookup_lt_is_Some_2 (track_collection_openings_ m) track
              ltac:(lia)) as [openings Hopenings].
  rewrite Hopenings. simpl. destruct openings as [|first_opening rest]; [done|].
  simpl.
  destruct (Accumulate_true_iff_path m size LayoutUnit.Zero LayoutUnit.Max
              (span_size - 1) track EmptyPath ltac:(lia) eq_refl)
    as (r & Hr & Hiff & _ & Hsame).
  rewrite Hr. simpl.
  destruct (IsValid r) eqn:Hvalid; [|done].
  exfalso. apply Hno. destruct (proj1 Hiff eq_refl) as (path & Hlen & Hpath).
  exists path. split; [lia|done].
Qed.

Lemma SearchCandidates_no_path m item size span_size used candidates :
  (∀ span, span ∈ candidates →
     is_auto_placed item = true ∨ span = resolved_span item →
     TryCandidateSpan m size span_size used span EmptyPath = Some EmptyPath) →
  SearchCandidates m item size span_size used candidates EmptyPath
  = Some EmptyPath.
Proof.
  induction candidates as [|span rest IH]; intros Hall; simpl; [done|].
  destruct (negb (is_auto_placed item) && negb (span_eqb span (resolved_span item)))
    eqn:Hbreak; [done|].
  rewrite Hall; [simpl; apply IH| left |].
  - intros span' Hin. apply Hall. by right.
  - apply andb_false_iff in Hbreak as [Hauto|Heq].
    + left. by destruct (is_auto_placed item).
    + right. apply span_eqb_eq. by destruct (span_eqb span (resolved_span item)).
Qed.

(** C6.  When, for every start line the search considers, the candidate
    span's track sizes do not add up to the item's or no path of openings
    starts there, [GetEligibleTrackOpeningAndUpdateMasonryItemSpan] stops
    with no error, returns the zero position of the invalid result and
    leaves the object (every track's opening list included) and the item
    (its resolved span included) as they were. *)
Theorem GetEligibleTrackOpening_failure_leaves_state m item size :
  (StartLine (resolved_span item) < EndLine (resolved_span item))%nat →
  (EndLine (resolved_span item) <= length (track_collection_sizes_ m))%nat →
  (length (running_positions_ m) <= length (track_collection_sizes_ m))%nat →
  (length (running_positions_ m) <= length (track_collection_openings_ m))%nat →
  (∀ track, CandidateStart m item track →
     CalculateUsedTrackSize m
       (TranslatedDefiniteGridSpan track
          (track + SpanSize (resolved_span item)))
     ≠ CalculateUsedTrackSize m (resolved_span item) ∨
     NoOpeningPathFrom m size (SpanSize (resolved_span item)) track) →
  GetEligibleTrackOpeningAndUpdateMasonryItemSpan m item size
  = Some (LayoutUnit.Zero, m, item).
Proof.
  intros Hspan Hend Hsizes Htco Hno.
  unfold GetEligibleTrackOpeningAndUpdateMasonryItemSpan.
  assert (FindHighestEligiblePath m item size = Some EmptyPath) as ->;
    [|done].
  unfold FindHighestEligiblePath.
  destruct (CalculateUsedTrackSize_is_Some m (resolved_span item) Hend)
    as [used Hused].
  rewrite Hused in *. simpl.
  set (span_size := SpanSize (resolved_span item)) in *.
  assert (1 <= span_size)%nat as Hsize by (unfold span_size, SpanSize; lia).
  apply SearchCandidates_no_path. intros span Hin Hvisit.
  unfold CandidateSpans in Hin. apply elem_of_SpansFrom in Hin
    as (k & Hk & ->). simpl.
  set (span0 := if is_auto_placed item
                then TranslatedDefiniteGridSpan 0 span_size
                else resolved_span item) in *.
  assert (EndLine span0 = (StartLine span0 + span_size)%nat) as Hend0.
  { unfold span0. destruct (is_auto_placed item); simpl; [done|].
    unfold span_size, SpanSize. lia. }
  rewrite Hend0 in *.
  replace (StartLine span0 + span_size + k)%nat
    with ((StartLine span0 + k) + span_size)%nat by lia.
  apply TryCandidateSpan_no_path; [done|lia|lia|].
  apply Hno. split; [fold span_size; lia|].
  destruct Hvisit as [Hauto|Heq]; [by left|]. right.
  rewrite <- Heq. done.
Qed.

Lemma GetEligibleTrackOpening_failure_leaves_state_witness :
  let m := MkMasonry [6400; 6400; 3200]
             [[MkTrackOpening 0 320]; []; [MkTrackOpening 640 960]]
             [640; 640; 1280] 0 0 true in
  let item := MkItem true (TranslatedDefiniteGridSpan 1 2) in
  GetEligibleTrackOpeningAndUpdateMasonryItemSpan m item 640
  = Some (LayoutUnit.Zero, m, item).
Proof.
  intros m item.
  apply (GetEligibleTrackOpening_failure_leaves_state m item 640).
  - simpl; lia.
  - simpl; lia.
  - simpl; lia.
  - simpl; lia.
  - intros track [Hfit _]. unfold m, item, SpanSize in Hfit. simpl in Hfit.
    destruct track as [|[|[|track]]]; [| |left; by vm_compute|lia].
    + right. intros ([|i [|? ?]] & Hlen & Hpath); try done.
      destruct Hpath as (o & Ho & Hsz & _).
      destruct i as [|i]; [|by destruct i].
      injection Ho as <-. vm_compute in Hsz. by apply Hsz.
    + right. intros ([|i [|? ?]] & Hlen & Hpath); try done.
      destruct Hpath as (o & Ho & _). by destruct i.
Defined.









(** What the loop body does when the item neither fills the opening nor
    starts at its start: the opening above the item is inserted, and the
    consumed opening's start is its old start advanced by the size. *)
Lemma ConsumeOpening_split size placement_start openings i o :
  openings !! i = Some o →
  size ≠ Size o →
  start_position o ≠ placement_start →
  ConsumeOpening size placement_start openings i
  = Some (take i openings ++
          MkTrackOpening (start_position o) placement_start ::
          MkTrackOpening (LayoutUnit.add (start_position o) size)
            (end_position o) ::
          drop (S i) openings).
Proof.
  intros Ho Hfill Hsplit. unfold ConsumeOpening. rewrite Ho. simpl.
  rewrite decide_False by done. rewrite decide_True by done. f_equal.
  assert (length (take i openings) = i) as Hlen.
  { apply length_take_le. apply lookup_lt_Some in Ho. lia. }
  rewrite <- Hlen at 1.
  replace (S (length (take i openings)))
    with (length (take i openings) + 1)%nat by lia.
  rewrite alter_app_r. f_equal.
  rewrite (drop_S openings o i Ho). reflexivity.
Qed.

Lemma three_tracks_packed_reached :
  (m1 ← UpdateRunningPositionsForSpan three_tracks_empty
          (TranslatedDefiniteGridSpan 1 2) 3200 (Some 0);
   m2 ← UpdateRunningPositionsForSpan m1
          (TranslatedDefiniteGridSpan 2 3) 6400 (Some 0);
   UpdateRunningPositionsForSpan m2
     (TranslatedDefiniteGridSpan 0 3) 12800 (Some 6400))
  = Some three_tracks_packed.
Proof. reflexivity. Qed.

(** C2.  On [three_tracks_packed] an auto-placed item spanning two tracks
    with stacking-axis size 10 is placed at 50 in the openings [0, 100) of
    track 0 and [50, 100) of track 1.  On track 0 the placement start
    differs from the opening's start: the opening [0, 50) is inserted and
    the consumed opening's start is advanced by 10, to [10, 100).  The
    unused remainder of [0, 100) around the item at [50, 60) is [0, 50) and
    [60, 100): what the code leaves is not the unused remainder. *)
Theorem split_opening_is_not_the_unused_remainder :
  let item := MkItem true (TranslatedDefiniteGridSpan 0 2) in
  GetEligibleTrackOpeningAndUpdateMasonryItemSpan three_tracks_packed item 640
  = Some (3200,
          with_openings three_tracks_packed
            [[MkTrackOpening 0 3200; MkTrackOpening 640 6400];
             [MkTrackOpening 3840 6400]; []],
          with_span item (TranslatedDefiniteGridSpan 0 2)) ∧
  UnusedRemainder (MkTrackOpening 0 6400) 3200 640
  = [MkTrackOpening 0 3200; MkTrackOpening 3840 6400] ∧
  [MkTrackOpening 0 3200; MkTrackOpening 640 6400]
  ≠ UnusedRemainder (MkTrackOpening 0 6400) 3200 640.
Proof. split; [reflexivity|]. split; [reflexivity|]. discriminate. Qed.

(** C3.  [three_tracks_packed] satisfies the invariant of the opening
    lists; after [GetEligibleTrackOpeningAndUpdateMasonryItemSpan] has
    split the opening of track 0 for the item above, the list of track 0
    holds [0, 50) followed by [10, 100), which overlap: the invariant is
    lost. *)
Theorem split_opening_breaks_the_invariant :
  let item := MkItem true (TranslatedDefiniteGridSpan 0 2) in
  OpeningsInvariant three_tracks_packed ∧
  ∃ position m' item',
    GetEligibleTrackOpeningAndUpdateMasonryItemSpan three_tracks_packed
      item 640 = Some (position, m', item') ∧
    ¬ OpeningsInvariant m'.
Proof.
  intros item. split.
  - unfold OpeningsInvariant, WellFormedOpenings. simpl.
    repeat first [ lia | apply Forall_nil_2 | apply Forall_cons_2
                 | apply SSorted_nil | apply SSorted_cons | split ].
  - exists 3200,
      (with_openings three_tracks_packed
         [[MkTrackOpening 0 3200; MkTrackOpening 640 6400];
          [MkTrackOpening 3840 6400]; []]),
      (with_span item (TranslatedDefiniteGridSpan 0 2)).
    split; [reflexivity|].
    unfold OpeningsInvariant. simpl. intros Hinv.
    apply Forall_cons in Hinv as [[_ Hsorted] _].
    apply StronglySorted_inv in Hsorted as [_ Hfirst].
    apply Forall_cons in Hfirst as [Hle _]. simpl in Hle. lia.
Qed.

End EligibleTrackOpening.

(** ** Facts about the flex gap accumulator *)

Section FlexGapAccumulation.
Import Flex FlexSpec.

(** C7.  [BuildGapGeometry] returns null exactly when neither axis is
    valid, an axis being valid when it has a strictly positive gap size and
    a nonempty gap list; with both gap sizes zero the geometry is null
    whatever gaps were collected; and when at least one axis is valid the
    result is not null. *)
Theorem BuildGapGeometry_null_iff_no_valid_axis :
  (∀ acc,
     BuildGapGeometry acc = None ↔
     ¬ ValidAxis (main_gaps_ acc) (gap_between_lines_ acc) ∧
     ¬ ValidAxis (cross_gaps_ acc) (gap_between_items_ acc)) ∧
  (∀ builder is_column main_gaps cross_gaps cross_start cross_end
     main_start main_end,
     BuildGapGeometry
       (MkAccumulator (LayoutUnit.FromInt 0) (LayoutUnit.FromInt 0) builder
          is_column main_gaps cross_gaps cross_start cross_end main_start
          main_end) = None) ∧
  (∀ acc,
     ValidAxis (main_gaps_ acc) (gap_between_lines_ acc) ∨
     ValidAxis (cross_gaps_ acc) (gap_between_items_ acc) →
     is_Some (BuildGapGeometry acc)).
Proof.
  assert (∀ acc,
            BuildGapGeometry acc = None ↔
            ¬ ValidAxis (main_gaps_ acc) (gap_between_lines_ acc) ∧
            ¬ ValidAxis (cross_gaps_ acc) (gap_between_items_ acc)) as Hiff.
  { intros acc. unfold BuildGapGeometry, ValidAxis.
    destruct (bool_decide (main_gaps_ acc = [])) eqn:Hmain;
      destruct (bool_decide (LayoutUnit.Zero < gap_between_lines_ acc))
        eqn:Hlines;
      destruct (bool_decide (cross_gaps_ acc = [])) eqn:Hcross;
      destruct (bool_decide (LayoutUnit.Zero < gap_between_items_ acc))
        eqn:Hitems;
      simpl;
      repeat match goal with
             | H : bool_decide _ = true |- _ => apply bool_decide_eq_true in H
             | H : bool_decide _ = false |- _ =>
               apply bool_decide_eq_false in H
             end;
      (split; [intros Hnone; try discriminate; split; intros [? ?]; done|]);
      intros [Hm Hc]; try done;
      exfalso; first [apply Hm; done | apply Hc; done]. }
  split; [exact Hiff|]. split.
  - intros. apply Hiff. unfold ValidAxis. simpl.
    change (LayoutUnit.FromInt 0) with 0. unfold LayoutUnit.Zero.
    split; intros [_ ?]; lia.
  - intros acc Hvalid.
    destruct (BuildGapGeometry acc) eqn:Hbuild; [eauto|].
    apply Hiff in Hbuild as [Hm Hc]. destruct Hvalid; done.
Qed.

Lemma BuildGapGeometry_null_iff_no_valid_axis_witness :
  let builder := MkBuilder 0 0 0 0 6400 12800 in
  let gap := MkCrossGap (MkLogicalOffset 3200 0) kBoth in
  let acc := MkAccumulator 640 0 builder false [] [gap] 0 6400 0 12800 in
  (ValidAxis (main_gaps_ acc) (gap_between_lines_ acc) ∨
   ValidAxis (cross_gaps_ acc) (gap_between_items_ acc)) ∧
  is_Some (BuildGapGeometry acc).
Proof.
  intros builder gap acc.
  assert (ValidAxis (main_gaps_ acc) (gap_between_lines_ acc) ∨
          ValidAxis (cross_gaps_ acc) (gap_between_items_ acc)) as Hvalid.
  { right. split; [discriminate|]. unfold LayoutUnit.Zero. simpl. lia. }
  split; [exact Hvalid|].
  exact (proj2 (proj2 BuildGapGeometry_null_iff_no_valid_axis) acc Hvalid).
Defined.

Lemma HandleCrossGapRanges_is_Some acc flex_line_index cross_gap_index :
  (main_gaps_ acc = [] ∨ flex_line_index = 0%nat ∨
   (flex_line_index - 1 < length (main_gaps_ acc))%nat) →
  ∃ acc',
    HandleCrossGapRangesForCurrentItem acc flex_line_index cross_gap_index
    = Some acc' ∧
    cross_gaps_ acc' = cross_gaps_ acc ∧
    length (main_gaps_ acc') = length (main_gaps_ acc) ∧
    gap_between_items_ acc' = gap_between_items_ acc ∧
    gap_between_lines_ acc' = gap_between_lines_ acc ∧
    is_column_ acc' = is_column_ acc.
Proof.
  intros Hpre. unfold HandleCrossGapRangesForCurrentItem.
  destruct (main_gaps_ acc) as [|g gaps] eqn:Hgaps.
  - exists acc. by rewrite Hgaps.
  - destruct flex_line_index as [|previous_line].
    + eexists. split; [done|]. simpl.
      try case_decide; simpl; rewrite ?length_alter; done.
    + assert (previous_line < length (g :: gaps))%nat as Hlt.
      { destruct Hpre as [?|[?|Hlt]]; [done|done|]. lia. }
      assert (length (if decide (S previous_line < length (g :: gaps))%nat
                      then alter
                             (IncrementRangeOfCrossGapsBefore cross_gap_index)
                             (S previous_line) (g :: gaps)
                      else g :: gaps) = length (g :: gaps)) as Hlen
        by (case_decide; rewrite ?length_alter; done).
      rewrite decide_True by (rewrite Hlen; done).
      eexists. split; [done|]. unfold with_main_gaps.
      cbn [main_gaps_ cross_gaps_ gap_between_items_ gap_between_lines_
           is_column_].
      rewrite length_alter, Hlen. done.
Qed.






End FlexGapAccumulation.

(** ** Facts about the pairing of intersections *)

Section IntersectionPairs.
Import Painter.

Lemma wtf_sub_one count :
  (1 <= count < kWtfSizeModulus)%N → wtf_sub count 1 = (count - 1)%N.
Proof.
  intros Hcount. unfold wtf_sub, kWtfSizeModulus in *.
  rewrite (N.mod_small 1) by lia.
  replace (count + 4294967296 - 1)%N
    with ((count - 1) + 1 * 4294967296)%N by lia.
  rewrite N.Div0.mod_add. apply N.mod_small. lia.
Qed.

(** C9.  For every direction, gap index, intersection list, geometry
    (whatever its blocked statuses) and incoming pair,
    [AdjustIntersectionIndexPair] with [RuleBreak::kNone] sets [start] to 0
    and [end] to [intersection_count - 1], the index of the last
    intersection. *)
Theorem AdjustIntersectionIndexPair_kNone_covers_gap
    track_direction start end_index intersection_count gap_index
    gap_geometry intersections :
  AdjustIntersectionIndexPair track_direction start end_index
    intersection_count gap_index kNone gap_geometry intersections
  = (0%N, wtf_sub intersection_count 1) ∧
  ((1 <= intersection_count < kWtfSizeModulus)%N →
   intersection_count = N.of_nat (length intersections) →
   AdjustIntersectionIndexPair track_direction start end_index
     intersection_count gap_index kNone gap_geometry intersections
   = (0%N, N.of_nat (length intersections - 1))).
Proof.
  split; [reflexivity|]. intros Hcount Hlen.
  unfold AdjustIntersectionIndexPair. rewrite wtf_sub_one by done.
  f_equal. lia.
Qed.

Lemma AdjustIntersectionIndexPair_kNone_covers_gap_witness :
  let blocked := MkGapGeometry kGrid (λ _ _ _ _, MkBlockedStatus true true) in
  AdjustIntersectionIndexPair kForRows 2 2 4 1 kNone blocked
    [0; 3200; 6400; 9600] = (0%N, 3%N).
Proof.
  intros blocked.
  exact (proj2 (AdjustIntersectionIndexPair_kNone_covers_gap kForRows 2 2 4 1
                  blocked [0; 3200; 6400; 9600])
           ltac:(unfold kWtfSizeModulus; lia) eq_refl).
Defined.

Example AdjustIntersectionIndexPair_spanning_item_breaks :
  AdjustIntersectionIndexPair kForRows 0 0 4 1 kSpanningItem
    (MkGapGeometry kGrid
       (λ _ _ i _, MkBlockedStatus false (N.eqb i 2)))
    [0; 3200; 6400; 9600] = (0%N, 2%N).
Proof. reflexivity. Qed.

End IntersectionPairs.

(** ** Further facts about the running positions *)

Section RunningPositionsFurther.
Import Masonry MasonrySpec MasonryMore.

(** X1.  [GetMaxPositionForSpan] answers exactly for a span with at least one
    track that ends within the tracks, and then with the largest running
    position of the span; for any other span the bounds check stops it. *)
Theorem GetMaxPositionForSpan_is_window_max m span v :
  GetMaxPositionForSpan m span = Some v ↔
  (StartLine span < EndLine span)%nat ∧
  (EndLine span <= length (running_positions_ m))%nat ∧
  WindowMax (running_positions_ m) (SpanSize span) (StartLine span) v.
Proof.
  destruct span as [a b]. unfold SpanSize. simpl. split.
  - intros Hmax.
    assert (a < b)%nat as Hab.
    { unfold GetMaxPositionForSpan, SpanSize in Hmax. simpl in Hmax.
      case_decide; [|done].
      destruct (decide (a < b)%nat); [done|].
      replace (b - a)%nat with 0%nat in Hmax by lia. by rewrite take_0 in Hmax. }
    replace b with (a + (b - a))%nat in Hmax at 1 by lia.
    pose proof (GetMaxPositionForSpan_window _ _ _ _ Hmax) as Hwin.
    split; [done|]. split; [|done].
    unfold GetMaxPositionForSpan, SpanSize in Hmax. simpl in Hmax.
    case_decide; [lia|done].
  - intros (Hab & Hend & Hwin).
    destruct (GetMaxPositionForSpan_is_Some m (b - a) a ltac:(lia)
                ltac:(unfold Fits; lia)) as [v' Hv'].
    replace (a + (b - a))%nat with b in Hv' by lia. rewrite Hv'. f_equal.
    replace b with (a + (b - a))%nat in Hv' at 1 by lia.
    apply GetMaxPositionForSpan_window in Hv'.
    by apply (WindowMax_unique _ _ _ _ _ Hv' Hwin).
Qed.

(** X2.  For a span size between 1 and the number of tracks,
    [GetMaxPositionsForAllTracks] returns one entry per start line whose
    window fits, [tracks - span_size + 1] in all, and entry [i] is the
    largest running position of the window starting at line [i]. *)
Theorem GetMaxPositionsForAllTracks_one_per_fitting_line m s :
  (1 <= s <= length (running_positions_ m))%nat →
  ∃ maxes,
    GetMaxPositionsForAllTracks m s = Some maxes ∧
    length maxes = (length (running_positions_ m) - s + 1)%nat ∧
    ∀ i v, maxes !! i = Some v ↔
      (i + s <= length (running_positions_ m))%nat ∧
      WindowMax (running_positions_ m) s i v.
Proof.
  intros Hs.
  destruct (GetMaxPositionsForAllTracks_spec m s Hs) as (maxes & Hmaxes & Hmx).
  exists maxes. split; [done|]. split; [|exact Hmx].
  set (n := length (running_positions_ m)) in *.
  assert (∀ i, (i < length maxes)%nat ↔ (i + s <= n)%nat) as Hlt.
  { intros i. split.
    - intros Hi. destruct (lookup_lt_is_Some_2 maxes i Hi) as [v Hv].
      by apply Hmx in Hv as [Hfit _].
    - intros Hi.
      destruct (WindowMax_exists (running_positions_ m) s i ltac:(lia) Hi)
        as [v Hv].
      apply (lookup_lt_Some maxes i v). apply Hmx. done. }
  destruct (decide (length maxes <= n - s)%nat) as [Hle|Hgt].
  - assert (length maxes < length maxes)%nat; [|lia]. apply Hlt. lia.
  - destruct (decide (n - s + 1 < length maxes)%nat) as [Hbig|?]; [|lia].
    assert (n - s + 1 + s <= n)%nat; [|lia]. apply Hlt. lia.
Qed.

Lemma GetMaxPositionsForAllTracks_one_per_fitting_line_witness :
  let m := MkMasonry [640; 64; 128; 64] [] [] 0 0 false in
  ∃ maxes,
    GetMaxPositionsForAllTracks m 3 = Some maxes ∧
    length maxes = 2%nat ∧
    ∀ i v, maxes !! i = Some v ↔
      (i + 3 <= 4)%nat ∧ WindowMax (running_positions_ m) 3 i v.
Proof.
  intros m.
  apply (GetMaxPositionsForAllTracks_one_per_fitting_line m 3).
  simpl. lia.
Defined.

(** One track too many: the count of start lines wraps around to 0, the
    loop is skipped and the result is the empty vector. *)
Lemma GetMaxPositionsForAllTracks_one_track_too_many m :
  (1 <= length (running_positions_ m))%nat →
  (N.of_nat (length (running_positions_ m)) < 4294967295)%N →
  GetMaxPositionsForAllTracks m (S (length (running_positions_ m)))
  = Some [].
Proof.
  intros Hone Hsize. unfold GetMaxPositionsForAllTracks.
  rewrite decide_False by lia.
  unfold FirstNonFitStartLine. rewrite decide_False by lia.
  replace ((N.of_nat (length (running_positions_ m)) + 4294967296
            - N.of_nat (S (length (running_positions_ m))) mod 4294967296
            + 1) mod 4294967296)%N with 0%N; [done|].
  rewrite (N.mod_small (N.of_nat (S (length (running_positions_ m)))))
    by lia.
  replace (N.of_nat (length (running_positions_ m)) + 4294967296
           - N.of_nat (S (length (running_positions_ m))) + 1)%N
    with 4294967296%N by lia.
  reflexivity.
Qed.

Lemma UpdateTrack_effect new largest track m m' :
  UpdateTrack new largest track m = Some m' →
  ∃ current,
    running_positions_ m !! track = Some current ∧
    running_positions_ m' = <[track := new]> (running_positions_ m) ∧
    track_collection_openings_ m' =
      match OpeningRecorded largest current with
      | Some o => alter (λ openings, openings ++ [o]) track
                    (track_collection_openings_ m)
      | None => track_collection_openings_ m
      end ∧
    (is_Some (OpeningRecorded largest current) →
     (track < length (track_collection_openings_ m))%nat) ∧
    SameSettings m m'.
Proof.
  unfold UpdateTrack, OpeningRecorded, SameSettings. intros Hstep.
  destruct (running_positions_ m !! track) as [current|]; [|done].
  simpl in Hstep. exists current. split; [done|].
  destruct largest as [largest|]; [case_decide; [case_decide; [|done]|]|];
    simpl in Hstep; injection Hstep as <-; simpl; repeat split; try done.
Qed.

Lemma UpdateTrack_is_Some new largest track m current :
  running_positions_ m !! track = Some current →
  (is_Some (OpeningRecorded largest current) →
   (track < length (track_collection_openings_ m))%nat) →
  is_Some (UpdateTrack new largest track m).
Proof.
  unfold UpdateTrack, OpeningRecorded. intros -> Hrange. simpl.
  destruct largest as [largest|]; [|simpl; eauto].
  case_decide; [|simpl; eauto].
  rewrite decide_True by (apply Hrange; eauto). simpl. eauto.
Qed.

(** The loop of [UpdateRunningPositionsForSpan] over distinct tracks. *)
Lemma for_each_track_effect new largest tracks : ∀ m m',
  NoDup tracks →
  for_each_track (UpdateTrack new largest) tracks m = Some m' →
  length (running_positions_ m') = length (running_positions_ m) ∧
  length (track_collection_openings_ m')
  = length (track_collection_openings_ m) ∧
  SameSettings m m' ∧
  (∀ j, j ∈ tracks → (j < length (running_positions_ m))%nat) ∧
  (∀ j, running_positions_ m' !! j =
        if decide (j ∈ tracks)
        then Some new else running_positions_ m !! j) ∧
  (∀ j openings,
     track_collection_openings_ m !! j = Some openings →
     track_collection_openings_ m' !! j =
     Some (match running_positions_ m !! j with
           | Some current =>
             if decide (j ∈ tracks) then
               match OpeningRecorded largest current with
               | Some o => openings ++ [o]
               | None => openings
               end
             else openings
           | None => openings
           end)).
Proof.
  induction tracks as [|t tracks IH]; intros m m' Hnodup; simpl.
  - intros [= <-]. repeat split; try done.
    + intros j Hj. by apply elem_of_nil in Hj.
    + intros j openings ->. by destruct (running_positions_ m !! j).
  - apply NoDup_cons in Hnodup as [Hfresh Hnodup].
    destruct (UpdateTrack new largest t m) as [m1|] eqn:Hstep; [|done].
    simpl. intros Hrest.
    apply UpdateTrack_effect in Hstep
      as (current & Hcurrent & Hrp1 & Htco1 & _ & Hs1).
    destruct (IH m1 m' Hnodup Hrest)
      as (Hlen & Hlentco & Hs & Hin & Hrp & Htco).
    assert (t < length (running_positions_ m))%nat as Ht
      by (by apply lookup_lt_Some in Hcurrent).
    assert (length (track_collection_openings_ m1)
            = length (track_collection_openings_ m)) as Hlentco1.
    { rewrite Htco1. destruct (OpeningRecorded largest current); [|done].
      by rewrite length_alter. }
    rewrite Hrp1, length_insert in Hlen.
    split; [done|]. split; [congruence|]. split.
    { destruct Hs as (? & ? & ? & ?), Hs1 as (? & ? & ? & ?).
      repeat split; congruence. }
    split.
    { intros j Hj. apply elem_of_cons in Hj as [->|Hj]; [done|].
      specialize (Hin j Hj). by rewrite Hrp1, length_insert in Hin. }
    split.
    + intros j. rewrite Hrp.
      destruct (decide (j = t)) as [->|Hne].
      * rewrite (decide_True (P := t ∈ t :: tracks)) by left.
        rewrite decide_False by done. rewrite Hrp1.
        by rewrite list_lookup_insert_eq.
      * rewrite Hrp1, list_lookup_insert_ne by done.
        case_decide as Hj.
        -- rewrite decide_True; [done|]. by right.
        -- rewrite decide_False; [done|].
           intros Hj'. apply elem_of_cons in Hj' as [?|?]; done.
    + intros j openings Hopenings.
      destruct (decide (j = t)) as [->|Hne].
      * rewrite Hcurrent.
        rewrite (decide_True (P := t ∈ t :: tracks)) by left.
        assert (track_collection_openings_ m1 !! t
                = Some (match OpeningRecorded largest current with
                        | Some o => openings ++ [o]
                        | None => openings
                        end)) as Hm1.
        { rewrite Htco1. destruct (OpeningRecorded largest current);
            [|done].
          by rewrite list_lookup_alter_eq, Hopenings. }
        rewrite (Htco t _ Hm1).
        rewrite Hrp1, list_lookup_insert_eq by done.
        by rewrite decide_False.
      * assert (track_collection_openings_ m1 !! j = Some openings) as Hm1.
        { rewrite Htco1. destruct (OpeningRecorded largest current);
            [|done].
          by rewrite list_lookup_alter_ne. }
        rewrite (Htco j _ Hm1).
        rewrite Hrp1, list_lookup_insert_ne by done.
        destruct (running_positions_ m !! j); [|done].
        case_decide as Hj.
        -- rewrite decide_True; [done|]. by right.
        -- rewrite decide_False; [done|].
           intros Hj'. apply elem_of_cons in Hj' as [?|?]; done.
Qed.

Lemma for_each_track_requires new largest tracks : ∀ m m',
  NoDup tracks →
  for_each_track (UpdateTrack new largest) tracks m = Some m' →
  ∀ j current,
    j ∈ tracks → running_positions_ m !! j = Some current →
    is_Some (OpeningRecorded largest current) →
    (j < length (track_collection_openings_ m))%nat.
Proof.
  induction tracks as [|t tracks IH]; intros m m' Hnodup; simpl.
  - intros _ j current Hj. by apply elem_of_nil in Hj.
  - apply NoDup_cons in Hnodup as [Hfresh Hnodup].
    destruct (UpdateTrack new largest t m) as [m1|] eqn:Hstep; [|done].
    simpl. intros Hrest j current Hj Hcurrent Hrec.
    apply UpdateTrack_effect in Hstep
      as (current' & Hcurrent' & Hrp1 & Htco1 & Hrange & _).
    apply elem_of_cons in Hj as [->|Hj].
    + apply Hrange. rewrite Hcurrent in Hcurrent'. by injection Hcurrent' as <-.
    + assert (j ≠ t) as Hne by (intros ->; done).
      assert (length (track_collection_openings_ m1)
              = length (track_collection_openings_ m)) as <-.
      { rewrite Htco1. destruct (OpeningRecorded largest current'); [|done].
        by rewrite length_alter. }
      apply (IH m1 m' Hnodup Hrest j current Hj); [|done].
      by rewrite Hrp1, list_lookup_insert_ne.
Qed.

Lemma for_each_track_is_Some new largest tracks : ∀ m,
  NoDup tracks →
  (∀ j, j ∈ tracks →
     ∃ current, running_positions_ m !! j = Some current ∧
       (is_Some (OpeningRecorded largest current) →
        (j < length (track_collection_openings_ m))%nat)) →
  is_Some (for_each_track (UpdateTrack new largest) tracks m).
Proof.
  induction tracks as [|t tracks IH]; intros m Hnodup Hall; simpl; [eauto|].
  apply NoDup_cons in Hnodup as [Hfresh Hnodup].
  destruct (Hall t ltac:(left)) as (current & Hcurrent & Hrange).
  destruct (UpdateTrack_is_Some new largest t m current Hcurrent Hrange)
    as [m1 Hstep].
  rewrite Hstep. simpl. apply IH; [done|]. intros j Hj.
  apply UpdateTrack_effect in Hstep
    as (current' & _ & Hrp1 & Htco1 & _ & _).
  assert (j ≠ t) as Hne by (intros ->; done).
  destruct (Hall j ltac:(by right)) as (cj & Hcj & Hrj).
  exists cj. rewrite Hrp1, list_lookup_insert_ne by done. split; [done|].
  intros Hrec. rewrite Htco1.
  destruct (OpeningRecorded largest current'); [|by apply Hrj].
  rewrite length_alter. by apply Hrj.
Qed.

(** X3.  [UpdateRunningPositionsForSpan] goes through exactly when the span
    ends within the running positions and every track of the span on
    which an opening is to be recorded has an opening list; any other call
    stops at a CHECK. *)
Theorem UpdateRunningPositionsForSpan_succeeds_iff m span new largest :
  is_Some (UpdateRunningPositionsForSpan m span new largest) ↔
  (EndLine span <= length (running_positions_ m))%nat ∧
  ∀ track current,
    (StartLine span <= track < EndLine span)%nat →
    running_positions_ m !! track = Some current →
    is_Some (OpeningRecorded largest current) →
    (track < length (track_collection_openings_ m))%nat.
Proof.
  unfold UpdateRunningPositionsForSpan. case_decide as Hend.
  - split.
    + intros [m' Hm']. split; [done|]. intros track current Htrack.
      apply (for_each_track_requires _ _ _ _ _ (NoDup_seq _ _) Hm').
      apply elem_of_seq. lia.
    + intros [_ Hrange]. apply for_each_track_is_Some; [apply NoDup_seq|].
      intros j Hj. apply elem_of_seq in Hj.
      destruct (lookup_lt_is_Some_2 (running_positions_ m) j ltac:(lia))
        as [current Hcurrent].
      exists current. split; [done|]. apply Hrange; [lia|done].
  - split; [by intros [? ?]|]. by intros [? _].
Qed.

(** X4.  After [UpdateRunningPositionsForSpan] every track of the span has the
    new running position and every other track keeps its own, whether or
    not a maximum for the span was supplied; asked again, the largest
    running position of a span of at least one track is the new one. *)
Theorem UpdateRunningPositionsForSpan_sets_span m span new largest m' :
  UpdateRunningPositionsForSpan m span new largest = Some m' →
  length (running_positions_ m') = length (running_positions_ m) ∧
  SameSettings m m' ∧
  (∀ j, running_positions_ m' !! j =
        if decide (StartLine span <= j < EndLine span)%nat
        then Some new else running_positions_ m !! j) ∧
  ((StartLine span < EndLine span)%nat →
   GetMaxPositionForSpan m' span = Some new).
Proof.
  unfold UpdateRunningPositionsForSpan. case_decide as Hend; [|done].
  intros Hloop.
  apply for_each_track_effect in Hloop
    as (Hlen & _ & Hsame & _ & Hrp & _); [|apply NoDup_seq].
  assert (∀ j, running_positions_ m' !! j =
               if decide (StartLine span <= j < EndLine span)%nat
               then Some new else running_positions_ m !! j) as Hrp'.
  { intros j. rewrite Hrp.
    destruct (decide (StartLine span <= j < EndLine span)%nat) as [Hj|Hj].
    - rewrite decide_True; [done|]. apply elem_of_seq. lia.
    - rewrite decide_False; [done|]. rewrite elem_of_seq. lia. }
  split; [done|]. split; [done|]. split; [done|].
  intros Hspan. destruct span as [a b]. simpl in *.
  destruct (GetMaxPositionForSpan_is_Some m' (b - a) a ltac:(lia)
              ltac:(unfold Fits; lia)) as [v Hv].
  replace (a + (b - a))%nat with b in Hv by lia. rewrite Hv. f_equal.
  replace b with (a + (b - a))%nat in Hv at 1 by lia.
  apply GetMaxPositionForSpan_window in Hv as [(k & Hk & Hv) _].
  rewrite Hrp' in Hv. rewrite decide_True in Hv by lia. by injection Hv.
Qed.

Lemma UpdateRunningPositionsForSpan_sets_span_witness :
  let m := MkMasonry [0; 3200; 6400] [[]; []; []] [640; 640; 640] 0 0 true in
  ∃ m', UpdateRunningPositionsForSpan m (TranslatedDefiniteGridSpan 0 2)
          9600 (Some 3200) = Some m' ∧
        running_positions_ m' = [9600; 9600; 6400] ∧
        GetMaxPositionForSpan m' (TranslatedDefiniteGridSpan 0 2) = Some 9600.
Proof.
  intros m. eexists. split; [reflexivity|]. split; [reflexivity|].
  refine (proj2 (proj2 (proj2
            (UpdateRunningPositionsForSpan_sets_span m
               (TranslatedDefiniteGridSpan 0 2) 9600 (Some 3200) _ eq_refl)))
            _).
  simpl. lia.
Defined.

(** X5.  Under dense packing [UpdateRunningPositionsForSpan] appends to the
    opening list of each track of the span that was below the span's
    maximum the one opening from its old running position to that maximum,
    and leaves every other opening list as it was. *)
Theorem UpdateRunningPositionsForSpan_records_openings
    m span new largest m' :
  UpdateRunningPositionsForSpan m span new largest = Some m' →
  length (track_collection_openings_ m')
  = length (track_collection_openings_ m) ∧
  ∀ track openings,
    track_collection_openings_ m !! track = Some openings →
    track_collection_openings_ m' !! track =
    Some (OpeningsAfterUpdate span largest track
            (running_positions_ m !! track) openings).
Proof.
  unfold UpdateRunningPositionsForSpan. case_decide as Hend; [|done].
  intros Hloop.
  apply for_each_track_effect in Hloop
    as (_ & Hlen & _ & _ & _ & Htco); [|apply NoDup_seq].
  split; [done|]. intros track openings Hopenings.
  rewrite (Htco _ _ Hopenings). f_equal. unfold OpeningsAfterUpdate.
  destruct (running_positions_ m !! track); [|done].
  destruct (decide (StartLine span <= track < EndLine span)%nat) as [Hj|Hj].
  - rewrite decide_True; [done|]. apply elem_of_seq. lia.
  - rewrite decide_False; [done|]. rewrite elem_of_seq. lia.
Qed.

Lemma UpdateRunningPositionsForSpan_records_openings_witness :
  let m := MkMasonry [0; 3200; 6400] [[]; [MkTrackOpening 0 640]; []]
             [640; 640; 640] 0 0 true in
  ∃ m', UpdateRunningPositionsForSpan m (TranslatedDefiniteGridSpan 0 3)
          12800 (Some 6400) = Some m' ∧
        track_collection_openings_ m' !! 1%nat
        = Some [MkTrackOpening 0 640; MkTrackOpening 3200 6400] ∧
        track_collection_openings_ m' !! 2%nat = Some [].
Proof.
  intros m. eexists. split; [reflexivity|].
  pose proof (proj2 (UpdateRunningPositionsForSpan_records_openings m
                       (TranslatedDefiniteGridSpan 0 3) 12800 (Some 6400)
                       _ eq_refl)) as Hrec.
  split; [exact (Hrec 1%nat _ eq_refl)|exact (Hrec 2%nat _ eq_refl)].
Defined.

End RunningPositionsFurther.

(** ** Further facts about the search for openings *)

Section OpeningSearchFurther.
Import Masonry MasonrySpec MasonryAux MasonryMore.

Lemma ValidPath_PathWindow_is_Some tco size path : ∀ track ps pe,
  ValidPath tco size track ps pe path →
  is_Some (PathWindow tco track ps pe path).
Proof.
  induction path as [|i rest IH]; intros track ps pe; simpl; [eauto|].
  intros (o & -> & _ & Hrest). simpl. by apply IH.
Qed.

(** The window of a valid path lies inside the window it started from and
    inside every opening of the path, and is at least the item's size. *)
Lemma PathWindow_bounds tco size path : ∀ track ps pe ws we,
  ValidPath tco size track ps pe path →
  PathWindow tco track ps pe path = Some (ws, we) →
  ps <= ws ∧ we <= pe ∧
  (path ≠ [] → size <= LayoutUnit.sub we ws) ∧
  ∀ j i, path !! j = Some i →
    ∃ o, OpeningAt tco (track + j) i = Some o ∧
         start_position o <= ws ∧ we <= end_position o.
Proof.
  induction path as [|i rest IH]; intros track ps pe ws we; simpl.
  - intros _ [= <- <-]. split; [lia|]. split; [lia|]. split; [done|].
    intros j i Hj. by rewrite lookup_nil in Hj.
  - intros (o & Ho & Hsize & Hrest). rewrite Ho. simpl. intros Hwin.
    destruct (IH _ _ _ _ _ Hrest Hwin) as (Hps & Hpe & Hsz & Hall).
    split; [lia|]. split; [lia|]. split.
    + intros _. destruct rest as [|i' rest']; [|by apply Hsz].
      simpl in Hwin. by injection Hwin as <- <-.
    + intros [|j] i' Hj; simpl in Hj.
      * injection Hj as <-. exists o. rewrite Nat.add_0_r.
        split; [done|]. lia.
      * destruct (Hall j i' Hj) as (o' & Ho' & ?).
        exists o'. replace (track + S j)%nat with (S track + j)%nat by lia.
        done.
Qed.

(** X7.  When [AccumulateTrackOpeningsToAccommodateItem] returns true, the
    item placed at the result's start position lies inside the window the
    search started from and inside the opening it recorded on every track:
    the placement [start, start + size) touches nothing outside the
    openings of the path. *)
Theorem Accumulate_placement_within_openings m size ps pe n track r0 r :
  (track + n < length (track_collection_openings_ m))%nat →
  IsValid r0 = false →
  0 <= size →
  AccumulateTrackOpeningsToAccommodateItem m size ps pe n track r0 = Some r →
  IsValid r = true →
  ∃ placement path,
    path_start_position r = Some placement ∧
    length path = S n ∧
    track_opening_indices r = track_opening_indices r0 ++ rev path ∧
    ps <= placement ∧ placement + size <= pe ∧
    ∀ j i, path !! j = Some i →
      ∃ o, OpeningAt (track_collection_openings_ m) (track + j) i = Some o ∧
           start_position o <= placement ∧
           placement + size <= end_position o.
Proof.
  intros Hrange Hr0 Hsize Hacc Hvalid.
  destruct (Accumulate_outcome m size n track ps pe r0 Hrange Hr0)
    as (r' & Hr' & Hout).
  rewrite Hacc in Hr'. injection Hr' as <-.
  destruct Hout as [[-> _]|(i & rest & ws & we & _ & Hlen & Hpath & Hwin & ->)];
    [congruence|].
  destruct (PathWindow_bounds _ _ _ _ _ _ _ _ Hpath Hwin)
    as (Hps & Hpe & Hsz & Hall).
  specialize (Hsz ltac:(done)).
  apply le_sub_nonneg in Hsz; [|done].
  exists ws, (i :: rest). simpl. split; [done|]. split; [lia|].
  split; [done|]. split; [done|]. split; [lia|].
  intros j i' Hj. destruct (Hall j i' Hj) as (o & Ho & Hstart & Hend).
  exists o. split; [done|]. lia.
Qed.

Lemma Accumulate_placement_within_openings_witness :
  let m := MkMasonry [12800; 12800]
             [[MkTrackOpening 0 6400]; [MkTrackOpening 3200 6400]]
             [640; 640] 0 0 true in
  ∃ placement path,
    Some 3200 = Some placement ∧
    length path = 2%nat ∧
    [0; 0]%nat = [] ++ rev path ∧
    LayoutUnit.Zero <= placement ∧ placement + 640 <= LayoutUnit.Max ∧
    ∀ j i, path !! j = Some i →
      ∃ o, OpeningAt (track_collection_openings_ m) (0 + j) i = Some o ∧
           start_position o <= placement ∧
           placement + 640 <= end_position o.
Proof.
  intros m.
  exact (Accumulate_placement_within_openings m 640 LayoutUnit.Zero
           LayoutUnit.Max 1 0 EmptyPath (MkPath (Some 3200) 0 [0; 0]%nat)
           ltac:(simpl; lia) eq_refl ltac:(lia) eq_refl eq_refl).
Defined.

End OpeningSearchFurther.

(** ** Further facts about the placement into openings *)

Section PlacementFurther.
Import Masonry MasonrySpec MasonryAux MasonryMore.

Lemma ConsumeOpening_is_Some size placement openings i o :
  openings !! i = Some o →
  is_Some (ConsumeOpening size placement openings i).
Proof.
  intros Ho. unfold ConsumeOpening. rewrite Ho. simpl.
  repeat case_decide; eauto.
Qed.

(** The loop over the recorded indices, for a path given from the
    outermost track inwards: each track of the span has its opening
    consumed once, and no other track is touched. *)
Lemma ConsumePath_effect size placement path : ∀ c tco,
  (∀ j i, path !! j = Some i →
     ∃ o, OpeningAt tco (c + j) i = Some o) →
  ∃ tco',
    ConsumePath size placement (rev path) (c + length path) tco = Some tco' ∧
    length tco' = length tco ∧
    (∀ t, ¬ (c <= t < c + length path)%nat → tco' !! t = tco !! t) ∧
    ∀ j i openings,
      path !! j = Some i → tco !! (c + j)%nat = Some openings →
      ∃ openings',
        ConsumeOpening size placement openings i = Some openings' ∧
        tco' !! (c + j)%nat = Some openings'.
Proof.
  induction path as [|i path IH] using rev_ind; intros c tco Hall.
  - simpl. exists tco. split; [done|]. split; [done|]. split; [done|].
    intros j i openings Hj. by rewrite lookup_nil in Hj.
  - rewrite rev_app_distr, length_app. simpl.
    replace (c + (length path + 1))%nat with (S (c + length path)) by lia.
    destruct (Hall (length path) i) as (o & Ho).
    { rewrite lookup_app_r by lia. by rewrite Nat.sub_diag. }
    unfold OpeningAt in Ho.
    destruct (tco !! (c + length path)%nat) as [openings|] eqn:Hopenings;
      [|done].
    simpl in Ho.
    destruct (ConsumeOpening_is_Some size placement openings i o Ho)
      as [openings' Hconsume].
    cbn [mbind option_bind]. rewrite Hconsume. cbn [mbind option_bind].
    set (tco1 := <[(c + length path)%nat := openings']> tco).
    destruct (IH c tco1) as (tco' & Htco' & Hlen & Hout & Hin).
    { intros j i' Hj.
      assert (j < length path)%nat by (by apply lookup_lt_Some in Hj).
      destruct (Hall j i') as (o' & Ho').
      { by rewrite lookup_app_l by lia. }
      exists o'. unfold OpeningAt, tco1 in *.
      by rewrite list_lookup_insert_ne by lia. }
    exists tco'. split; [done|]. split.
    { rewrite Hlen. unfold tco1. by rewrite length_insert. }
    split.
    + intros t Ht. rewrite Hout by lia. unfold tco1.
      by rewrite list_lookup_insert_ne by lia.
    + intros j i' openings0 Hj Hopenings0.
      destruct (decide (j < length path)%nat) as [Hlt|Hge].
      * rewrite lookup_app_l in Hj by lia.
        apply (Hin j i' openings0 Hj). unfold tco1.
        by rewrite list_lookup_insert_ne by lia.
      * assert (j = length path) as ->.
        { apply lookup_lt_Some in Hj. rewrite length_app in Hj.
          simpl in Hj. lia. }
        rewrite lookup_app_r in Hj by lia. rewrite Nat.sub_diag in Hj.
        injection Hj as <-. rewrite Hopenings in Hopenings0.
        injection Hopenings0 as <-. exists openings'. split; [done|].
        rewrite Hout by lia. unfold tco1.
        apply list_lookup_insert_eq. by apply lookup_lt_Some in Hopenings.
Qed.

(** What a result found from start line [c] stands for. *)
Lemma FoundFrom_path m size span_size c h :
  (1 <= span_size)%nat →
  (c + span_size <= length (track_collection_openings_ m))%nat →
  FoundFrom m size span_size c h →
  ∃ path placement window_end,
    length path = span_size ∧
    ValidPath (track_collection_openings_ m) size c LayoutUnit.Zero
      LayoutUnit.Max path ∧
    PathWindow (track_collection_openings_ m) c LayoutUnit.Zero
      LayoutUnit.Max path = Some (placement, window_end) ∧
    h = MkPath (Some placement) c (rev path).
Proof.
  intros Hsize Hrange (r & Hr & Hvalid & ->).
  destruct (Accumulate_outcome m size (span_size - 1) c LayoutUnit.Zero
              LayoutUnit.Max EmptyPath ltac:(lia) eq_refl)
    as (r' & Hr' & Hout).
  rewrite Hr in Hr'. injection Hr' as <-.
  destruct Hout as [[-> _]|(i & rest & ws & we & _ & Hlen & Hpath & Hwin & ->)];
    [done|].
  exists (i :: rest), ws, we. simpl. split; [lia|]. done.
Qed.

Lemma FoundFrom_unique m size span_size c h h' :
  FoundFrom m size span_size c h → FoundFrom m size span_size c h' → h = h'.
Proof.
  intros (r & Hr & _ & ->) (r' & Hr' & _ & ->). congruence.
Qed.

Lemma opening_starts_sorted openings first i o :
  WellFormedOpenings openings →
  openings !! 0%nat = Some first → openings !! i = Some o →
  start_position first <= start_position o.
Proof.
  intros [Hlt Hsorted] Hfirst Ho.
  destruct openings as [|f rest]; [done|]. injection Hfirst as ->.
  destruct i as [|i]; [injection Ho as ->; lia|]. simpl in Ho.
  apply Forall_cons in Hlt as [Hf _].
  apply StronglySorted_cons in Hsorted as [Hall _].
  rewrite Forall_lookup in Hall. specialize (Hall i o Ho). simpl in *. lia.
Qed.

Lemma IsValid_relabel r c :
  IsValid (MkPath (path_start_position r) c (track_opening_indices r))
  = IsValid r.
Proof. reflexivity. Qed.

Lemma FoundFrom_valid m size span_size c h :
  FoundFrom m size span_size c h → IsValid h = true.
Proof. by intros (r & _ & Hvalid & ->). Qed.

(** One candidate of the [while] loop: the stored result is kept or
    replaced by what the search from the candidate's first track finds,
    and it never becomes worse; when the opening lists are ordered the
    stored result is afterwards at least as high as any path from the
    candidate. *)
Lemma TryCandidateSpan_outcome m size span_size used c h :
  (1 <= span_size)%nat →
  (c + span_size <= length (track_collection_sizes_ m))%nat →
  (c + span_size <= length (track_collection_openings_ m))%nat →
  ∃ h',
    TryCandidateSpan m size span_size used
      (TranslatedDefiniteGridSpan c (c + span_size)) h = Some h' ∧
    (h' = h ∨
     (CalculateUsedTrackSize m
        (TranslatedDefiniteGridSpan c (c + span_size)) = Some used ∧
      FoundFrom m size span_size c h' ∧
      (IsValid h = false ∨ StartPositionOf h' < StartPositionOf h))) ∧
    (IsValid h = true →
     IsValid h' = true ∧ StartPositionOf h' <= StartPositionOf h) ∧
    (OpeningsInvariant m →
     ∀ hc,
       CalculateUsedTrackSize m
         (TranslatedDefiniteGridSpan c (c + span_size)) = Some used →
       FoundFrom m size span_size c hc →
       IsValid h' = true ∧ StartPositionOf h' <= StartPositionOf hc).
Proof.
  intros Hsize Hsizes Htco. unfold TryCandidateSpan.
  destruct (CalculateUsedTrackSize_is_Some m
              (TranslatedDefiniteGridSpan c (c + span_size)) ltac:(done))
    as [sz Hsz].
  rewrite Hsz. cbn [mbind option_bind]. case_decide as Hused.
  { exists h. split; [done|]. split; [by left|]. split; [intros; split; [done|lia]|].
    intros _ hc [= ->]. done. }
  subst sz. cbn [StartLine].
  destruct (lookup_lt_is_Some_2 (track_collection_openings_ m) c
              ltac:(lia)) as [openings Hopenings].
  rewrite Hopenings. cbn [mbind option_bind].
  assert (∀ hc, FoundFrom m size span_size c hc →
            ∃ i o placement,
              openings !! i = Some o ∧
              path_start_position hc = Some placement ∧
              start_position o <= placement) as Hfound.
  { intros hc Hhc.
    destruct (FoundFrom_path m size span_size c hc Hsize Htco Hhc)
      as (path & placement & we & Hlen & Hpath & Hwin & ->).
    destruct path as [|i rest]; [simpl in Hlen; lia|].
    destruct (PathWindow_bounds _ _ _ _ _ _ _ _ Hpath Hwin)
      as (_ & _ & _ & Hall).
    destruct (Hall 0%nat i eq_refl) as (o & Ho & Hstart & _).
    unfold OpeningAt in Ho. rewrite Nat.add_0_r, Hopenings in Ho.
    exists i, o, placement. done. }
  destruct openings as [|first rest].
  { exists h. split; [done|]. split; [by left|].
    split; [intros; split; [done|lia]|].
    intros _ hc _ Hhc. destruct (Hfound hc Hhc) as (i & o & ? & Ho & _).
    by rewrite lookup_nil in Ho. }
  destruct (IsValid h &&
            bool_decide (StartPositionOf h <= start_position first))
    eqn:Hskip.
  { apply andb_true_iff in Hskip as [Hvalid Hle].
    apply bool_decide_eq_true in Hle.
    exists h. split; [done|]. split; [by left|].
    split; [intros; split; [done|lia]|].
    intros Hinv hc _ Hhc. split; [done|].
    destruct (Hfound hc Hhc) as (i & o & placement & Ho & Hplace & Hstart).
    unfold OpeningsInvariant in Hinv. rewrite Forall_lookup in Hinv.
    pose proof (opening_starts_sorted _ first i o (Hinv _ _ Hopenings)
                  eq_refl Ho) as Hsorted.
    unfold StartPositionOf at 2. rewrite Hplace. simpl. lia. }
  destruct (Accumulate_outcome m size (span_size - 1) c LayoutUnit.Zero
              LayoutUnit.Max EmptyPath ltac:(lia) eq_refl)
    as (r & Hr & _).
  rewrite Hr. cbn [mbind option_bind].
  assert (∀ hc, FoundFrom m size span_size c hc →
            IsValid r = true ∧
            hc = MkPath (path_start_position r) c (track_opening_indices r))
    as Hsame.
  { intros hc (r' & Hr' & Hvalid & ->). rewrite Hr in Hr'.
    injection Hr' as <-. done. }
  destruct (IsValid r &&
            (negb (IsValid h) ||
             bool_decide (StartPositionOf r < StartPositionOf h)))
    eqn:Hbetter.
  - apply andb_true_iff in Hbetter as [Hvalid Hlt].
    eexists. split; [done|]. rewrite IsValid_relabel.
    change (StartPositionOf
              (MkPath (path_start_position r) c (track_opening_indices r)))
      with (StartPositionOf r).
    split.
    { right. split; [done|]. split; [by exists r|].
      apply orb_true_iff in Hlt as [Hinvalid|Hlt].
      - left. by destruct (IsValid h).
      - right. by apply bool_decide_eq_true in Hlt. }
    split.
    { intros Hh. split; [done|]. rewrite Hh in Hlt. simpl in Hlt.
      apply bool_decide_eq_true in Hlt. lia. }
    intros _ hc _ Hhc. destruct (Hsame hc Hhc) as [_ ->].
    split; [done|]. unfold StartPositionOf. simpl. lia.
  - exists h. split; [done|]. split; [by left|].
    split; [intros; split; [done|lia]|].
    intros _ hc _ Hhc. destruct (Hsame hc Hhc) as [Hvalid ->].
    rewrite Hvalid in Hbetter. simpl in Hbetter.
    apply orb_false_iff in Hbetter as [Hh Hlt].
    apply bool_decide_eq_false in Hlt.
    split; [by destruct (IsValid h)|].
    change (StartPositionOf
              (MkPath (path_start_position r) c (track_opening_indices r)))
      with (StartPositionOf r). lia.
Qed.

(** The [while] loop over candidates that lie within the tracks. *)
Lemma SearchCandidates_outcome m item size span_size used candidates : ∀ h,
  (1 <= span_size)%nat →
  (length (running_positions_ m) <= length (track_collection_sizes_ m))%nat →
  (length (running_positions_ m)
   <= length (track_collection_openings_ m))%nat →
  Forall (λ span, EndLine span = (StartLine span + span_size)%nat ∧
                  (EndLine span <= length (running_positions_ m))%nat)
    candidates →
  ∃ h',
    SearchCandidates m item size span_size used candidates h = Some h' ∧
    (h' = h ∨
     ∃ span, span ∈ VisitedSpans item candidates ∧
       CalculateUsedTrackSize m span = Some used ∧
       FoundFrom m size span_size (StartLine span) h') ∧
    (IsValid h = true →
     IsValid h' = true ∧ StartPositionOf h' <= StartPositionOf h) ∧
    (OpeningsInvariant m →
     ∀ span hc,
       span ∈ VisitedSpans item candidates →
       CalculateUsedTrackSize m span = Some used →
       FoundFrom m size span_size (StartLine span) hc →
       IsValid h' = true ∧ StartPositionOf h' <= StartPositionOf hc).
Proof.
  intros h Hsize Hsizes Htco Hall. revert h.
  induction candidates as [|span rest IH]; intros h; simpl.
  - exists h. split; [done|]. split; [by left|].
    split; [intros; split; [done|lia]|].
    intros _ span hc Hin. by apply elem_of_nil in Hin.
  - apply Forall_cons in Hall as [[Hend Hfit] Hall].
    destruct (negb (is_auto_placed item) &&
              negb (span_eqb span (resolved_span item))).
    { exists h. split; [done|]. split; [by left|].
      split; [intros; split; [done|lia]|].
      intros _ span' hc Hin. by apply elem_of_nil in Hin. }
    assert (span = TranslatedDefiniteGridSpan (StartLine span)
                     (StartLine span + span_size)) as Hspan
      by (destruct span; simpl in *; by subst).
    destruct (TryCandidateSpan_outcome m size span_size used
                (StartLine span) h Hsize ltac:(lia) ltac:(lia))
      as (h1 & Hh1 & Hsound1 & Hmono1 & Hbest1).
    rewrite <- Hspan in Hh1, Hsound1, Hbest1. rewrite Hh1.
    cbn [mbind option_bind].
    destruct (IH Hall h1) as (h' & Hh' & Hsound & Hmono & Hbest).
    exists h'. split; [done|]. split; [|split].
    + destruct Hsound as [->|(span' & Hin & Hused & Hfound)].
      * destruct Hsound1 as [->|(Hused & Hfound & _)]; [by left|].
        right. exists span. split; [left|done].
      * right. exists span'. split; [by right|done].
    + intros Hh. destruct (Hmono1 Hh) as [Hv1 Hle1].
      destruct (Hmono Hv1) as [Hv' Hle']. split; [done|lia].
    + intros Hinv span' hc Hin Hused Hfound.
      apply elem_of_cons in Hin as [->|Hin].
      * destruct (Hbest1 Hinv hc Hused Hfound) as [Hv1 Hle1].
        destruct (Hmono Hv1) as [Hv' Hle']. split; [done|lia].
      * by apply (Hbest Hinv span').
Qed.

Lemma SpansFrom_lookup count : ∀ item_span k,
  (k < count)%nat →
  TranslatedDefiniteGridSpan (StartLine item_span + k) (EndLine item_span + k)
  ∈ SpansFrom count item_span.
Proof.
  induction count as [|count IH]; intros item_span k Hk; [lia|]. simpl.
  destruct k as [|k].
  - destruct item_span. simpl. rewrite !Nat.add_0_r. left.
  - right. specialize (IH (Next item_span) k ltac:(lia)). simpl in IH.
    by rewrite !Nat.add_succ_r.
Qed.

Lemma VisitedSpans_auto item candidates :
  is_auto_placed item = true → VisitedSpans item candidates = candidates.
Proof.
  intros Hauto. induction candidates as [|span rest IH]; simpl; [done|].
  by rewrite Hauto, IH.
Qed.

(** Every start line the search is to consider is reached by the loop. *)
Lemma CandidateStart_visited m item c :
  (StartLine (resolved_span item) < EndLine (resolved_span item))%nat →
  CandidateStart m item c →
  TranslatedDefiniteGridSpan c (c + SpanSize (resolved_span item))
  ∈ VisitedSpans item (CandidateSpans m (FirstCandidate item)).
Proof.
  intros Hspan [Hfit Hwhich]. unfold CandidateSpans, FirstCandidate.
  set (span_size := SpanSize (resolved_span item)) in *.
  destruct (is_auto_placed item) eqn:Hauto.
  - rewrite VisitedSpans_auto by done. simpl.
    pose proof (SpansFrom_lookup
                  (S (length (running_positions_ m)) - span_size)
                  (TranslatedDefiniteGridSpan 0 span_size) c ltac:(lia))
      as Hin.
    simpl in Hin. by rewrite (Nat.add_comm span_size c) in Hin.
  - destruct Hwhich as [? | ->]; [done|].
    assert (EndLine (resolved_span item)
            = (StartLine (resolved_span item) + span_size)%nat) as Hend
      by (unfold span_size, SpanSize; lia).
    rewrite <- Hend.
    destruct (S (length (running_positions_ m)) - EndLine (resolved_span item))%nat
      as [|count] eqn:Hcount; [lia|].
    simpl. rewrite Hauto. simpl.
    assert (span_eqb (resolved_span item) (resolved_span item) = true) as ->
      by (by apply span_eqb_eq).
    simpl. destruct (resolved_span item). left.
Qed.

Lemma VisitedSpans_subseteq item candidates span :
  span ∈ VisitedSpans item candidates →
  span ∈ candidates ∧
  (is_auto_placed item = true ∨ span = resolved_span item).
Proof.
  induction candidates as [|sp rest IH]; simpl.
  - intros Hin. by apply elem_of_nil in Hin.
  - destruct (negb (is_auto_placed item) &&
              negb (span_eqb sp (resolved_span item))) eqn:Hbreak.
    { intros Hin. by apply elem_of_nil in Hin. }
    intros Hin. apply elem_of_cons in Hin as [->|Hin].
    + split; [left|].
      apply andb_false_iff in Hbreak as [Hauto|Heq].
      * left. by destruct (is_auto_placed item).
      * right. apply span_eqb_eq.
        by destruct (span_eqb sp (resolved_span item)).
    + destruct (IH Hin). split; [by right|done].
Qed.

(** The search half of the function: the stored result is empty or found
    from a start line the search is to consider, and with ordered opening
    lists no such start line has a higher path. *)
Lemma FindHighest_outcome m item size :
  SizedFor m item →
  ∃ highest used,
    CalculateUsedTrackSize m (resolved_span item) = Some used ∧
    FindHighestEligiblePath m item size = Some highest ∧
    (highest = EmptyPath ∨
     ∃ c, CandidateStart m item c ∧
       CalculateUsedTrackSize m
         (TranslatedDefiniteGridSpan c (c + SpanSize (resolved_span item)))
       = Some used ∧
       FoundFrom m size (SpanSize (resolved_span item)) c highest) ∧
    (OpeningsInvariant m →
     ∀ c hc,
       CandidateStart m item c →
       CalculateUsedTrackSize m
         (TranslatedDefiniteGridSpan c (c + SpanSize (resolved_span item)))
       = Some used →
       FoundFrom m size (SpanSize (resolved_span item)) c hc →
       IsValid highest = true ∧
       StartPositionOf highest <= StartPositionOf hc).
Proof.
  intros (Hspan & Hend & Hsizes & Htco).
  destruct (CalculateUsedTrackSize_is_Some m (resolved_span item) Hend)
    as [used Hused].
  unfold FindHighestEligiblePath. rewrite Hused. cbn [mbind option_bind].
  set (span_size := SpanSize (resolved_span item)) in *.
  assert (1 <= span_size)%nat as Hsize by (unfold span_size, SpanSize; lia).
  change (if is_auto_placed item
          then TranslatedDefiniteGridSpan 0 span_size
          else resolved_span item) with (FirstCandidate item).
  assert (EndLine (FirstCandidate item)
          = (StartLine (FirstCandidate item) + span_size)%nat) as Hend0.
  { unfold FirstCandidate. fold span_size.
    destruct (is_auto_placed item); simpl; [done|].
    unfold span_size, SpanSize. lia. }
  assert (Forall (λ span, EndLine span = (StartLine span + span_size)%nat ∧
                          (EndLine span <= length (running_positions_ m))%nat)
            (CandidateSpans m (FirstCandidate item))) as Hall.
  { apply Forall_forall. intros span Hin. unfold CandidateSpans in Hin.
    apply elem_of_SpansFrom in Hin as (k & Hk & ->). simpl. lia. }
  destruct (SearchCandidates_outcome m item size span_size used
              (CandidateSpans m (FirstCandidate item)) EmptyPath
              Hsize Hsizes Htco Hall)
    as (highest & Hhighest & Hsound & _ & Hbest).
  exists highest, used. split; [done|]. split; [done|]. split.
  - destruct Hsound as [->|(span & Hin & Hmatch & Hfound)]; [by left|].
    right. exists (StartLine span).
    destruct (VisitedSpans_subseteq _ _ _ Hin) as [Hcand Hwhich].
    rewrite Forall_forall in Hall. destruct (Hall span Hcand) as [Hse Hfit].
    assert (span = TranslatedDefiniteGridSpan (StartLine span)
                     (StartLine span + span_size)) as Heq
      by (destruct span; simpl in *; by subst).
    rewrite <- Heq. split; [|done]. split; [fold span_size; lia|].
    destruct Hwhich as [? | ->]; [by left|by right].
  - intros Hinv c hc Hc Hmatch Hfound.
    apply (Hbest Hinv (TranslatedDefiniteGridSpan c (c + span_size)) hc);
      [|done|done].
    by apply CandidateStart_visited.
Qed.

(** The whole function: it never stops at a check; without a path it
    changes nothing; with one it consumes, on each track of the winning
    span, the opening the path names, and touches no other track. *)
Lemma GetEligible_outcome m item size :
  SizedFor m item →
  ∃ highest,
    FindHighestEligiblePath m item size = Some highest ∧
    if IsValid highest then
      ∃ c path placement window_end tco',
        let span_size := SpanSize (resolved_span item) in
        CandidateStart m item c ∧
        CalculateUsedTrackSize m
          (TranslatedDefiniteGridSpan c (c + span_size))
        = CalculateUsedTrackSize m (resolved_span item) ∧
        length path = span_size ∧
        ValidPath (track_collection_openings_ m) size c LayoutUnit.Zero
          LayoutUnit.Max path ∧
        PathWindow (track_collection_openings_ m) c LayoutUnit.Zero
          LayoutUnit.Max path = Some (placement, window_end) ∧
        highest = MkPath (Some placement) c (rev path) ∧
        GetEligibleTrackOpeningAndUpdateMasonryItemSpan m item size
        = Some (placement, with_openings m tco',
                with_span item
                  (TranslatedDefiniteGridSpan c (c + span_size))) ∧
        length tco' = length (track_collection_openings_ m) ∧
        (∀ t, ¬ (c <= t < c + span_size)%nat →
              tco' !! t = track_collection_openings_ m !! t) ∧
        ∀ j i openings,
          path !! j = Some i →
          track_collection_openings_ m !! (c + j)%nat = Some openings →
          ∃ openings',
            ConsumeOpening size placement openings i = Some openings' ∧
            tco' !! (c + j)%nat = Some openings'
    else
      GetEligibleTrackOpeningAndUpdateMasonryItemSpan m item size
      = Some (LayoutUnit.Zero, m, item).
Proof.
  intros Hsized.
  destruct (FindHighest_outcome m item size Hsized)
    as (highest & used & Hused & Hhighest & Hsound & _).
  destruct Hsized as (Hspan & Hend & Hsizes & Htco).
  exists highest. split; [done|].
  unfold GetEligibleTrackOpeningAndUpdateMasonryItemSpan.
  rewrite Hhighest. cbn [mbind option_bind].
  destruct Hsound as [->|(c & Hc & Hmatch & Hfound)]; [done|].
  rewrite (FoundFrom_valid _ _ _ _ _ Hfound).
  set (span_size := SpanSize (resolved_span item)) in *.
  assert (1 <= span_size)%nat as Hsize by (unfold span_size, SpanSize; lia).
  pose proof Hc as [Hfit _]. fold span_size in Hfit.
  destruct (FoundFrom_path m size span_size c highest Hsize ltac:(lia) Hfound)
    as (path & placement & we & Hlen & Hpath & Hwin & ->).
  destruct (PathWindow_bounds _ _ _ _ _ _ _ _ Hpath Hwin)
    as (_ & _ & _ & Hall).
  destruct (ConsumePath_effect size placement path c
              (track_collection_openings_ m))
    as (tco' & Htco' & Hlentco & Hout & Hin).
  { intros j i Hj. destruct (Hall j i Hj) as (o & Ho & _). eauto. }
  exists c, path, placement, we, tco'. cbv zeta.
  split; [done|]. split; [congruence|]. split; [done|]. split; [done|].
  split; [done|]. split; [done|].
  cbn [StartPositionOf path_start_position track_opening_indices
       starting_track_index default].
  unfold id. rewrite Hlen in Htco'. rewrite Htco'. cbn [mbind option_bind].
  split; [done|]. split; [done|]. split; [|done].
  intros t Ht. apply Hout. lia.
Qed.

(** X8.  For an object whose vectors cover its tracks and an item whose span
    has sizes, [GetEligibleTrackOpeningAndUpdateMasonryItemSpan] never
    stops at a check.  Without a path it returns the zero position and
    changes nothing.  With one, it returns the innermost overlap start of a
    valid path from a start line the search considers, whose span has the
    item's used track size; it moves the item to that span, replaces on
    each track of the span the opening list by what [ConsumeOpening] makes
    of it for the opening the path names, and leaves the opening lists of
    all other tracks, the running positions and the sizes as they were. *)
Theorem GetEligible_consumes_the_winning_path m item size :
  SizedFor m item →
  ∃ highest,
    FindHighestEligiblePath m item size = Some highest ∧
    if IsValid highest then
      ∃ c path placement window_end tco',
        let span_size := SpanSize (resolved_span item) in
        CandidateStart m item c ∧
        CalculateUsedTrackSize m
          (TranslatedDefiniteGridSpan c (c + span_size))
        = CalculateUsedTrackSize m (resolved_span item) ∧
        length path = span_size ∧
        ValidPath (track_collection_openings_ m) size c LayoutUnit.Zero
          LayoutUnit.Max path ∧
        PathWindow (track_collection_openings_ m) c LayoutUnit.Zero
          LayoutUnit.Max path = Some (placement, window_end) ∧
        highest = MkPath (Some placement) c (rev path) ∧
        GetEligibleTrackOpeningAndUpdateMasonryItemSpan m item size
        = Some (placement, with_openings m tco',
                with_span item
                  (TranslatedDefiniteGridSpan c (c + span_size))) ∧
        length tco' = length (track_collection_openings_ m) ∧
        (∀ t, ¬ (c <= t < c + span_size)%nat →
              tco' !! t = track_collection_openings_ m !! t) ∧
        ∀ j i openings,
          path !! j = Some i →
          track_collection_openings_ m !! (c + j)%nat = Some openings →
          ∃ openings',
            ConsumeOpening size placement openings i = Some openings' ∧
            tco' !! (c + j)%nat = Some openings'
    else
      GetEligibleTrackOpeningAndUpdateMasonryItemSpan m item size
      = Some (LayoutUnit.Zero, m, item).
Proof. apply GetEligible_outcome. Qed.

Lemma three_tracks_packed_sized :
  SizedFor three_tracks_packed (MkItem true (TranslatedDefiniteGridSpan 0 2)).
Proof. unfold SizedFor. simpl. lia. Qed.

Lemma GetEligible_consumes_the_winning_path_witness :
  let item := MkItem true (TranslatedDefiniteGridSpan 0 2) in
  ∃ highest,
    FindHighestEligiblePath three_tracks_packed item 640 = Some highest ∧
    IsValid highest = true ∧
    starting_track_index highest = 0%nat ∧
    StartPositionOf highest = 3200.
Proof.
  intros item.
  destruct (GetEligible_consumes_the_winning_path three_tracks_packed item
              640 three_tracks_packed_sized) as (highest & Hhighest & _).
  exists highest. split; [exact Hhighest|].
  vm_compute in Hhighest. injection Hhighest as <-. by vm_compute.
Defined.

(** X9.  An item that is not auto-placed is never moved: whatever the search
    finds, the item's span after the call is the author's span. *)
Theorem GetEligible_keeps_author_span m item size position m' item' :
  SizedFor m item →
  is_auto_placed item = false →
  GetEligibleTrackOpeningAndUpdateMasonryItemSpan m item size
  = Some (position, m', item') →
  item' = item.
Proof.
  intros Hsized Hauto Hget.
  destruct (GetEligible_outcome m item size Hsized) as (highest & _ & Hout).
  destruct (IsValid highest); [|congruence].
  destruct Hout as (c & path & placement & we & tco' & Hout).
  cbv zeta in Hout.
  destruct Hout as ([_ Hc] & _ & _ & _ & _ & _ & Hget' & _).
  rewrite Hget in Hget'. injection Hget' as _ _ ->.
  destruct Hc as [? | ->]; [congruence|].
  destruct Hsized as (Hspan & _). destruct item as [auto [a b]].
  unfold with_span, SpanSize. simpl in *. repeat f_equal. lia.
Qed.

Lemma GetEligible_keeps_author_span_witness :
  let item := MkItem false (TranslatedDefiniteGridSpan 1 2) in
  ∃ position m',
    GetEligibleTrackOpeningAndUpdateMasonryItemSpan three_tracks_packed item
      640 = Some (position, m', item) ∧
    position = 3200.
Proof.
  intros item.
  assert (SizedFor three_tracks_packed item) as Hsized
    by (unfold SizedFor; simpl; lia).
  eexists 3200, _. split; [|reflexivity].
  assert (∃ item',
            GetEligibleTrackOpeningAndUpdateMasonryItemSpan
              three_tracks_packed item 640
            = Some (3200,
                    with_openings three_tracks_packed
                      [[MkTrackOpening 0 6400]; [MkTrackOpening 3840 6400];
                       []], item')) as [item' Hget]
    by (eexists; reflexivity).
  rewrite Hget.
  by rewrite (GetEligible_keeps_author_span three_tracks_packed item 640 _ _
                item' Hsized eq_refl Hget).
Defined.

(** X10.  With ordered opening lists the item goes to the highest path: the
    position returned is at most the start position of the path found from
    any start line the search considers whose span has the item's used
    track size, and whenever such a path exists the item is moved onto
    one. *)
Theorem GetEligible_takes_the_highest_path
    m item size position m' item' c hc :
  SizedFor m item →
  OpeningsInvariant m →
  GetEligibleTrackOpeningAndUpdateMasonryItemSpan m item size
  = Some (position, m', item') →
  CandidateStart m item c →
  CalculateUsedTrackSize m
    (TranslatedDefiniteGridSpan c (c + SpanSize (resolved_span item)))
  = CalculateUsedTrackSize m (resolved_span item) →
  FoundFrom m size (SpanSize (resolved_span item)) c hc →
  position <= StartPositionOf hc ∧
  ∃ h, FoundFrom m size (SpanSize (resolved_span item))
         (StartLine (resolved_span item')) h ∧
       StartPositionOf h = position.
Proof.
  intros Hsized Hinv Hget Hc Hmatch Hfound.
  destruct (FindHighest_outcome m item size Hsized)
    as (highest & used & Hused & Hhighest & Hsound & Hbest).
  rewrite Hused in Hmatch.
  destruct (Hbest Hinv c hc Hc Hmatch Hfound) as [Hvalid Hle].
  unfold GetEligibleTrackOpeningAndUpdateMasonryItemSpan in Hget.
  rewrite Hhighest in Hget. cbn [mbind option_bind] in Hget.
  rewrite Hvalid in Hget.
  destruct (ConsumePath _ _ _ _ _); [|done]. simpl in Hget.
  injection Hget as <- _ <-. split; [done|].
  destruct Hsound as [->|(c' & _ & _ & Hfound')]; [done|].
  exists highest. simpl. split; [|done].
  destruct Hfound' as (r & Hr & Hrv & ->). simpl. by exists r.
Qed.

Lemma GetEligible_takes_the_highest_path_witness :
  let item := MkItem true (TranslatedDefiniteGridSpan 0 1) in
  let m := MkMasonry [12800; 12800; 12800]
             [[MkTrackOpening 3200 6400]; [MkTrackOpening 640 6400]; []]
             [640; 640; 640] 0 0 true in
  ∃ position m' item',
    GetEligibleTrackOpeningAndUpdateMasonryItemSpan m item 640
    = Some (position, m', item') ∧
    position <= 3200 ∧ StartLine (resolved_span item') = 1%nat.
Proof.
  intros item m.
  assert (SizedFor m item) as Hsized by (unfold SizedFor; simpl; lia).
  assert (OpeningsInvariant m) as Hinv.
  { unfold OpeningsInvariant, WellFormedOpenings. simpl.
    repeat first [ lia | apply Forall_nil_2 | apply Forall_cons_2
                 | apply SSorted_nil | apply SSorted_cons | split ]. }
  eexists _, _, _. split; [reflexivity|]. split; [|reflexivity].
  refine (proj1 (GetEligible_takes_the_highest_path m item 640 _ _ _ 0%nat
                   (MkPath (Some 3200) 0 [0%nat]) Hsized Hinv eq_refl
                   _ eq_refl _)).
  - split; [unfold item, m, SpanSize; simpl; lia|by left].
  - eexists. split; [reflexivity|]. split; reflexivity.
Defined.



End PlacementFurther.

(** ** Facts about the cache of track sizes *)

Section TrackSizesFurther.
Import Masonry MasonrySpec MasonryTrackSizes MasonryMore.

Lemma WellSpacedLines_facts (lp : list Z) n gutter :
  length lp = S n → WellSpacedLines lp gutter →
  0 <= gutter ∧ 0 <= lp !!! 0%nat ∧ lp !!! n <= LayoutUnit.kIntMax ∧
  ∀ i, (i < n)%nat →
    lp !!! i + (if decide (i < n - 1)%nat then gutter else 0) <= lp !!! S i.
Proof.
  intros Hlen (Hgutter & Hfirst & Hlast & Hstep).
  assert (∀ i, (i <= n)%nat → lp !! i = Some (lp !!! i)) as Hlookup.
  { intros i Hi. apply list_lookup_lookup_total_lt. lia. }
  split; [done|]. split; [apply Hfirst, Hlookup; lia|]. split.
  - apply Hlast. rewrite last_lookup, Hlen. simpl. apply Hlookup. lia.
  - intros i Hi.
    pose proof (Hstep i _ _ (Hlookup i ltac:(lia)) (Hlookup (S i) ltac:(lia)))
      as Hle.
    rewrite Hlen in Hle.
    destruct (decide (i < n - 1)%nat);
      [rewrite decide_True in Hle by lia | rewrite decide_False in Hle by lia];
      done.
Qed.

Lemma lines_monotone (lp : list Z) n gutter :
  length lp = S n → WellSpacedLines lp gutter →
  ∀ j i, (i <= j <= n)%nat → lp !!! i <= lp !!! j.
Proof.
  intros Hlen Hlines.
  destruct (WellSpacedLines_facts lp n gutter Hlen Hlines)
    as (Hgutter & _ & _ & Hstep).
  induction j as [|j IH]; intros i Hi.
  - replace i with 0%nat by lia. lia.
  - destruct (decide (i = S j)) as [->|Hne]; [lia|].
    specialize (IH i ltac:(lia)). specialize (Hstep j ltac:(lia)).
    destruct (decide (j < n - 1)%nat); lia.
Qed.

Lemma TrackSizeFromLines_value (lp : list Z) n gutter i :
  length lp = S n → WellSpacedLines lp gutter → (i < n)%nat →
  TrackSizeFromLines lp n gutter i
  = lp !!! S i - lp !!! i - (if decide (i < n - 1)%nat then gutter else 0) ∧
  0 <= TrackSizeFromLines lp n gutter i.
Proof.
  intros Hlen Hlines Hi.
  destruct (WellSpacedLines_facts lp n gutter Hlen Hlines)
    as (Hgutter & Hfirst & Hlast & Hstep).
  pose proof (lines_monotone lp n gutter Hlen Hlines) as Hmono.
  pose proof (Hmono i 0%nat ltac:(lia)).
  pose proof (Hmono n (S i) ltac:(lia)).
  specialize (Hstep i Hi).
  unfold TrackSizeFromLines, LayoutUnit.sub.
  rewrite (Clamp_id (lp !!! S i - lp !!! i))
    by (unfold LayoutUnit.InRange, LayoutUnit.kIntMin, LayoutUnit.kIntMax in *;
        destruct (decide (i < n - 1)%nat); lia).
  destruct (decide (i < n - 1)%nat); [|lia].
  rewrite Clamp_id
    by (unfold LayoutUnit.InRange, LayoutUnit.kIntMin, LayoutUnit.kIntMax in *;
        lia).
  lia.
Qed.

(** The saturating sum of the cached sizes of [k + 1] consecutive tracks
    telescopes. *)
Lemma cached_sizes_sum (lp : list Z) n gutter a :
  length lp = S n → WellSpacedLines lp gutter →
  ∀ k, (a + S k <= n)%nat →
    foldl LayoutUnit.add LayoutUnit.Zero
      (TrackSizeFromLines lp n gutter <$> seq a (S k))
    = lp !!! (a + S k)%nat - lp !!! a
      - gutter * GuttersSubtracted n a (a + S k) ∧
    0 <= lp !!! (a + S k)%nat - lp !!! a
         - gutter * GuttersSubtracted n a (a + S k).
Proof.
  intros Hlen Hlines.
  destruct (WellSpacedLines_facts lp n gutter Hlen Hlines)
    as (Hgutter & Hfirst & Hlast & _).
  pose proof (lines_monotone lp n gutter Hlen Hlines) as Hmono.
  induction k as [|k IH]; intros Hk.
  - destruct (TrackSizeFromLines_value lp n gutter a Hlen Hlines ltac:(lia))
      as [Hvalue Hpos].
    pose proof (Hmono n (S a) ltac:(lia)).
    pose proof (Hmono a 0%nat ltac:(lia)).
    simpl. unfold LayoutUnit.add, LayoutUnit.Zero, GuttersSubtracted.
    replace (a + 1)%nat with (S a) by lia.
    replace (S a - a)%nat with 1%nat by lia.
    rewrite Z.add_0_l, Clamp_id
      by (unfold LayoutUnit.InRange, LayoutUnit.kIntMin, LayoutUnit.kIntMax
            in *; destruct (decide (a < n - 1)%nat); lia).
    rewrite Hvalue.
    destruct (decide (a < n - 1)%nat), (decide (S a = n)); lia.
  - destruct (IH ltac:(lia)) as [Hsum Hpos].
    destruct (TrackSizeFromLines_value lp n gutter (a + S k) Hlen Hlines
                ltac:(lia)) as [Hvalue Htrack].
    pose proof (Hmono n (a + S (S k))%nat ltac:(lia)).
    pose proof (Hmono a 0%nat ltac:(lia)).
    rewrite seq_S, fmap_app, foldl_app, Hsum. simpl.
    unfold GuttersSubtracted in *.
    replace (S (a + S k)) with (a + S (S k))%nat in Hvalue by lia.
    replace (a + S k - a)%nat with (S k) in * by lia.
    replace (a + S (S k) - a)%nat with (S (S k)) by lia.
    rewrite decide_False in * by lia.
    assert (Z.of_nat (S (S k)) = Z.of_nat (S k) + 1) as -> by lia.
    set (count := Z.of_nat (S k)) in *.
    assert (0 <= count) by lia.
    unfold LayoutUnit.add. rewrite Hvalue in *.
    destruct (decide (a + S k < n - 1)%nat), (decide (a + S (S k) = n)%nat);
      try lia;
      (rewrite Clamp_id
         by (unfold LayoutUnit.InRange, LayoutUnit.kIntMin,
               LayoutUnit.kIntMax in *; nia));
      nia.
Qed.

(** X12.  Caching the track sizes from the lines of the grid axis and asking for
    the used track size of a span composes to a closed form: for lines
    that are well spaced, the used size of the span [first, last) is the
    distance between its two bounding lines less one gutter per track,
    the last track of the grid having none. *)
Theorem CalculateUsedTrackSize_after_caching
    m line_positions end_line gutter m' first last :
  CalculateAndCacheTrackSizes m line_positions end_line gutter = Some m' →
  WellSpacedLines line_positions gutter →
  (first < last <= end_line)%nat →
  length (track_collection_sizes_ m') = end_line ∧
  CalculateUsedTrackSize m' (TranslatedDefiniteGridSpan first last)
  = Some (line_positions !!! last - line_positions !!! first
          - gutter * GuttersSubtracted end_line first last).
Proof.
  unfold CalculateAndCacheTrackSizes. case_decide as Hlen; [|done].
  intros [= <-] Hlines Hspan. simpl.
  rewrite length_fmap, length_seq. split; [done|].
  unfold CalculateUsedTrackSize. simpl.
  rewrite length_fmap, length_seq, decide_True by lia. f_equal.
  rewrite <- fmap_drop, <- fmap_take, drop_seq, take_seq. simpl.
  replace ((last - first) `min` (end_line - first))%nat
    with (S (last - first - 1)) by lia.
  destruct (cached_sizes_sum line_positions end_line gutter first Hlen Hlines
              (last - first - 1) ltac:(lia)) as [Hsum _].
  replace (first + S (last - first - 1))%nat with last in Hsum by lia.
  exact Hsum.
Qed.

Lemma CalculateUsedTrackSize_after_caching_witness :
  let m := MkMasonry [0; 0; 0] [[]; []; []] [] 0 0 false in
  let lines := [0; 7040; 14080; 20480] in
  ∃ m', CalculateAndCacheTrackSizes m lines 3 640 = Some m' ∧
        track_collection_sizes_ m' = [6400; 6400; 6400] ∧
        CalculateUsedTrackSize m' (TranslatedDefiniteGridSpan 1 3)
        = Some 12800.
Proof.
  intros m lines. eexists. split; [reflexivity|]. split; [reflexivity|].
  refine (proj2 (CalculateUsedTrackSize_after_caching m lines 3 640 _ 1 3
                   eq_refl _ ltac:(lia))).
  unfold WellSpacedLines, lines. split; [lia|]. split.
  { intros first [= <-]. lia. }
  split.
  { intros final [= <-]. unfold LayoutUnit.kIntMax. lia. }
  intros [|[|[|[|i]]]] here next Hhere Hnext; simpl in *; try done;
    injection Hhere as <-; injection Hnext as <-; lia.
Defined.

End TrackSizesFurther.

(** ** Further facts about the pairing of intersections *)

Section IntersectionPairsFurther.
Import Painter PainterSegments.

Context (track_direction : GridTrackSizingDirection) (gap_index : N)
        (gap_geometry : GapGeometry) (intersections : list Z).

Lemma wtf_add_one a :
  (a + 1 < kWtfSizeModulus)%N → wtf_add a 1 = (a + 1)%N.
Proof. intros Ha. unfold wtf_add. by apply N.mod_small. Qed.

Lemma AdvanceStart_spec count : ∀ steps start,
  (count < kWtfSizeModulus)%N →
  (N.to_nat (count - start) <= steps)%nat →
  let start' :=
    AdvanceStart track_direction count gap_index gap_geometry intersections
      steps start in
  (start <= start')%N ∧
  ((start <= count)%N → (start' <= count)%N) ∧
  (∀ i, (start <= i < start')%N →
     BlockedAfter gap_geometry track_direction gap_index intersections i) ∧
  ((start' < count)%N →
   ¬ BlockedAfter gap_geometry track_direction gap_index intersections
       start').
Proof.
  induction steps as [|steps IH]; intros start Hcount Hsteps; simpl.
  - split; [lia|]. split; [done|]. split; [intros i Hi; lia|]. lia.
  - destruct (start <? count)%N eqn:Hlt; simpl.
    + apply N.ltb_lt in Hlt.
      destruct (kBlockedAfter
                  (GetIntersectionBlockedStatus gap_geometry track_direction
                     gap_index start intersections)) eqn:Hblocked.
      * rewrite wtf_add_one by lia.
        destruct (IH (start + 1)%N Hcount ltac:(lia))
          as (Hle & Hbound & Hall & Hstop).
        split; [lia|]. split; [intros _; apply Hbound; lia|].
        split; [|done]. intros i Hi.
        destruct (decide (i = start)) as [->|Hne]; [done|].
        apply Hall. lia.
      * split; [lia|]. split; [done|]. split; [intros i Hi; lia|].
        intros _. unfold BlockedAfter. by rewrite Hblocked.
    + apply N.ltb_ge in Hlt. split; [lia|]. split; [done|].
      split; [intros i Hi; lia|]. lia.
Qed.

Lemma AdvanceEnd_spec last rule_break : ∀ steps end_index,
  (last < kWtfSizeModulus)%N →
  (N.to_nat (last - end_index) <= steps)%nat →
  let moves i :=
    ShouldMoveIntersectionEndForward track_direction gap_index i rule_break
      gap_geometry intersections in
  let end' :=
    AdvanceEnd track_direction last gap_index rule_break gap_geometry
      intersections steps end_index in
  (end_index <= end')%N ∧
  ((end_index <= last)%N → (end' <= last)%N) ∧
  (∀ i, (end_index <= i < end')%N → (i < last)%N ∧ moves i = true) ∧
  ((end' < last)%N → moves end' = false).
Proof.
  induction steps as [|steps IH]; intros end_index Hlast Hsteps; simpl.
  - split; [lia|]. split; [done|]. split; [intros i Hi; lia|]. lia.
  - destruct (end_index <? last)%N eqn:Hlt; simpl.
    + apply N.ltb_lt in Hlt.
      destruct (ShouldMoveIntersectionEndForward track_direction gap_index
                  end_index rule_break gap_geometry intersections)
        eqn:Hmoves.
      * rewrite wtf_add_one by lia.
        destruct (IH (end_index + 1)%N Hlast ltac:(lia))
          as (Hle & Hbound & Hall & Hstop).
        split; [lia|]. split; [intros _; apply Hbound; lia|].
        split; [|done]. intros i Hi.
        destruct (decide (i = end_index)) as [->|Hne]; [done|].
        apply Hall. lia.
      * split; [lia|]. split; [done|]. split; [intros i Hi; lia|]. done.
    + apply N.ltb_ge in Hlt. split; [lia|]. split; [done|].
      split; [intros i Hi; lia|]. lia.
Qed.

Lemma moves_not_blocked rule_break i :
  ShouldMoveIntersectionEndForward track_direction gap_index i rule_break
    gap_geometry intersections = true →
  rule_break ≠ kNone →
  ¬ BlockedAfter gap_geometry track_direction gap_index intersections i.
Proof.
  unfold ShouldMoveIntersectionEndForward, BlockedAfter.
  intros Hmoves Hbreak Hblocked. rewrite Hblocked in Hmoves.
  destruct rule_break; [done|done|].
  by destruct (GetContainerType gap_geometry).
Qed.

Lemma Adjust_unfold rule_break start end_index count :
  rule_break ≠ kNone →
  AdjustIntersectionIndexPair track_direction start end_index count gap_index
    rule_break gap_geometry intersections =
  let start' :=
    AdvanceStart track_direction count gap_index gap_geometry intersections
      (N.to_nat (count - start)) start in
  if (start' =? wtf_sub count 1)%N then (start', end_index)
  else
    (start',
     AdvanceEnd track_direction (wtf_sub count 1) gap_index rule_break
       gap_geometry intersections
       (N.to_nat (wtf_sub count 1 - wtf_add start' 1)) (wtf_add start' 1)).
Proof. by destruct rule_break. Qed.

(** What a call with a rule break other than [kNone] returns, for a
    count in the range of [wtf_size_t]. *)
Lemma Adjust_outcome rule_break start end_index count :
  rule_break ≠ kNone →
  (1 <= count < kWtfSizeModulus)%N →
  ∃ start' end',
    AdjustIntersectionIndexPair track_direction start end_index count
      gap_index rule_break gap_geometry intersections = (start', end') ∧
    (start <= start')%N ∧
    ((start <= count)%N → (start' <= count)%N) ∧
    (∀ i, (start <= i < start')%N →
       BlockedAfter gap_geometry track_direction gap_index intersections i) ∧
    ((start' < count)%N →
     ¬ BlockedAfter gap_geometry track_direction gap_index intersections
         start') ∧
    (start' = (count - 1)%N → end' = end_index) ∧
    ((start' < count - 1)%N →
     (start' < end' <= count - 1)%N ∧
     (∀ i, (start' < i < end')%N →
        ShouldMoveIntersectionEndForward track_direction gap_index i
          rule_break gap_geometry intersections = true) ∧
     ((end' < count - 1)%N →
      ShouldMoveIntersectionEndForward track_direction gap_index end'
        rule_break gap_geometry intersections = false)).
Proof.
  intros Hbreak Hcount. rewrite Adjust_unfold by done.
  rewrite wtf_sub_one by done. cbv zeta.
  destruct (AdvanceStart_spec count (N.to_nat (count - start)) start
              ltac:(lia) ltac:(lia)) as (Hle & Hbound & Hall & Hstop).
  set (start' := AdvanceStart track_direction count gap_index gap_geometry
                   intersections (N.to_nat (count - start)) start) in *.
  destruct (start' =? count - 1)%N eqn:Hlast.
  - apply N.eqb_eq in Hlast. exists start', end_index.
    split; [done|]. split; [done|]. split; [done|]. split; [done|].
    split; [done|]. split; [done|]. lia.
  - apply N.eqb_neq in Hlast. eexists start', _. split; [done|].
    split; [done|]. split; [done|]. split; [done|]. split; [done|].
    split; [done|]. intros Hbefore.
    rewrite wtf_add_one by lia.
    destruct (AdvanceEnd_spec (count - 1) rule_break
                (N.to_nat (count - 1 - (start' + 1))) (start' + 1)%N
                ltac:(lia) ltac:(lia)) as (Hle' & Hbound' & Hall' & Hstop').
    split; [lia|]. split; [|done].
    intros i Hi. apply Hall'. lia.
Qed.

Lemma OrderedSegments_elem last : ∀ segments lower segment_start segment_end,
  OrderedSegments lower last segments →
  (segment_start, segment_end) ∈ segments →
  (lower <= segment_start < segment_end)%N ∧ (segment_end <= last)%N.
Proof.
  induction segments as [|[s e] segments IH];
    intros lower segment_start segment_end Hordered Hin.
  - by apply elem_of_nil in Hin.
  - destruct Hordered as (Hlower & Hlt & Hlast & Hrest).
    apply elem_of_cons in Hin as [Heq|Hin].
    + injection Heq as -> ->. lia.
    + destruct (IH _ _ _ Hrest Hin). lia.
Qed.

Lemma PaintLoop_S rule_break steps start :
  PaintLoop track_direction gap_index rule_break gap_geometry intersections
    (S steps) start =
  if (start <? wtf_sub (N.of_nat (length intersections)) 1)%N then
    let '(start', end') :=
      AdjustIntersectionIndexPair track_direction start start
        (N.of_nat (length intersections)) gap_index rule_break gap_geometry
        intersections in
    if (end' <=? start')%N then Some []
    else if (start' <? N.of_nat (length intersections))%N &&
            (end' <? N.of_nat (length intersections))%N
    then
      rest ← PaintLoop track_direction gap_index rule_break gap_geometry
               intersections steps end';
      Some ((start', end') :: rest)
    else None
  else Some [].
Proof. reflexivity. Qed.

(** The loop of [Paint] from [start], for a rule break other than [kNone]
    and a last intersection that is not blocked after. *)
Lemma PaintLoop_outcome rule_break :
  rule_break ≠ kNone →
  (1 <= N.of_nat (length intersections) < kWtfSizeModulus)%N →
  ¬ BlockedAfter gap_geometry track_direction gap_index intersections
      (N.of_nat (length intersections) - 1) →
  ∀ steps start,
    (start <= N.of_nat (length intersections) - 1)%N →
    (N.to_nat (N.of_nat (length intersections) - 1 - start) <= steps)%nat →
    ∃ segments,
      PaintLoop track_direction gap_index rule_break gap_geometry
        intersections steps start = Some segments ∧
      OrderedSegments start (N.of_nat (length intersections) - 1) segments ∧
      (∀ i, (start <= i < N.of_nat (length intersections) - 1)%N →
         Covered segments i ↔
         ¬ BlockedAfter gap_geometry track_direction gap_index intersections
             i) ∧
      (∀ segment_start segment_end,
         (segment_start, segment_end) ∈ segments →
         (∀ i, (segment_start < i < segment_end)%N →
            ShouldMoveIntersectionEndForward track_direction gap_index i
              rule_break gap_geometry intersections = true) ∧
         ((segment_end < N.of_nat (length intersections) - 1)%N →
          ShouldMoveIntersectionEndForward track_direction gap_index
            segment_end rule_break gap_geometry intersections = false)).
Proof.
  intros Hbreak Hcount Hunblocked.
  set (count := N.of_nat (length intersections)) in *.
  induction steps as [|steps IH]; intros start Hstart Hsteps.
  - exists []. split; [done|]. split; [done|]. split.
    + intros i Hi. lia.
    + intros s e Hin. by apply elem_of_nil in Hin.
  - rewrite PaintLoop_S. fold count. rewrite wtf_sub_one by done.
    destruct (start <? count - 1)%N eqn:Hlt.
    2:{ apply N.ltb_ge in Hlt. exists []. split; [done|]. split; [done|].
        split; [intros i Hi; lia|].
        intros s e Hin. by apply elem_of_nil in Hin. }
    apply N.ltb_lt in Hlt.
    destruct (Adjust_outcome rule_break start start count Hbreak Hcount)
      as (start' & end' & -> & Hle & Hbound & Hskipped & Hstop & Hsame
          & Hend).
    assert (start' <= count - 1)%N as Hstart'.
    { destruct (decide (start' <= count - 1)%N) as [|Hover]; [done|].
      exfalso. apply Hunblocked. apply Hskipped. lia. }
    destruct (decide (start' = count - 1)%N) as [Hlast|Hbefore].
    + rewrite (Hsame Hlast).
      destruct (start <=? start')%N eqn:Hbreaks;
        [|apply N.leb_gt in Hbreaks; lia].
      exists []. split; [done|]. split; [done|]. split.
      * intros i Hi. split.
        -- intros (s & e & Hin & _). by apply elem_of_nil in Hin.
        -- intros Hfree. exfalso. apply Hfree, Hskipped. lia.
      * intros s e Hin. by apply elem_of_nil in Hin.
    + destruct (Hend ltac:(lia)) as (Hrange & Hmoves & Hbreaks).
      destruct (end' <=? start')%N eqn:Hempty;
        [apply N.leb_le in Hempty; lia|].
      replace (start' <? count)%N with true
        by (symmetry; apply N.ltb_lt; lia).
      replace (end' <? count)%N with true
        by (symmetry; apply N.ltb_lt; lia).
      cbn [andb].
      destruct (IH end' ltac:(lia) ltac:(lia))
        as (rest & -> & Hordered & Hcovered & Hsegments).
      exists ((start', end') :: rest). split; [done|].
      split; [by repeat split; try lia|]. split.
      * intros i Hi. split.
        -- intros (s & e & Hin & Hse) Hblocked.
           apply elem_of_cons in Hin as [Heq|Hin].
           ++ injection Heq as -> ->.
              destruct (decide (i = start')) as [->|Hne].
              ** apply Hstop; [lia|done].
              ** by apply (moves_not_blocked rule_break i);
                   [apply Hmoves; lia|..].
           ++ destruct (OrderedSegments_elem _ _ _ _ _ Hordered Hin).
              apply (proj1 (Hcovered i ltac:(lia))); [|done].
              by exists s, e.
        -- intros Hfree.
           destruct (decide (i < start')%N) as [Hskip|Hnoskip].
           { exfalso. apply Hfree, Hskipped. lia. }
           destruct (decide (i < end')%N) as [Hin|Hafter].
           { exists start', end'. split; [apply elem_of_cons; by left|lia]. }
           destruct (proj2 (Hcovered i ltac:(lia)) Hfree)
             as (s & e & Hin & Hse).
           exists s, e. split; [apply elem_of_cons; by right|done].
      * intros s e Hin. apply elem_of_cons in Hin as [Heq|Hin].
        -- injection Heq as -> ->. split; [done|done].
        -- by apply Hsegments.
Qed.

(** Steps beyond the distance to the last intersection change nothing. *)
Lemma PaintLoop_enough_steps rule_break :
  (N.of_nat (length intersections) < kWtfSizeModulus)%N →
  ∀ steps steps' start,
    (N.to_nat (wtf_sub (N.of_nat (length intersections)) 1 - start)
     <= steps)%nat →
    (N.to_nat (wtf_sub (N.of_nat (length intersections)) 1 - start)
     <= steps')%nat →
    PaintLoop track_direction gap_index rule_break gap_geometry intersections
      steps start =
    PaintLoop track_direction gap_index rule_break gap_geometry intersections
      steps' start.
Proof.
  intros Hcount.
  set (count := N.of_nat (length intersections)) in *.
  set (last := wtf_sub count 1).
  assert (∀ steps start, (last <= start)%N →
            PaintLoop track_direction gap_index rule_break gap_geometry
              intersections steps start = Some []) as Hdone.
  { intros [|steps] start Hstart; [done|].
    rewrite PaintLoop_S. fold count last.
    by replace (start <? last)%N with false
      by (symmetry; apply N.ltb_ge; lia). }
  induction steps as [|steps IH]; intros steps' start Hsteps Hsteps'.
  - rewrite !Hdone by lia. done.
  - destruct steps' as [|steps'].
    { rewrite !Hdone by lia. done. }
    rewrite !PaintLoop_S. fold count last.
    destruct (start <? last)%N eqn:Hlt; [|done].
    apply N.ltb_lt in Hlt.
    destruct (AdjustIntersectionIndexPair track_direction start start count
                gap_index rule_break gap_geometry intersections)
      as [start' end'] eqn:Hpair.
    destruct (end' <=? start')%N eqn:Hempty; [done|].
    apply N.leb_gt in Hempty.
    destruct ((start' <? count)%N && (end' <? count)%N); [|done].
    assert (start < end')%N as Hforward.
    { assert (rule_break = kNone ∨ rule_break ≠ kNone) as [Hnone|Hbreak]
        by (destruct rule_break; auto).
      - rewrite Hnone in Hpair. injection Hpair as <- <-. fold last. done.
      - rewrite Adjust_unfold in Hpair by done. cbv zeta in Hpair.
        destruct (AdvanceStart_spec count (N.to_nat (count - start)) start
                    ltac:(done) ltac:(lia)) as (Hle & _).
        destruct (_ =? _)%N; injection Hpair as <- <-; lia. }
    rewrite (IH steps' end') by lia. done.
Qed.

(** X18.  With a rule break other than [kNone] and a count in the range of
    [wtf_size_t], [AdjustIntersectionIndexPair] moves [start] forward
    over the intersections that are blocked after, and over nothing
    else: the new [start] is not before the old one, every intersection
    from the old [start] up to the new one is blocked after, and the new
    [start], when it is an intersection of the gap, is not blocked
    after.  It passes the count only if it started there. *)
Theorem AdjustIntersectionIndexPair_start_is_first_unblocked
    rule_break start end_index intersection_count :
  rule_break ≠ kNone →
  (1 <= intersection_count < kWtfSizeModulus)%N →
  let start' :=
    (AdjustIntersectionIndexPair track_direction start end_index
       intersection_count gap_index rule_break gap_geometry
       intersections).1 in
  (start <= start')%N ∧
  ((start <= intersection_count)%N → (start' <= intersection_count)%N) ∧
  (∀ i, (start <= i < start')%N →
     BlockedAfter gap_geometry track_direction gap_index intersections i) ∧
  ((start' < intersection_count)%N →
   ¬ BlockedAfter gap_geometry track_direction gap_index intersections
       start').
Proof.
  intros Hbreak Hcount.
  destruct (Adjust_outcome rule_break start end_index intersection_count
              Hbreak Hcount)
    as (start' & end' & -> & Hle & Hbound & Hskipped & Hstop & _).
  done.
Qed.

(** X19.  With a rule break other than [kNone]: when the adjusted [start] is
    the last intersection, [end] is left as it was passed; when it is
    before the last intersection, [end] is after [start] and at most the
    last intersection, [ShouldMoveIntersectionEndForward] holds at every
    intersection strictly between the two, and fails at [end] unless
    [end] is the last intersection. *)
Theorem AdjustIntersectionIndexPair_end_is_first_break
    rule_break start end_index intersection_count :
  rule_break ≠ kNone →
  (1 <= intersection_count < kWtfSizeModulus)%N →
  let pair :=
    AdjustIntersectionIndexPair track_direction start end_index
      intersection_count gap_index rule_break gap_geometry intersections in
  (pair.1 = (intersection_count - 1)%N → pair.2 = end_index) ∧
  ((pair.1 < intersection_count - 1)%N →
   (pair.1 < pair.2 <= intersection_count - 1)%N ∧
   (∀ i, (pair.1 < i < pair.2)%N →
      ShouldMoveIntersectionEndForward track_direction gap_index i
        rule_break gap_geometry intersections = true) ∧
   ((pair.2 < intersection_count - 1)%N →
    ShouldMoveIntersectionEndForward track_direction gap_index pair.2
      rule_break gap_geometry intersections = false)).
Proof.
  intros Hbreak Hcount.
  destruct (Adjust_outcome rule_break start end_index intersection_count
              Hbreak Hcount)
    as (start' & end' & -> & _ & _ & _ & _ & Hsame & Hend).
  done.
Qed.

(** X20.  For a gap whose intersection list is not empty and whose last
    intersection is not blocked after, and a rule break other than
    [kNone], the loop of [Paint] reads no intersection outside the list
    and draws segments that are not empty, lie within the intersections
    and follow one another without overlap; the step from an
    intersection to the next one lies in a drawn segment exactly when
    the intersection is not blocked after.  More steps than the index of
    the last intersection give the same segments. *)
Theorem PaintSegments_draws_the_unblocked_steps rule_break :
  rule_break ≠ kNone →
  (1 <= N.of_nat (length intersections) < kWtfSizeModulus)%N →
  ¬ BlockedAfter gap_geometry track_direction gap_index intersections
      (N.of_nat (length intersections) - 1) →
  ∃ segments,
    PaintSegments track_direction gap_index rule_break gap_geometry
      intersections = Some segments ∧
    OrderedSegments 0 (N.of_nat (length intersections) - 1) segments ∧
    (∀ i, (i < N.of_nat (length intersections) - 1)%N →
       Covered segments i ↔
       ¬ BlockedAfter gap_geometry track_direction gap_index intersections
           i) ∧
    (∀ extra,
       PaintLoop track_direction gap_index rule_break gap_geometry
         intersections
         (N.to_nat (wtf_sub (N.of_nat (length intersections)) 1) + extra)
         0 = Some segments).
Proof.
  intros Hbreak Hcount Hunblocked.
  destruct (PaintLoop_outcome rule_break Hbreak Hcount Hunblocked
              (N.to_nat (wtf_sub (N.of_nat (length intersections)) 1)) 0%N)
    as (segments & Hloop & Hordered & Hcovered & _).
  { lia. }
  { rewrite wtf_sub_one by done. lia. }
  exists segments. split; [done|]. split; [done|]. split.
  - intros i Hi. apply Hcovered. lia.
  - intros extra. rewrite <- Hloop.
    apply PaintLoop_enough_steps; lia.
Qed.

(** X21.  With [RuleBreak::kNone] the loop of [Paint] draws one segment from
    the first to the last intersection of a gap with at least two
    intersections, whatever is blocked, and nothing for a gap with one
    intersection. *)
Theorem PaintSegments_kNone_one_segment :
  (1 <= N.of_nat (length intersections) < kWtfSizeModulus)%N →
  PaintSegments track_direction gap_index kNone gap_geometry intersections =
  if decide (length intersections = 1%nat) then Some []
  else Some [(0%N, N.of_nat (length intersections) - 1)%N].
Proof.
  intros Hcount. unfold PaintSegments.
  set (count := N.of_nat (length intersections)) in *.
  case_decide as Hone.
  - replace (N.to_nat (wtf_sub count 1)) with 0%nat; [done|].
    rewrite wtf_sub_one by done. lia.
  - replace (N.to_nat (wtf_sub count 1))
      with (S (N.to_nat (wtf_sub count 1) - 1))
      by (rewrite wtf_sub_one by done; lia).
    rewrite PaintLoop_S. fold count.
    unfold AdjustIntersectionIndexPair.
    rewrite !wtf_sub_one by done.
    replace (0 <? count - 1)%N with true by (symmetry; apply N.ltb_lt; lia).
    replace (count - 1 <=? 0)%N with false
      by (symmetry; apply N.leb_gt; lia).
    replace (0 <? count)%N with true by (symmetry; apply N.ltb_lt; lia).
    replace (count - 1 <? count)%N with true
      by (symmetry; apply N.ltb_lt; lia).
    cbn [andb].
    destruct (N.to_nat (count - 1) - 1)%nat as [|steps]; [done|].
    rewrite PaintLoop_S. fold count. rewrite wtf_sub_one by done.
    by rewrite N.ltb_irrefl.
Qed.

(** X22.  With [RuleBreak::kSpanningItem], for a gap whose intersection list
    is not empty and whose last intersection is not blocked after, every
    drawn segment runs over intersections that are not blocked after and
    ends at an intersection that is blocked after or at the last
    intersection: the rule breaks only where an item spans the gap. *)
Theorem PaintSegments_spanning_item_breaks_at_blocked
    segments segment_start segment_end :
  (1 <= N.of_nat (length intersections) < kWtfSizeModulus)%N →
  ¬ BlockedAfter gap_geometry track_direction gap_index intersections
      (N.of_nat (length intersections) - 1) →
  PaintSegments track_direction gap_index kSpanningItem gap_geometry
    intersections = Some segments →
  (segment_start, segment_end) ∈ segments →
  (∀ i, (segment_start <= i < segment_end)%N →
     ¬ BlockedAfter gap_geometry track_direction gap_index intersections i) ∧
  (segment_end = (N.of_nat (length intersections) - 1)%N ∨
   BlockedAfter gap_geometry track_direction gap_index intersections
     segment_end).
Proof.
  intros Hcount Hunblocked Hpaint Hin.
  destruct (PaintLoop_outcome kSpanningItem ltac:(done) Hcount Hunblocked
              (N.to_nat (wtf_sub (N.of_nat (length intersections)) 1)) 0%N)
    as (segments' & Hloop & Hordered & Hcovered & Hsegments).
  { lia. }
  { rewrite wtf_sub_one by done. lia. }
  unfold PaintSegments in Hpaint. rewrite Hpaint in Hloop.
  injection Hloop as <-.
  destruct (OrderedSegments_elem _ _ _ _ _ Hordered Hin) as [Hse Hlast].
  destruct (Hsegments _ _ Hin) as [_ Hbreaks]. split.
  - intros i Hi. apply Hcovered; [lia|].
    by exists segment_start, segment_end.
  - destruct (decide (segment_end = N.of_nat (length intersections) - 1)%N)
      as [|Hbefore]; [by left|right].
    specialize (Hbreaks ltac:(lia)).
    unfold ShouldMoveIntersectionEndForward in Hbreaks.
    unfold BlockedAfter. by apply negb_false_iff.
Qed.

(** X23.  In a flex container with [RuleBreak::kIntersection], for a gap
    whose intersection list is not empty and whose last intersection is
    not blocked after, every drawn segment runs from an intersection to
    the next one: the rule breaks at every intersection. *)
Theorem PaintSegments_flex_breaks_at_every_intersection
    segments segment_start segment_end :
  GetContainerType gap_geometry = kFlex →
  (1 <= N.of_nat (length intersections) < kWtfSizeModulus)%N →
  ¬ BlockedAfter gap_geometry track_direction gap_index intersections
      (N.of_nat (length intersections) - 1) →
  PaintSegments track_direction gap_index kIntersection gap_geometry
    intersections = Some segments →
  (segment_start, segment_end) ∈ segments →
  segment_end = (segment_start + 1)%N.
Proof.
  intros Hflex Hcount Hunblocked Hpaint Hin.
  destruct (PaintLoop_outcome kIntersection ltac:(done) Hcount Hunblocked
              (N.to_nat (wtf_sub (N.of_nat (length intersections)) 1)) 0%N)
    as (segments' & Hloop & Hordered & Hcovered & Hsegments).
  { lia. }
  { rewrite wtf_sub_one by done. lia. }
  unfold PaintSegments in Hpaint. rewrite Hpaint in Hloop.
  injection Hloop as <-.
  destruct (OrderedSegments_elem _ _ _ _ _ Hordered Hin) as [Hse Hlast].
  destruct (Hsegments _ _ Hin) as [Hmoves _].
  destruct (decide (segment_end = segment_start + 1)%N) as [|Hlonger];
    [done|].
  specialize (Hmoves (segment_start + 1)%N ltac:(lia)).
  unfold ShouldMoveIntersectionEndForward in Hmoves.
  by rewrite Hflex in Hmoves.
Qed.

End IntersectionPairsFurther.

(** ** The pairing and the segments on concrete gaps *)

Section IntersectionPairsEdges.
Import Painter PainterSegments.

Lemma AdjustIntersectionIndexPair_start_is_first_unblocked_witness :
  let geometry :=
    MkGapGeometry kGrid (λ _ _ i _, MkBlockedStatus false (i <? 2)%N) in
  let intersections := [0; 3200; 6400; 9600] in
  let start' :=
    (AdjustIntersectionIndexPair kForRows 0 0 4 1 kSpanningItem geometry
       intersections).1 in
  (0 <= start')%N ∧
  ((0 <= 4)%N → (start' <= 4)%N) ∧
  (∀ i, (0 <= i < start')%N →
     BlockedAfter geometry kForRows 1 intersections i) ∧
  ((start' < 4)%N → ¬ BlockedAfter geometry kForRows 1 intersections start').
Proof.
  intros geometry intersections.
  apply (AdjustIntersectionIndexPair_start_is_first_unblocked kForRows 1
           geometry intersections kSpanningItem 0 0 4);
    [done | unfold kWtfSizeModulus; lia].
Defined.

Lemma AdjustIntersectionIndexPair_end_is_first_break_witness :
  let geometry :=
    MkGapGeometry kGrid (λ _ _ i _, MkBlockedStatus false (i =? 2)%N) in
  let intersections := [0; 3200; 6400; 9600] in
  let pair :=
    AdjustIntersectionIndexPair kForRows 0 0 4 1 kSpanningItem geometry
      intersections in
  (pair.1 = (4 - 1)%N → pair.2 = 0%N) ∧
  ((pair.1 < 4 - 1)%N →
   (pair.1 < pair.2 <= 4 - 1)%N ∧
   (∀ i, (pair.1 < i < pair.2)%N →
      ShouldMoveIntersectionEndForward kForRows 1 i kSpanningItem geometry
        intersections = true) ∧
   ((pair.2 < 4 - 1)%N →
    ShouldMoveIntersectionEndForward kForRows 1 pair.2 kSpanningItem
      geometry intersections = false)).
Proof.
  intros geometry intersections.
  apply (AdjustIntersectionIndexPair_end_is_first_break kForRows 1 geometry
           intersections kSpanningItem 0 0 4);
    [done | unfold kWtfSizeModulus; lia].
Defined.

Lemma PaintSegments_draws_the_unblocked_steps_witness :
  let geometry :=
    MkGapGeometry kGrid (λ _ _ i _, MkBlockedStatus false (i =? 1)%N) in
  let intersections := [0; 3200; 6400; 9600] in
  ∃ segments,
    PaintSegments kForRows 1 kSpanningItem geometry intersections
    = Some segments ∧
    OrderedSegments 0 (N.of_nat (length intersections) - 1) segments ∧
    (∀ i, (i < N.of_nat (length intersections) - 1)%N →
       Covered segments i ↔
       ¬ BlockedAfter geometry kForRows 1 intersections i) ∧
    (∀ extra,
       PaintLoop kForRows 1 kSpanningItem geometry intersections
         (N.to_nat (wtf_sub (N.of_nat (length intersections)) 1) + extra)
         0 = Some segments).
Proof.
  intros geometry intersections.
  apply (PaintSegments_draws_the_unblocked_steps kForRows 1 geometry
           intersections kSpanningItem).
  - done.
  - unfold kWtfSizeModulus. simpl. lia.
  - unfold BlockedAfter. simpl. done.
Defined.

Lemma PaintSegments_kNone_one_segment_witness :
  let geometry :=
    MkGapGeometry kGrid (λ _ _ _ _, MkBlockedStatus true true) in
  PaintSegments kForRows 1 kNone geometry [0; 3200; 6400; 9600]
  = Some [(0%N, 3%N)].
Proof.
  intros geometry.
  apply (PaintSegments_kNone_one_segment kForRows 1 geometry
           [0; 3200; 6400; 9600]).
  unfold kWtfSizeModulus. simpl. lia.
Defined.

Lemma PaintSegments_spanning_item_breaks_at_blocked_witness :
  let geometry :=
    MkGapGeometry kGrid (λ _ _ i _, MkBlockedStatus false (i =? 1)%N) in
  let intersections := [0; 3200; 6400; 9600] in
  (∀ i, (0 <= i < 1)%N → ¬ BlockedAfter geometry kForRows 1 intersections i) ∧
  (1%N = (N.of_nat (length intersections) - 1)%N ∨
   BlockedAfter geometry kForRows 1 intersections 1).
Proof.
  intros geometry intersections.
  apply (PaintSegments_spanning_item_breaks_at_blocked kForRows 1 geometry
           intersections [(0%N, 1%N); (2%N, 3%N)]).
  - unfold kWtfSizeModulus. simpl. lia.
  - unfold BlockedAfter. simpl. done.
  - reflexivity.
  - apply list_elem_of_here.
Defined.

Lemma PaintSegments_flex_breaks_at_every_intersection_witness :
  2%N = (1 + 1)%N.
Proof.
  apply (PaintSegments_flex_breaks_at_every_intersection kForColumns 0
           (MkGapGeometry kFlex (λ _ _ _ _, MkBlockedStatus false false))
           [0; 3200; 6400; 9600] [(0%N, 1%N); (1%N, 2%N); (2%N, 3%N)]).
  - reflexivity.
  - unfold kWtfSizeModulus. simpl. lia.
  - unfold BlockedAfter. simpl. done.
  - reflexivity.
  - apply list_elem_of_further, list_elem_of_here.
Defined.

End IntersectionPairsEdges.

(** ** Further facts about the accumulation of flex gaps *)

Section FlexGapAccumulationFurther.
Import Flex FlexSpec FlexMore.

Lemma with_main_gaps_same acc : with_main_gaps acc (main_gaps_ acc) = acc.
Proof. by destruct acc. Qed.

Lemma alter_keeps_offsets (f : MainGap → MainGap) (i : nat)
    (gaps : list MainGap) :
  (∀ g, main_gap_offset (f g) = main_gap_offset g) →
  main_gap_offset <$> alter f i gaps = main_gap_offset <$> gaps.
Proof.
  intros Hf. rewrite (list_fmap_alter _ _ id).
  - by apply list_alter_id.
  - apply Forall_forall. intros g _. apply Hf.
Qed.

Lemma extend_range_within count range :
  RangeWithin (S count) range →
  RangeWithin (S count) (extend_range range count).
Proof. destruct range as [[first last]|]; simpl; lia. Qed.

Lemma RangeWithin_mono count count' range :
  RangeWithin count range → (count <= count')%nat →
  RangeWithin count' range.
Proof. destruct range as [[first last]|]; simpl; [lia|done]. Qed.

Lemma HandleCrossGapRanges_Some_iff acc flex_line_index cross_gap_index :
  is_Some (HandleCrossGapRangesForCurrentItem acc flex_line_index
             cross_gap_index)
  ↔ PreviousLineHasMainGap acc flex_line_index.
Proof.
  split.
  - unfold HandleCrossGapRangesForCurrentItem, PreviousLineHasMainGap.
    destruct (main_gaps_ acc) as [|g gaps] eqn:Hgaps; [by left|].
    destruct flex_line_index as [|previous_line]; [by right; left|].
    assert (length (if decide (S previous_line < length (g :: gaps))%nat
                    then alter
                           (IncrementRangeOfCrossGapsBefore cross_gap_index)
                           (S previous_line) (g :: gaps)
                    else g :: gaps) = length (g :: gaps)) as ->
      by (case_decide; rewrite ?length_alter; done).
    case_decide as Hlt; [|by intros [? ?]].
    intros _. right; right. lia.
  - intros Hpre.
    destruct (HandleCrossGapRanges_is_Some acc flex_line_index
                cross_gap_index Hpre) as (acc' & -> & _).
    by eexists.
Qed.

(** What [HandleCrossGapRangesForCurrentItem] changes: only the ranges
    of the [MainGap]s, which stay within the [CrossGap]s up to
    [cross_gap_index]. *)
Lemma HandleCrossGapRanges_effect acc flex_line_index cross_gap_index acc' :
  HandleCrossGapRangesForCurrentItem acc flex_line_index cross_gap_index
  = Some acc' →
  acc' = with_main_gaps acc (main_gaps_ acc') ∧
  main_gap_offset <$> main_gaps_ acc' = main_gap_offset <$> main_gaps_ acc ∧
  (Forall (GapRangesWithin (S cross_gap_index)) (main_gaps_ acc) →
   Forall (GapRangesWithin (S cross_gap_index)) (main_gaps_ acc')).
Proof.
  unfold HandleCrossGapRangesForCurrentItem.
  assert (∀ g, GapRangesWithin (S cross_gap_index) g →
               GapRangesWithin (S cross_gap_index)
                 (IncrementRangeOfCrossGapsBefore cross_gap_index g))
    as Hbefore.
  { intros g [Hb Ha]. split; [by apply extend_range_within|done]. }
  assert (∀ g, GapRangesWithin (S cross_gap_index) g →
               GapRangesWithin (S cross_gap_index)
                 (IncrementRangeOfCrossGapsAfter cross_gap_index g))
    as Hafter.
  { intros g [Hb Ha]. split; [done|by apply extend_range_within]. }
  destruct (main_gaps_ acc) as [|g gaps] eqn:Hgaps.
  - intros [= <-]. rewrite with_main_gaps_same, Hgaps. done.
  - set (gaps1 := if decide (flex_line_index < length (g :: gaps))%nat
                  then alter
                         (IncrementRangeOfCrossGapsBefore cross_gap_index)
                         flex_line_index (g :: gaps)
                  else g :: gaps).
    assert (main_gap_offset <$> gaps1 = main_gap_offset <$> (g :: gaps) ∧
            (Forall (GapRangesWithin (S cross_gap_index)) (g :: gaps) →
             Forall (GapRangesWithin (S cross_gap_index)) gaps1))
      as [Hoffsets1 Hwithin1].
    { unfold gaps1. case_decide; [|done]. split.
      - by apply alter_keeps_offsets.
      - intros Hall. apply Forall_alter; [done|]. intros x _. apply Hbefore. }
    destruct flex_line_index as [|previous_line].
    + intros [= <-]. done.
    + case_decide; [|done]. intros [= <-].
      unfold with_main_gaps. cbn [main_gaps_]. split; [done|]. split.
      * by rewrite alter_keeps_offsets.
      * intros Hall. apply Forall_alter; [by apply Hwithin1|].
        intros x _. apply Hafter.
Qed.

(** The call for an item that is not the first of its line, as the call
    of [PopulateCrossGapForCurrentItem] followed by the update of the
    content end for the last item of the line. *)
Lemma BuildGaps_later_item acc flex_lines flex_line_index
    item_index_in_line item_offset is_first_line is_last_line
    line_cross_start line_cross_end flex_line :
  flex_lines !! flex_line_index = Some flex_line →
  item_index_in_line ≠ 0%nat →
  BuildGapsForCurrentItem acc flex_lines flex_line_index item_index_in_line
    item_offset is_first_line is_last_line line_cross_start line_cross_end
  = acc3 ← PopulateCrossGapForCurrentItem acc flex_line flex_line_index
             is_first_line is_last_line (is_first_line && is_last_line)
             (LayoutUnit.sub (MainAxisOffset (is_column_ acc) item_offset)
                (LayoutUnit.half (gap_between_items_ acc)))
             line_cross_start;
    if is_last_item_in_line flex_line item_index_in_line then
      last_gap ← last (cross_gaps_ acc3);
      Some (with_content_main_end acc3
              (Z.max (MainAxisOffset (is_column_ acc3)
                        (GetGapOffset last_gap))
                 (container_main_end acc3)))
    else Some acc3.
Proof.
  intros Hline Hlater. unfold BuildGapsForCurrentItem.
  rewrite Hline. simpl.
  assert (Nat.eqb item_index_in_line 0 = false) as ->
    by (by apply Nat.eqb_neq).
  rewrite !andb_false_r. done.
Qed.

Ltac split_cross_offset acc flex_line first last cross_start :=
  destruct (if first && last then (cross_start, kBoth)
            else if first then (cross_start, kStart)
            else if last then
              (LayoutUnit.sub cross_start
                 (LayoutUnit.half (gap_between_lines_ acc)), kEnd)
            else
              (LayoutUnit.sub (cross_axis_offset flex_line)
                 (LayoutUnit.half (gap_between_lines_ acc)), kNone))
    as [cross state].

(** X13.  [BuildGapsForCurrentItem] returns exactly when its checks pass: the
    line index is within [flex_lines] and, for an item that is not the
    first of its line, the accumulator has no [MainGap] yet, or the line
    is line 0, or the previous line has its [MainGap]. *)
Theorem BuildGapsForCurrentItem_succeeds_iff
    acc flex_lines flex_line_index item_index_in_line item_offset
    is_first_line is_last_line line_cross_start line_cross_end :
  is_Some (BuildGapsForCurrentItem acc flex_lines flex_line_index
             item_index_in_line item_offset is_first_line is_last_line
             line_cross_start line_cross_end)
  ↔ (flex_line_index < length flex_lines)%nat ∧
    (item_index_in_line = 0%nat ∨
     PreviousLineHasMainGap acc flex_line_index).
Proof.
  destruct (flex_lines !! flex_line_index) as [flex_line|] eqn:Hline.
  2:{ unfold BuildGapsForCurrentItem. rewrite Hline.
      apply lookup_ge_None in Hline. split; [by intros [? ?]|lia]. }
  pose proof (lookup_lt_Some _ _ _ Hline) as Hlt.
  destruct (decide (item_index_in_line = 0%nat)) as [->|Hlater].
  - split; [by intros _; split; [|left]|]. intros _.
    unfold BuildGapsForCurrentItem. rewrite Hline. simpl.
    repeat case_match; by eexists.
  - rewrite (BuildGaps_later_item _ _ _ _ _ _ _ _ _ _ Hline Hlater).
    unfold PopulateCrossGapForCurrentItem.
    split_cross_offset acc flex_line is_first_line is_last_line
      line_cross_start.
    match goal with
    | |- context [HandleCrossGapRangesForCurrentItem ?a ?i ?c] =>
      pose proof (HandleCrossGapRanges_Some_iff a i c) as Hiff;
      destruct (HandleCrossGapRangesForCurrentItem a i c) as [acc3|] eqn:Hacc3
    end.
    + destruct (HandleCrossGapRanges_effect _ _ _ _ Hacc3) as (Heq & _).
      split.
      * intros _. split; [done|right].
        apply (proj1 Hiff). by eexists.
      * intros _. cbn [mbind option_bind].
        destruct (is_last_item_in_line flex_line item_index_in_line);
          [|by eexists].
        rewrite Heq. unfold with_main_gaps, with_cross_gaps.
        cbn [cross_gaps_]. rewrite last_snoc. by eexists.
    + split; [by intros [? ?]|]. intros [_ [?|Hpre]]; [done|].
      destruct (proj2 Hiff Hpre) as [? ?]. done.
Qed.

(** X14.  For the first item of a line in [flex_lines],
    [BuildGapsForCurrentItem] returns, adds no [CrossGap], and adds one
    [MainGap] exactly when the line is not the last one: its offset is
    the line's cross end plus half the gap between lines and its ranges
    are empty.  On the first line the content's cross start becomes the
    line's cross start and its main start the smaller of the container's
    padding start and the item's main offset; on the last line the
    content's cross end becomes the line's cross end; and when the item
    is alone in a line that is not the last, the content's main end
    becomes the container's main end. *)
Theorem BuildGapsForCurrentItem_first_item
    acc flex_lines flex_line_index item_offset is_first_line is_last_line
    line_cross_start line_cross_end flex_line :
  flex_lines !! flex_line_index = Some flex_line →
  ∃ acc',
    BuildGapsForCurrentItem acc flex_lines flex_line_index 0 item_offset
      is_first_line is_last_line line_cross_start line_cross_end = Some acc' ∧
    cross_gaps_ acc' = cross_gaps_ acc ∧
    main_gaps_ acc' =
      main_gaps_ acc ++
      (if is_last_line then []
       else [MkMainGap
               (LayoutUnit.add line_cross_end
                  (LayoutUnit.half (gap_between_lines_ acc))) None None]) ∧
    (content_cross_start_ acc', content_main_start_ acc') =
      (if is_first_line
       then (line_cross_start,
             Z.min (if is_column_ acc
                    then bsp_block_start (container_builder_ acc)
                    else bsp_inline_start (container_builder_ acc))
               (MainAxisOffset (is_column_ acc) item_offset))
       else (content_cross_start_ acc, content_main_start_ acc)) ∧
    content_cross_end_ acc' =
      (if is_last_line then line_cross_end else content_cross_end_ acc) ∧
    content_main_end_ acc' =
      (if negb is_last_line &&
          Nat.eqb (length (item_indices flex_line)) 1
       then container_main_end acc else content_main_end_ acc).
Proof.
  intros Hline. unfold BuildGapsForCurrentItem. rewrite Hline. simpl.
  rewrite !andb_true_r. unfold MainAxisOffset.
  destruct is_first_line, is_last_line; simpl;
    try destruct (Nat.eqb (length (item_indices flex_line)) 1);
    eexists; (split; [done|]); simpl; rewrite ?app_nil_r;
    by destruct acc as [? ? ? []].
Qed.

(** What any call that returns has done to the gaps collected. *)
Lemma BuildGaps_outcome
    acc flex_lines flex_line_index item_index_in_line item_offset
    is_first_line is_last_line line_cross_start line_cross_end acc' :
  BuildGapsForCurrentItem acc flex_lines flex_line_index item_index_in_line
    item_offset is_first_line is_last_line line_cross_start line_cross_end
  = Some acc' →
  ∃ new_cross_gaps new_offsets,
    cross_gaps_ acc' = cross_gaps_ acc ++ new_cross_gaps ∧
    main_gap_offset <$> main_gaps_ acc' =
      (main_gap_offset <$> main_gaps_ acc) ++ new_offsets ∧
    (length new_cross_gaps + length new_offsets <= 1)%nat ∧
    (gap_between_items_ acc', gap_between_lines_ acc', is_column_ acc',
     container_builder_ acc') =
    (gap_between_items_ acc, gap_between_lines_ acc, is_column_ acc,
     container_builder_ acc) ∧
    (RangesWithin acc → RangesWithin acc').
Proof.
  destruct (flex_lines !! flex_line_index) as [flex_line|] eqn:Hline.
  2:{ unfold BuildGapsForCurrentItem. by rewrite Hline. }
  destruct (decide (item_index_in_line = 0%nat)) as [->|Hlater].
  - unfold BuildGapsForCurrentItem. rewrite Hline. simpl.
    rewrite !andb_true_r.
    destruct is_first_line, is_last_line; simpl;
      try destruct (Nat.eqb (length (item_indices flex_line)) 1);
      intros [= <-]; simpl.
    all: first
      [ exists [], []; rewrite !app_nil_r;
        split; [done|]; split; [done|]; split; [simpl; lia|];
        split; [done|]; done
      | eexists [], [_]; rewrite app_nil_r, fmap_app;
        split; [done|]; split; [done|]; split; [simpl; lia|];
        split; [done|];
        unfold RangesWithin; simpl; intros Hall;
        apply Forall_app; split; [done|];
        by apply Forall_singleton ].
  - rewrite (BuildGaps_later_item _ _ _ _ _ _ _ _ _ _ Hline Hlater).
    unfold PopulateCrossGapForCurrentItem.
    split_cross_offset acc flex_line is_first_line is_last_line
      line_cross_start.
    match goal with
    | |- context [HandleCrossGapRangesForCurrentItem ?a ?i ?c] =>
      destruct (HandleCrossGapRangesForCurrentItem a i c) as [acc3|] eqn:Hacc3;
        [|done];
      destruct (HandleCrossGapRanges_effect a i c acc3 Hacc3)
        as (Heq & Hoffsets & Hwithin)
    end.
    cbn [mbind option_bind].
    assert (∃ gap,
              cross_gaps_ acc3 = cross_gaps_ acc ++ [gap] ∧
              main_gap_offset <$> main_gaps_ acc3 =
                main_gap_offset <$> main_gaps_ acc ∧
              (gap_between_items_ acc3, gap_between_lines_ acc3,
               is_column_ acc3, container_builder_ acc3) =
              (gap_between_items_ acc, gap_between_lines_ acc,
               is_column_ acc, container_builder_ acc) ∧
              (RangesWithin acc → RangesWithin acc3))
      as (gap & Hcross & Hmain & Hsame & Hranges).
    { eexists. rewrite Heq. unfold with_main_gaps, with_cross_gaps.
      cbn [cross_gaps_ main_gaps_ gap_between_items_ gap_between_lines_
           is_column_ container_builder_].
      split; [done|]. split; [exact Hoffsets|]. split; [done|].
      unfold RangesWithin. cbn [cross_gaps_ main_gaps_].
      intros Hall. unfold with_cross_gaps in Hwithin.
      cbn [cross_gaps_ main_gaps_] in Hwithin.
      rewrite length_app in *. cbn [length] in *.
      replace (length (cross_gaps_ acc) + 1)%nat
        with (S (length (cross_gaps_ acc) + 1 - 1)) at 1 by lia.
      apply Hwithin.
      eapply Forall_impl; [exact Hall|].
      intros g [Hb Ha]. split; eapply RangeWithin_mono; eauto; lia. }
    assert (∀ v, RangesWithin acc3 →
                 RangesWithin (with_content_main_end acc3 v)) as Hend
      by done.
    destruct (is_last_item_in_line flex_line item_index_in_line).
    + rewrite Hcross, last_snoc. cbn [mbind option_bind]. intros [= <-].
      exists [gap], []. rewrite app_nil_r.
      split; [done|]. split; [done|]. split; [simpl; lia|].
      split; [done|]. intros Hall. by apply Hend, Hranges.
    + intros [= <-]. exists [gap], []. rewrite app_nil_r.
      split; [done|]. split; [done|]. split; [simpl; lia|]. done.
Qed.

(** X15.  Whatever the arguments, a call of [BuildGapsForCurrentItem] that
    returns keeps the ranges of cross gaps of every [MainGap] within
    the [CrossGap]s collected. *)
Theorem BuildGapsForCurrentItem_keeps_ranges_within
    acc flex_lines flex_line_index item_index_in_line item_offset
    is_first_line is_last_line line_cross_start line_cross_end acc' :
  RangesWithin acc →
  BuildGapsForCurrentItem acc flex_lines flex_line_index item_index_in_line
    item_offset is_first_line is_last_line line_cross_start line_cross_end
  = Some acc' →
  RangesWithin acc'.
Proof.
  intros Hranges Hcall.
  destruct (BuildGaps_outcome _ _ _ _ _ _ _ _ _ _ Hcall)
    as (? & ? & _ & _ & _ & _ & Hkeeps).
  by apply Hkeeps.
Qed.

(** X16.  A call of [BuildGapsForCurrentItem] that returns only appends: the
    [CrossGap]s and the offsets of the [MainGap]s collected before are
    still there, in place, at most one gap of either kind has been
    added, and the gap sizes, the direction and the container are
    untouched. *)
Theorem BuildGapsForCurrentItem_only_appends
    acc flex_lines flex_line_index item_index_in_line item_offset
    is_first_line is_last_line line_cross_start line_cross_end acc' :
  BuildGapsForCurrentItem acc flex_lines flex_line_index item_index_in_line
    item_offset is_first_line is_last_line line_cross_start line_cross_end
  = Some acc' →
  cross_gaps_ acc `prefix_of` cross_gaps_ acc' ∧
  (main_gap_offset <$> main_gaps_ acc) `prefix_of`
    (main_gap_offset <$> main_gaps_ acc') ∧
  (length (cross_gaps_ acc') + length (main_gaps_ acc')
   <= S (length (cross_gaps_ acc) + length (main_gaps_ acc)))%nat ∧
  gap_between_items_ acc' = gap_between_items_ acc ∧
  gap_between_lines_ acc' = gap_between_lines_ acc ∧
  is_column_ acc' = is_column_ acc ∧
  container_builder_ acc' = container_builder_ acc.
Proof.
  intros Hcall.
  destruct (BuildGaps_outcome _ _ _ _ _ _ _ _ _ _ Hcall)
    as (new_cross & new_offsets & Hcross & Hmain & Hone & Hsame & _).
  injection Hsame as ? ? ? ?.
  split; [rewrite Hcross; by apply prefix_app_r|].
  split; [rewrite Hmain; by apply prefix_app_r|].
  split; [|done].
  apply (f_equal length) in Hmain.
  rewrite length_app, !length_fmap in Hmain.
  rewrite Hcross, length_app. lia.
Qed.

(** X17.  For an item that is not the first of its line, a call that returns
    leaves the content's cross start, cross end and main start as they
    were; for the last item of the line it sets the content's main end
    to the larger of the main offset of the [CrossGap] just added (the
    item's main offset minus half the gap between items) and the
    container's main end, and for any other item it leaves the main end
    too. *)
Theorem BuildGapsForCurrentItem_last_item_sets_main_end
    acc flex_lines flex_line_index item_index_in_line item_offset
    is_first_line is_last_line line_cross_start line_cross_end flex_line
    acc' :
  flex_lines !! flex_line_index = Some flex_line →
  item_index_in_line ≠ 0%nat →
  BuildGapsForCurrentItem acc flex_lines flex_line_index item_index_in_line
    item_offset is_first_line is_last_line line_cross_start line_cross_end
  = Some acc' →
  content_main_end_ acc' =
    (if is_last_item_in_line flex_line item_index_in_line
     then Z.max
            (LayoutUnit.sub (MainAxisOffset (is_column_ acc) item_offset)
               (LayoutUnit.half (gap_between_items_ acc)))
            (container_main_end acc)
     else content_main_end_ acc) ∧
  content_main_start_ acc' = content_main_start_ acc ∧
  content_cross_start_ acc' = content_cross_start_ acc ∧
  content_cross_end_ acc' = content_cross_end_ acc.
Proof.
  intros Hline Hlater.
  rewrite (BuildGaps_later_item _ _ _ _ _ _ _ _ _ _ Hline Hlater).
  destruct (PopulateCrossGapForCurrentItem acc flex_line flex_line_index
              is_first_line is_last_line (is_first_line && is_last_line)
              (LayoutUnit.sub (MainAxisOffset (is_column_ acc) item_offset)
                 (LayoutUnit.half (gap_between_items_ acc)))
              line_cross_start) as [acc3|] eqn:Hacc3; [|done].
  cbn [mbind option_bind].
  unfold PopulateCrossGapForCurrentItem in Hacc3.
  split_cross_offset acc flex_line is_first_line is_last_line
    line_cross_start.
  destruct (HandleCrossGapRanges_effect _ _ _ _ Hacc3) as (Heq & _).
  destruct (is_last_item_in_line flex_line item_index_in_line).
  - rewrite Heq. unfold with_main_gaps, with_cross_gaps.
    cbn [cross_gaps_]. rewrite last_snoc. cbn [mbind option_bind].
    intros [= <-]. unfold MainAxisOffset, container_main_end. simpl.
    by destruct (is_column_ acc).
  - intros [= <-]. rewrite Heq. done.
Qed.

Lemma BuildGapsForCurrentItem_first_item_witness :
  let builder := MkBuilder 0 0 0 0 19200 12800 in
  let lines := [MkFlexLine [0; 1]%nat 0; MkFlexLine [2; 3]%nat 6400] in
  let acc := NewAccumulator 640 1280 builder false in
  ∃ acc',
    BuildGapsForCurrentItem acc lines 0 0 (MkLogicalOffset 0 0) true false
      0 5120 = Some acc' ∧
    cross_gaps_ acc' = [] ∧
    main_gaps_ acc' = [MkMainGap 5760 None None] ∧
    content_cross_start_ acc' = 0.
Proof.
  intros builder lines acc.
  destruct (BuildGapsForCurrentItem_first_item acc lines 0
              (MkLogicalOffset 0 0) true false 0 5120
              (MkFlexLine [0; 1]%nat 0) eq_refl)
    as (acc' & Hacc' & Hcross & Hmain & Hstart & _).
  exists acc'. split; [exact Hacc'|]. split; [exact Hcross|].
  split; [exact Hmain|]. by injection Hstart.
Defined.

Lemma BuildGapsForCurrentItem_keeps_ranges_within_witness :
  let builder := MkBuilder 0 0 0 0 19200 12800 in
  let lines := [MkFlexLine [0; 1]%nat 0; MkFlexLine [2; 3]%nat 6400] in
  let acc := MkAccumulator 640 1280 builder false
               [MkMainGap 5760 (Some (0, 0)%nat) None]
               [MkCrossGap (MkLogicalOffset 6080 0) kStart] 0 0 0 0 in
  RangesWithin
    (MkAccumulator 640 1280 builder false
       [MkMainGap 5760 (Some (0, 0)%nat) (Some (1, 1)%nat)]
       [MkCrossGap (MkLogicalOffset 6080 0) kStart;
        MkCrossGap (MkLogicalOffset 6080 5760) kEnd] 0 0 0 12800).
Proof.
  intros builder lines acc.
  apply (BuildGapsForCurrentItem_keeps_ranges_within acc lines 1 1
           (MkLogicalOffset 6400 6400) false true 6400 11520).
  - unfold RangesWithin, GapRangesWithin. simpl.
    apply Forall_cons_2; [|apply Forall_nil_2]. simpl. lia.
  - reflexivity.
Defined.

Lemma BuildGapsForCurrentItem_only_appends_witness :
  let builder := MkBuilder 0 0 0 0 19200 12800 in
  let lines := [MkFlexLine [0; 1]%nat 0; MkFlexLine [2; 3]%nat 6400] in
  let acc := MkAccumulator 640 1280 builder false
               [MkMainGap 5760 (Some (0, 0)%nat) None]
               [MkCrossGap (MkLogicalOffset 6080 0) kStart] 0 0 0 0 in
  let acc' := MkAccumulator 640 1280 builder false
                [MkMainGap 5760 (Some (0, 0)%nat) (Some (1, 1)%nat)]
                [MkCrossGap (MkLogicalOffset 6080 0) kStart;
                 MkCrossGap (MkLogicalOffset 6080 5760) kEnd] 0 0 0 12800 in
  cross_gaps_ acc `prefix_of` cross_gaps_ acc' ∧
  (main_gap_offset <$> main_gaps_ acc) `prefix_of`
    (main_gap_offset <$> main_gaps_ acc') ∧
  (length (cross_gaps_ acc') + length (main_gaps_ acc')
   <= S (length (cross_gaps_ acc) + length (main_gaps_ acc)))%nat ∧
  gap_between_items_ acc' = gap_between_items_ acc ∧
  gap_between_lines_ acc' = gap_between_lines_ acc ∧
  is_column_ acc' = is_column_ acc ∧
  container_builder_ acc' = container_builder_ acc.
Proof.
  intros builder lines acc acc'.
  apply (BuildGapsForCurrentItem_only_appends acc lines 1 1
           (MkLogicalOffset 6400 6400) false true 6400 11520).
  reflexivity.
Defined.

Lemma BuildGapsForCurrentItem_last_item_sets_main_end_witness :
  let builder := MkBuilder 0 0 0 0 19200 12800 in
  let lines := [MkFlexLine [0; 1]%nat 0; MkFlexLine [2; 3]%nat 6400] in
  let acc := MkAccumulator 640 1280 builder false
               [MkMainGap 5760 (Some (0, 0)%nat) None]
               [MkCrossGap (MkLogicalOffset 6080 0) kStart] 0 0 0 0 in
  let acc' := MkAccumulator 640 1280 builder false
                [MkMainGap 5760 (Some (0, 0)%nat) (Some (1, 1)%nat)]
                [MkCrossGap (MkLogicalOffset 6080 0) kStart;
                 MkCrossGap (MkLogicalOffset 6080 5760) kEnd] 0 0 0 12800 in
  content_main_end_ acc' = 12800.
Proof.
  intros builder lines acc acc'.
  exact (proj1 (BuildGapsForCurrentItem_last_item_sets_main_end acc lines
                  1 1 (MkLogicalOffset 6400 6400) false true 6400 11520
                  (MkFlexLine [2; 3]%nat 6400) acc' eq_refl
                  ltac:(discriminate) eq_refl)).
Defined.

End FlexGapAccumulationFurther.

(** ** The invariant on a concrete state *)

Section InvariantExamples.
Import Masonry MasonrySpec.


End InvariantExamples.
